(** * clox: a shallow embedding of the scanner, the single-pass compiler
      and the stack VM, with the properties of the specification.

    Conventions of the embedding.

    - A [const char*] into a NUL-terminated buffer is the [string] of the
      characters from that address up to (not including) the terminator.
      Reading at the end yields the NUL character, as in C.
    - [int] counters (chunk count, token line, stack top) are integers of [Z];
      a chunk of 2^31 bytes is never reached by the inputs considered, and
      the two places where the source narrows an [int] (the [uint8_t] casts
      and the two jump operand bytes) have the narrowing written out.
    - A [double] is a primitive binary64 float.
    - An [ObjString*] returned by [copyString] is an [ObjString] record that
      carries the serial number of its allocation: pointer equality is
      equality of serial numbers.  No [ObjString] is ever released by the
      sources, so serial numbers are never reused.
    - Operations whose behaviour C leaves undefined (reading below the
      operand stack, using the stack after [free], fetching outside the
      code array, ...) stop the machine with an explicit [Fault].
    - Recursive descent and the dispatch loop take a [fuel] argument;
      [None] means the fuel did not suffice. *)

From Stdlib Require Import ZArith Bool List String Ascii Lia.
From Stdlib Require Import Floats.PrimFloat Floats.SpecFloat Floats.FloatOps.
Import ListNotations.

Local Open Scope string_scope.
Local Open Scope Z_scope.

(* ================================================================== *)
(** * Characters and small string utilities *)
(* ================================================================== *)

Definition NUL : ascii := ascii_of_nat 0.
Definition TAB : ascii := ascii_of_nat 9.
Definition LF : ascii := ascii_of_nat 10.
Definition CR : ascii := ascii_of_nat 13.
Definition DQUOTE : ascii := ascii_of_nat 34.

Definition char_code (c : ascii) : Z := Z.of_nat (nat_of_ascii c).

Definition in_range (lo hi c : ascii) : bool :=
  (char_code lo <=? char_code c) && (char_code c <=? char_code hi).

(** [c == k]. *)
Definition is_char (c k : ascii) : bool := Ascii.eqb c k.

Definition strlen (s : string) : Z := Z.of_nat (String.length s).

(** The first [n] characters at [s] (what [%.*s] prints, what [memcpy]
    copies). *)
Definition take (n : Z) (s : string) : string := substring 0 (Z.to_nat n) s.

(** [s[i]], with the terminator read at the end of the buffer. *)
Definition char_at (s : string) (i : nat) : ascii :=
  match String.get i s with Some c => c | None => NUL end.

Definition digit_char (d : Z) : ascii := ascii_of_nat (48 + Z.to_nat d).

Fixpoint decimal_digits (fuel : nat) (n : Z) (acc : string) : string :=
  match fuel with
  | O => acc
  | S fuel' =>
      let acc' := String (digit_char (n mod 10)) acc in
      if n / 10 =? 0 then acc' else decimal_digits fuel' (n / 10) acc'
  end.

(** What [printf("%d", n)] writes. *)
Definition print_int (n : Z) : string :=
  if n <? 0
  then String "-" (decimal_digits (S (Z.to_nat (Z.log2 (- n)))) (- n) "")
  else decimal_digits (S (Z.to_nat (Z.log2 n))) n "".

(* ================================================================== *)
(** * value.h, object.h: values and identifier strings *)
(* ================================================================== *)

(** [struct ObjString { int length; char* chars; }], together with the
    identity of the allocation that [copyString] made for it. *)
Record ObjString := mkObjString {
  os_addr : nat;
  os_length : Z;
  os_chars : string
}.

(** The tagged union [Value].  [NIL_VAL] stores [0] in the [number] member
    of the union. *)
Inductive Value :=
| BOOL_VAL (b : bool)
| NIL_VAL
| NUMBER_VAL (n : float)
| OBJ_VAL (o : ObjString).

Definition IS_BOOL (v : Value) : bool :=
  match v with BOOL_VAL _ => true | _ => false end.
Definition IS_NIL (v : Value) : bool :=
  match v with NIL_VAL => true | _ => false end.
Definition IS_NUMBER (v : Value) : bool :=
  match v with NUMBER_VAL _ => true | _ => false end.
Definition IS_OBJ (v : Value) : bool :=
  match v with OBJ_VAL _ => true | _ => false end.

(** [AS_NUMBER] reads the [number] member whatever the tag.  For a number
    it is the number, for nil it is the [0] that [NIL_VAL] stored; for a
    boolean or a string the bytes of the [double] were not all written by
    the source and the read has no determined value. *)
Definition AS_NUMBER (v : Value) : option float :=
  match v with
  | NUMBER_VAL n => Some n
  | NIL_VAL => Some 0%float
  | BOOL_VAL _ | OBJ_VAL _ => None
  end.

Definition ptr_eqb (a b : ObjString) : bool := Nat.eqb (os_addr a) (os_addr b).

(** value.c, [valuesEqual]. *)
Definition valuesEqual (a b : Value) : bool :=
  match a, b with
  | BOOL_VAL x, BOOL_VAL y => Bool.eqb x y
  | NIL_VAL, NIL_VAL => true
  | NUMBER_VAL x, NUMBER_VAL y => PrimFloat.eqb x y
  | OBJ_VAL x, OBJ_VAL y => ptr_eqb x y
  | _, _ => false
  end.

(** [struct ValueArray]; [count] is the length of [values]. *)
Record ValueArray := mkValueArray {
  va_capacity : Z;
  values : list Value
}.

Definition va_count (a : ValueArray) : Z := Z.of_nat (List.length (values a)).

Definition initValueArray : ValueArray := mkValueArray 0 [].

Definition grow_capacity (oldCapacity : Z) : Z :=
  if oldCapacity <? 8 then 8 else oldCapacity * 2.

Definition writeValueArray (a : ValueArray) (v : Value) : ValueArray :=
  let cap := if va_capacity a <? va_count a + 1
             then grow_capacity (va_capacity a) else va_capacity a in
  mkValueArray cap (values a ++ [v]).

(** object.c, [copyString]: a fresh object holding the first [length]
    characters at [chars]. *)
Definition copyString (next : nat) (chars : string) (length : Z) : ObjString :=
  mkObjString next length (take length chars).

(* ================================================================== *)
(** * chunk.h, chunk.c *)
(* ================================================================== *)

Inductive OpCode :=
| OP_CONSTANT | OP_NIL | OP_TRUE | OP_FALSE | OP_POP
| OP_GET_LOCAL | OP_SET_LOCAL
| OP_GET_GLOBAL | OP_DEFINE_GLOBAL | OP_SET_GLOBAL
| OP_EQUAL | OP_GREATER | OP_LESS
| OP_ADD | OP_SUBTRACT | OP_MULTIPLY | OP_DIVIDE
| OP_NOT | OP_NEGATE | OP_PRINT
| OP_JUMP | OP_JUMP_IF_FALSE | OP_LOOP | OP_RETURN.

(** The value of each enumerator. *)
Definition op (o : OpCode) : Z :=
  match o with
  | OP_CONSTANT => 0 | OP_NIL => 1 | OP_TRUE => 2 | OP_FALSE => 3
  | OP_POP => 4 | OP_GET_LOCAL => 5 | OP_SET_LOCAL => 6
  | OP_GET_GLOBAL => 7 | OP_DEFINE_GLOBAL => 8 | OP_SET_GLOBAL => 9
  | OP_EQUAL => 10 | OP_GREATER => 11 | OP_LESS => 12
  | OP_ADD => 13 | OP_SUBTRACT => 14 | OP_MULTIPLY => 15 | OP_DIVIDE => 16
  | OP_NOT => 17 | OP_NEGATE => 18 | OP_PRINT => 19
  | OP_JUMP => 20 | OP_JUMP_IF_FALSE => 21 | OP_LOOP => 22 | OP_RETURN => 23
  end.

Definition all_opcodes : list OpCode :=
  [OP_CONSTANT; OP_NIL; OP_TRUE; OP_FALSE; OP_POP; OP_GET_LOCAL; OP_SET_LOCAL;
   OP_GET_GLOBAL; OP_DEFINE_GLOBAL; OP_SET_GLOBAL; OP_EQUAL; OP_GREATER;
   OP_LESS; OP_ADD; OP_SUBTRACT; OP_MULTIPLY; OP_DIVIDE; OP_NOT; OP_NEGATE;
   OP_PRINT; OP_JUMP; OP_JUMP_IF_FALSE; OP_LOOP; OP_RETURN].

Definition decode (byte : Z) : option OpCode :=
  List.find (fun o => op o =? byte) all_opcodes.

(** [(uint8_t) n]. *)
Definition uint8 (n : Z) : Z := n mod 256.

(** [(n >> 8) & 0xff] and [n & 0xff]. *)
Definition hi_byte (n : Z) : Z := Z.land (Z.shiftr n 8) 255.
Definition lo_byte (n : Z) : Z := Z.land n 255.

(** [struct Chunk]; [count] is the length of [code]. *)
Record Chunk := mkChunk {
  capacity : Z;
  code : list Z;
  lines : list Z;
  constants : ValueArray
}.

Definition count (c : Chunk) : Z := Z.of_nat (List.length (code c)).

Definition initChunk : Chunk := mkChunk 0 [] [] initValueArray.

Definition writeChunk (c : Chunk) (byte line : Z) : Chunk :=
  let cap := if capacity c <? count c + 1
             then grow_capacity (capacity c) else capacity c in
  mkChunk cap (code c ++ [byte]) (lines c ++ [line]) (constants c).

Definition addConstant (c : Chunk) (v : Value) : Chunk * Z :=
  let a := writeValueArray (constants c) v in
  (mkChunk (capacity c) (code c) (lines c) a, va_count a - 1).

(** [xs[i] = x]; the compiler only stores at offsets it has emitted. *)
Fixpoint store (xs : list Z) (i : nat) (x : Z) : list Z :=
  match xs, i with
  | [], _ => []
  | _ :: tl, O => x :: tl
  | hd :: tl, S i' => hd :: store tl i' x
  end.

Definition store_code (c : Chunk) (offset byte : Z) : Chunk :=
  mkChunk (capacity c) (store (code c) (Z.to_nat offset) byte)
          (lines c) (constants c).

(* ================================================================== *)
(** * scanner.c *)
(* ================================================================== *)

(** Modelled from the spec: scanner.h is not among the sources; the token
    kinds are those of section 4.1 (all of them are named in scanner.c) and
    a token has a kind, a view [start], [length] into the source and a
    line. *)
Inductive TokenType :=
| TOKEN_LEFT_PAREN | TOKEN_RIGHT_PAREN | TOKEN_LEFT_BRACE | TOKEN_RIGHT_BRACE
| TOKEN_COMMA | TOKEN_DOT | TOKEN_MINUS | TOKEN_PLUS
| TOKEN_SEMICOLON | TOKEN_SLASH | TOKEN_STAR
| TOKEN_BANG | TOKEN_BANG_EQUAL | TOKEN_EQUAL | TOKEN_EQUAL_EQUAL
| TOKEN_GREATER | TOKEN_GREATER_EQUAL | TOKEN_LESS | TOKEN_LESS_EQUAL
| TOKEN_IDENTIFIER | TOKEN_STRING | TOKEN_NUMBER
| TOKEN_AND | TOKEN_CLASS | TOKEN_ELSE | TOKEN_FALSE | TOKEN_FOR | TOKEN_FUN
| TOKEN_IF | TOKEN_NIL | TOKEN_OR | TOKEN_PRINT | TOKEN_RETURN | TOKEN_SUPER
| TOKEN_THIS | TOKEN_TRUE | TOKEN_VAR | TOKEN_WHILE
| TOKEN_ERROR | TOKEN_EOF.

Definition TokenType_eq_dec (a b : TokenType) : {a = b} + {a <> b}.
Proof. decide equality. Defined.

Definition tt_eqb (a b : TokenType) : bool :=
  if TokenType_eq_dec a b then true else false.

Record Token := mkToken {
  type : TokenType;
  start : string;
  length : Z;
  line : Z
}.

(** The text of a token, [start[0 .. length-1]]. *)
Definition lexeme (t : Token) : string := take (length t) (start t).

Module Scanner.

(** The three statics of scanner.c. *)
Record State := mkState {
  start : string;
  current : string;
  line : Z
}.

Definition isAlpha (c : ascii) : bool :=
  in_range "a" "z" c || in_range "A" "Z" c || Ascii.eqb c "_".

Definition isDigit (c : ascii) : bool := in_range "0" "9" c.

Definition peek (s : State) : ascii := char_at (current s) 0.

Definition isAtEnd (s : State) : bool := Ascii.eqb (peek s) NUL.

Definition advance (s : State) : ascii * State :=
  match current s with
  | String c rest =>
      if Ascii.eqb c NUL then (NUL, s)
      else (c, mkState (start s) rest (line s))
  | EmptyString => (NUL, s)
  end.

Definition peekNext (s : State) : ascii :=
  if isAtEnd s then NUL else char_at (current s) 1.

Definition match_ (expected : ascii) (s : State) : bool * State :=
  if isAtEnd s then (false, s)
  else if negb (Ascii.eqb (peek s) expected) then (false, s)
  else (true, snd (advance s)).

Definition makeToken (ty : TokenType) (s : State) : Token :=
  mkToken ty (start s) (strlen (start s) - strlen (current s)) (line s).

Definition errorToken (message : string) (s : State) : Token :=
  mkToken TOKEN_ERROR message (strlen message) (line s).

(** The loop of [skipWhitespace] over the characters at [current].
    [in_comment] is set while the inner [while] of the [//] case runs;
    that loop stops in front of the newline, which the next turn of the
    outer loop consumes while counting the line. *)
Fixpoint skipWhitespace_at (in_comment : bool) (cur : string) (ln : Z)
  : string * Z :=
  match cur with
  | EmptyString => (cur, ln)
  | String c rest =>
      if in_comment then
        if Ascii.eqb c LF then skipWhitespace_at false rest (ln + 1)
        else if Ascii.eqb c NUL then (cur, ln)
        else skipWhitespace_at true rest ln
      else if Ascii.eqb c " " || Ascii.eqb c CR || Ascii.eqb c TAB then
        skipWhitespace_at false rest ln
      else if Ascii.eqb c LF then
        skipWhitespace_at false rest (ln + 1)
      else if Ascii.eqb c "/" then
        if Ascii.eqb (char_at rest 0) "/"
        then skipWhitespace_at true rest ln
        else (cur, ln)
      else (cur, ln)
  end.

Definition skipWhitespace (s : State) : State :=
  let '(cur, ln) := skipWhitespace_at false (current s) (line s) in
  mkState (start s) cur ln.

Definition checkKeyword (s : State) (offset len : Z) (rest : string)
           (ty : TokenType) : TokenType :=
  if (strlen (start s) - strlen (current s) =? offset + len)
     && String.eqb (substring (Z.to_nat offset) (Z.to_nat len) (start s)) rest
  then ty else TOKEN_IDENTIFIER.

Definition identifierType (s : State) : TokenType :=
  let c0 := char_at (start s) 0 in
  let c1 := char_at (start s) 1 in
  if is_char c0 "a" then checkKeyword s 1 2 "nd" TOKEN_AND
  else if is_char c0 "c" then checkKeyword s 1 4 "lass" TOKEN_CLASS
  else if is_char c0 "e" then checkKeyword s 1 3 "lse" TOKEN_ELSE
  else if is_char c0 "f" then
    if 1 <? strlen (start s) - strlen (current s) then
      if is_char c1 "a" then checkKeyword s 2 3 "lse" TOKEN_FALSE
      else if is_char c1 "o" then checkKeyword s 2 1 "r" TOKEN_FOR
      else if is_char c1 "u" then checkKeyword s 2 1 "n" TOKEN_FUN
      else TOKEN_IDENTIFIER
    else TOKEN_IDENTIFIER
  else if is_char c0 "i" then checkKeyword s 1 1 "f" TOKEN_IF
  else if is_char c0 "n" then checkKeyword s 1 2 "il" TOKEN_NIL
  else if is_char c0 "o" then checkKeyword s 1 1 "r" TOKEN_OR
  else if is_char c0 "p" then checkKeyword s 1 4 "rint" TOKEN_PRINT
  else if is_char c0 "r" then checkKeyword s 1 5 "eturn" TOKEN_RETURN
  else if is_char c0 "s" then checkKeyword s 1 4 "uper" TOKEN_SUPER
  else if is_char c0 "t" then
    if 1 <? strlen (start s) - strlen (current s) then
      if is_char c1 "h" then checkKeyword s 2 2 "is" TOKEN_THIS
      else if is_char c1 "r" then checkKeyword s 2 2 "ue" TOKEN_TRUE
      else TOKEN_IDENTIFIER
    else TOKEN_IDENTIFIER
  else if is_char c0 "v" then checkKeyword s 1 2 "ar" TOKEN_VAR
  else if is_char c0 "w" then checkKeyword s 1 4 "hile" TOKEN_WHILE
  else TOKEN_IDENTIFIER.

(** [while (p(peek())) advance();] for a test [p] that fails on NUL. *)
Fixpoint advance_while (p : ascii -> bool) (cur : string) : string :=
  match cur with
  | EmptyString => cur
  | String c rest => if p c then advance_while p rest else cur
  end.

Definition identifier (s : State) : Token * State :=
  let s' := mkState (start s)
              (advance_while (fun c => isAlpha c || isDigit c) (current s))
              (line s) in
  (makeToken (identifierType s') s', s').

Definition number (s : State) : Token * State :=
  let s1 := mkState (start s) (advance_while isDigit (current s)) (line s) in
  let s2 :=
    if Ascii.eqb (peek s1) "." && isDigit (peekNext s1)
    then let s1' := snd (advance s1) in
         mkState (start s1') (advance_while isDigit (current s1')) (line s1')
    else s1 in
  (makeToken TOKEN_NUMBER s2, s2).

(** The loop of [string]: up to the closing quote or the end of the
    source, counting the newlines passed. *)
Fixpoint string_at (cur : string) (ln : Z) : string * Z :=
  match cur with
  | EmptyString => (cur, ln)
  | String c rest =>
      if Ascii.eqb c DQUOTE || Ascii.eqb c NUL then (cur, ln)
      else string_at rest (if Ascii.eqb c LF then ln + 1 else ln)
  end.

Definition string_ (s : State) : Token * State :=
  let '(cur, ln) := string_at (current s) (line s) in
  let s1 := mkState (start s) cur ln in
  if isAtEnd s1 then (errorToken "Unterminated string." s1, s1)
  else let s2 := snd (advance s1) in (makeToken TOKEN_STRING s2, s2).

Definition initScanner (source : string) : State :=
  mkState source source 1.

Definition scanToken (s0 : State) : Token * State :=
  let s1 := skipWhitespace s0 in
  let s := mkState (current s1) (current s1) (line s1) in
  if isAtEnd s then (makeToken TOKEN_EOF s, s)
  else
    let '(c, s) := advance s in
    if isAlpha c then identifier s
    else if isDigit c then number s
    else
      if is_char c "(" then (makeToken TOKEN_LEFT_PAREN s, s)
      else if is_char c ")" then (makeToken TOKEN_RIGHT_PAREN s, s)
      else if is_char c "{" then (makeToken TOKEN_LEFT_BRACE s, s)
      else if is_char c "}" then (makeToken TOKEN_RIGHT_BRACE s, s)
      else if is_char c ";" then (makeToken TOKEN_SEMICOLON s, s)
      else if is_char c "," then (makeToken TOKEN_COMMA s, s)
      else if is_char c "." then (makeToken TOKEN_DOT s, s)
      else if is_char c "-" then (makeToken TOKEN_MINUS s, s)
      else if is_char c "+" then (makeToken TOKEN_PLUS s, s)
      else if is_char c "/" then (makeToken TOKEN_SLASH s, s)
      else if is_char c "*" then (makeToken TOKEN_STAR s, s)
      else if is_char c "!" then
        let '(b, s) := match_ "=" s in
        (makeToken (if b then TOKEN_BANG_EQUAL else TOKEN_BANG) s, s)
      else if is_char c "=" then
        let '(b, s) := match_ "=" s in
        (makeToken (if b then TOKEN_EQUAL_EQUAL else TOKEN_EQUAL) s, s)
      else if is_char c "<" then
        let '(b, s) := match_ "=" s in
        (makeToken (if b then TOKEN_LESS_EQUAL else TOKEN_LESS) s, s)
      else if is_char c ">" then
        let '(b, s) := match_ "=" s in
        (makeToken (if b then TOKEN_GREATER_EQUAL else TOKEN_GREATER) s, s)
      else if is_char c DQUOTE then string_ s
      else (errorToken "Unexpected character." s, s).

End Scanner.

(* ================================================================== *)
(** * The C library: [strtod] and the [%g] conversion *)
(* ================================================================== *)

Module Libc.

Definition digit_value (base : Z) (c : ascii) : option Z :=
  let d :=
    if in_range "0" "9" c then char_code c - 48
    else if in_range "a" "f" c then char_code c - 87
    else if in_range "A" "F" c then char_code c - 55
    else 99 in
  if d <? base then Some d else None.

(** Reads digits of [base] at [s] onto the accumulator [acc]; returns the
    number read so far, how many digits were read, and what follows. *)
Fixpoint read_digits (base : Z) (s : string) (acc n : Z) : Z * Z * string :=
  match s with
  | EmptyString => (acc, n, s)
  | String c rest =>
      match digit_value base c with
      | Some d => read_digits base rest (acc * base + d) (n + 1)
      | None => (acc, n, s)
      end
  end.

(** An optional exponent part [mark [+-] digits] at [s]; [0] when there
    is none (an exponent mark without digits is not consumed). *)
Definition read_exponent (mark_lower mark_upper : ascii) (s : string) : Z :=
  match s with
  | String c rest =>
      if is_char c mark_lower || is_char c mark_upper then
        let '(neg, rest') :=
          match rest with
          | String sg r =>
              if is_char sg "-" then (true, r)
              else if is_char sg "+" then (false, r)
              else (false, rest)
          | EmptyString => (false, rest)
          end in
        let '(e, n, _) := read_digits 10 rest' 0 0 in
        if n =? 0 then 0 else if neg then - e else e
      else 0
  | EmptyString => 0
  end.

(** [m * b^e] rounded to the nearest double, ties to even. *)
Definition round_scaled (m b e : Z) : float :=
  match m with
  | Zpos pm =>
      if 0 <=? e
      then SF2Prim (binary_normalize 53 1024 (m * b ^ e) 0 false)
      else SF2Prim (SFdiv 53 1024 (S754_finite false pm 0)
                          (S754_finite false (Z.to_pos (b ^ (- e))) 0))
  | _ => 0%float
  end.

(** A mantissa with an optional fractional part in [base] at [s]:
    the digits as one integer, the number of fractional digits, the
    total number of digits, the rest. *)
Definition read_mantissa (base : Z) (s : string) : Z * Z * Z * string :=
  let '(m1, n1, r1) := read_digits base s 0 0 in
  match r1 with
  | String c r =>
      if is_char c "." then
        let '(m2, n2, r2) := read_digits base r m1 0 in
        (m2, n2, n1 + n2, r2)
      else (m1, 0, n1, r1)
  | EmptyString => (m1, 0, n1, r1)
  end.

(** [strtod(s, NULL)] for a text that starts with a digit: the longest
    prefix of [s] that is a decimal or hexadecimal floating constant,
    correctly rounded. *)
Definition strtod (s : string) : float :=
  let hex :=
    match s with
    | String z (String x r) =>
        if is_char z "0" && (is_char x "x" || is_char x "X") then
          let '(m, nfrac, ndigits, rest) := read_mantissa 16 r in
          if 0 <? ndigits
          then Some (round_scaled m 2 (read_exponent "p" "P" rest - 4 * nfrac))
          else None
        else None
    | _ => None
    end in
  match hex with
  | Some v => v
  | None =>
      let '(m, nfrac, _, rest) := read_mantissa 10 s in
      round_scaled m 10 (read_exponent "e" "E" rest - nfrac)
  end.

Fixpoint strip_zeros_rev (s : list ascii) : list ascii :=
  match s with
  | c :: tl => if is_char c "0" then strip_zeros_rev tl else s
  | [] => []
  end.

(** Removes the trailing zeros of a digit string. *)
Definition strip_zeros (s : string) : string :=
  string_of_list_ascii (rev (strip_zeros_rev (rev (list_ascii_of_string s)))).

Definition with_point (int_part frac : string) : string :=
  match strip_zeros frac with
  | EmptyString => int_part
  | f => int_part ++ "." ++ f
  end.

Fixpoint zeros (n : nat) : string :=
  match n with O => "" | S n' => String "0" (zeros n') end.

(** [10^x <= num/den]. *)
Definition pow10_le (x num den : Z) : bool :=
  if 0 <=? x then 10 ^ x * den <=? num else den <=? num * 10 ^ (- x).

(** The largest [x] with [10^x <= num/den], searched downwards. *)
Fixpoint floor_log10 (fuel : nat) (x num den : Z) : Z :=
  match fuel with
  | O => x
  | S fuel' =>
      if pow10_le x num den then x else floor_log10 fuel' (x - 1) num den
  end.

(** [num/den] rounded to the nearest integer, ties to even. *)
Definition round_half_even (num den : Z) : Z :=
  let q := num / den in
  let r := num mod den in
  match 2 * r ?= den with
  | Lt => q
  | Gt => q + 1
  | Eq => if Z.even q then q else q + 1
  end.

(** [%g] of the positive number [m * 2^e]: six significant digits,
    exponent notation when the decimal exponent is below [-4] or at
    least [6], trailing zeros removed. *)
Definition format_g_pos (m e : Z) : string :=
  let num := if 0 <=? e then m * 2 ^ e else m in
  let den := if 0 <=? e then 1 else 2 ^ (- e) in
  let guess := (Z.log2 m + e + 1) * 30103 / 100000 + 1 in
  let x0 := floor_log10 8 guess num den in
  let k := x0 - 5 in
  let d0 := if 0 <=? k then round_half_even num (den * 10 ^ k)
            else round_half_even (num * 10 ^ (- k)) den in
  let '(d, x) := if d0 =? 1000000 then (100000, x0 + 1) else (d0, x0) in
  let ds := print_int d in
  if (x <? -4) || (6 <=? x) then
    with_point (substring 0 1 ds) (substring 1 5 ds)
    ++ "e" ++ (if x <? 0 then "-" else "+")
    ++ (if Z.abs x <? 10 then "0" else "") ++ print_int (Z.abs x)
  else if 0 <=? x then
    with_point (substring 0 (Z.to_nat x + 1) ds)
               (substring (Z.to_nat x + 1) (5 - Z.to_nat x) ds)
  else
    with_point "0" (zeros (Z.to_nat (- x - 1)) ++ ds).

(** What [printf("%g", x)] writes. *)
Definition format_g (x : float) : string :=
  match Prim2SF x with
  | S754_nan => "nan"
  | S754_infinity s => if s then "-inf" else "inf"
  | S754_zero s => if s then "-0" else "0"
  | S754_finite s m e =>
      (if s then "-" else "") ++ format_g_pos (Zpos m) e
  end.

End Libc.

(** Modelled from the spec: the body of [printValue] (declared in value.h)
    is not among the sources; section 6.2 gives what it writes. *)
Definition printValue (v : Value) : string :=
  match v with
  | NUMBER_VAL n => Libc.format_g n
  | BOOL_VAL b => if b then "true" else "false"
  | NIL_VAL => "nil"
  | OBJ_VAL o => take (os_length o) (os_chars o)
  end.

(* ================================================================== *)
(** * The statics of the program *)
(* ================================================================== *)

(** compiler.c, [struct Parser]. *)
Record Parser := mkParser {
  current : Token;
  previous : Token;
  hadError : bool;
  panicMode : bool
}.

(** What the pointer [vm.stack] designates: nothing, a block obtained from
    [realloc], or a block that was handed to [free]. *)
Inductive Block := BLOCK_NULL | BLOCK_LIVE | BLOCK_FREED.

(** vm.h, [struct VM].  [stack] lists the slots below [stackTop], the top
    of the stack first; [stackTop] is its length. *)
Record VM := mkVM {
  chunk : Chunk;
  ip : Z;
  stack : list Value;
  stackBlock : Block;
  stackCapacity : Z
}.

Definition stackTop (m : VM) : Z := Z.of_nat (List.length (stack m)).

(** vm.c, the first [globalCount] entries of [globals], in index order.
    A name is a possibly null [ObjString*]. *)
Definition Globals := list (option ObjString * Value).

Definition MAX_GLOBALS : Z := 256.

(** All the file-scope state of scanner.c, compiler.c and vm.c, the
    allocation counter of the heap and the two output streams. *)
Record Process := mkProcess {
  scanner : Scanner.State;
  parser : Parser;
  compilingChunk : Chunk;
  next_obj : nat;
  vm : VM;
  globals : Globals;
  stdout : string;
  stderr : string
}.

Definition set_scanner (x : Scanner.State) (p : Process) : Process :=
  mkProcess x (parser p) (compilingChunk p) (next_obj p) (vm p) (globals p)
            (stdout p) (stderr p).
Definition set_parser (x : Parser) (p : Process) : Process :=
  mkProcess (scanner p) x (compilingChunk p) (next_obj p) (vm p) (globals p)
            (stdout p) (stderr p).
Definition set_compilingChunk (x : Chunk) (p : Process) : Process :=
  mkProcess (scanner p) (parser p) x (next_obj p) (vm p) (globals p)
            (stdout p) (stderr p).
Definition set_next_obj (x : nat) (p : Process) : Process :=
  mkProcess (scanner p) (parser p) (compilingChunk p) x (vm p) (globals p)
            (stdout p) (stderr p).
Definition set_vm (x : VM) (p : Process) : Process :=
  mkProcess (scanner p) (parser p) (compilingChunk p) (next_obj p) x
            (globals p) (stdout p) (stderr p).
Definition set_globals (x : Globals) (p : Process) : Process :=
  mkProcess (scanner p) (parser p) (compilingChunk p) (next_obj p) (vm p) x
            (stdout p) (stderr p).
Definition put_stdout (s : string) (p : Process) : Process :=
  mkProcess (scanner p) (parser p) (compilingChunk p) (next_obj p) (vm p)
            (globals p) (stdout p ++ s) (stderr p).
Definition put_stderr (s : string) (p : Process) : Process :=
  mkProcess (scanner p) (parser p) (compilingChunk p) (next_obj p) (vm p)
            (globals p) (stdout p) (stderr p ++ s).

(** The zero-initialised statics of a process that has just started. *)
Definition zeroToken : Token := mkToken TOKEN_LEFT_PAREN "" 0 0.

Definition boot : Process :=
  mkProcess (Scanner.mkState "" "" 0)
            (mkParser zeroToken zeroToken false false)
            initChunk 0
            (mkVM initChunk 0 [] BLOCK_NULL 0)
            [] "" "".

Definition newline : string := String LF "".

(* ================================================================== *)
(** * compiler.c *)
(* ================================================================== *)

Module Compiler.

(** Computations over the statics; [None] when the fuel ran out. *)
Definition M (A : Type) : Type := Process -> option (A * Process).

Definition ret {A} (x : A) : M A := fun p => Some (x, p).

Definition bind {A B} (c : M A) (k : A -> M B) : M B :=
  fun p => match c p with
           | Some (x, p') => k x p'
           | None => None
           end.

Definition out_of_fuel {A} : M A := fun _ => None.

Definition gets {A} (f : Process -> A) : M A := fun p => Some (f p, p).

Definition modify (f : Process -> Process) : M unit :=
  fun p => Some (tt, f p).

Declare Scope comp_scope.
Delimit Scope comp_scope with comp.
Notation "x <- c1 ;; c2" := (bind c1 (fun x => c2))
  (at level 61, c1 at next level, right associativity) : comp_scope.
Notation "c1 ;; c2" := (bind c1 (fun _ => c2))
  (at level 61, right associativity) : comp_scope.
Notation "'when' c 'then' a 'otherwise' b" :=
  (bind c (fun t : bool => if t then a else b))
  (at level 10, c at level 200, a at level 200, b at level 200)
  : comp_scope.
Local Open Scope comp_scope.

Definition errorAt (token : Token) (message : string) : M unit :=
  fun p =>
    if panicMode (parser p) then Some (tt, p)
    else
      let ps := parser p in
      let p := set_parser (mkParser (current ps) (previous ps) true true) p in
      let p := put_stderr ("[line " ++ print_int (line token) ++ "] Error") p in
      let p :=
        if tt_eqb (type token) TOKEN_EOF then put_stderr " at end" p
        else if negb (tt_eqb (type token) TOKEN_ERROR)
             then put_stderr (" at '" ++ lexeme token ++ "'") p
             else p in
      Some (tt, put_stderr (": " ++ message ++ newline) p).

Definition error (message : string) : M unit :=
  fun p => errorAt (previous (parser p)) message p.

Definition errorAtCurrent (message : string) : M unit :=
  fun p => errorAt (current (parser p)) message p.

Definition set_current (t : Token) (p : Process) : Process :=
  let ps := parser p in
  set_parser (mkParser t (previous ps) (hadError ps) (panicMode ps)) p.

(** The [for (;;)] of [advance]: scan, and report and skip error
    tokens.  Every error token consumes input or is followed by the end
    of the source, so the fuel that [advance] supplies from the length
    of what is left to scan always suffices ([advance_total]). *)
Fixpoint advance_loop (fuel : nat) : M unit :=
  match fuel with
  | O => out_of_fuel
  | S fuel' =>
      fun p =>
        let '(t, sc) := Scanner.scanToken (scanner p) in
        let p := set_current t (set_scanner sc p) in
        if negb (tt_eqb (type t) TOKEN_ERROR) then Some (tt, p)
        else (errorAtCurrent (start t) ;; advance_loop fuel') p
  end.

Definition advance : M unit :=
  fun p =>
    let ps := parser p in
    let p := set_parser (mkParser (current ps) (current ps)
                                  (hadError ps) (panicMode ps)) p in
    advance_loop (2 + String.length (Scanner.current (scanner p))) p.

Definition check (ty : TokenType) : M bool :=
  gets (fun p => tt_eqb (type (current (parser p))) ty).

Definition match_ (ty : TokenType) : M bool :=
  when check ty then (advance ;; ret true) otherwise ret false.

Definition consume (ty : TokenType) (message : string) : M unit :=
  when check ty then advance otherwise errorAtCurrent message.

Definition emitByte (byte line : Z) : M unit :=
  modify (fun p => set_compilingChunk (writeChunk (compilingChunk p) byte line) p).

Definition emitBytes (b1 b2 line : Z) : M unit :=
  emitByte b1 line ;; emitByte b2 line.

(** [addConstant(compilingChunk, value)]. *)
Definition addConstant (v : Value) : M Z :=
  fun p => let '(c, i) := addConstant (compilingChunk p) v in
           Some (i, set_compilingChunk c p).

Definition emitConstant (v : Value) (line : Z) : M unit :=
  i <- addConstant v ;;
  emitBytes (op OP_CONSTANT) (uint8 i) line.

Definition chunk_count : M Z := gets (fun p => count (compilingChunk p)).

Definition emitJump (o : Z) (line : Z) : M Z :=
  emitByte o line ;;
  emitByte 255 line ;;
  emitByte 255 line ;;
  n <- chunk_count ;;
  ret (n - 2).

Definition patchJump (offset : Z) : M unit :=
  n <- chunk_count ;;
  let jump := n - offset - 2 in
  modify (fun p =>
    let c := store_code (compilingChunk p) offset (hi_byte jump) in
    set_compilingChunk (store_code c (offset + 1) (lo_byte jump)) p).

Definition patchJumpBack (offset : Z) : M unit :=
  n <- chunk_count ;;
  let jump := offset - n - 2 in
  modify (fun p =>
    let c := store_code (compilingChunk p) offset (hi_byte jump) in
    set_compilingChunk (store_code c (offset + 1) (lo_byte jump)) p).

Definition identifierConstant (name : Token) : M Z :=
  fun p =>
    let str := copyString (next_obj p) (start name) (length name) in
    (i <- addConstant (OBJ_VAL str) ;; ret (uint8 i))
      (set_next_obj (S (next_obj p)) p).

Definition prev : M Token := gets (fun p => previous (parser p)).
Definition prev_line : M Z := gets (fun p => line (previous (parser p))).

(** [emitByte(o, parser.previous.line)]. *)
Definition emitOp (o : OpCode) : M unit :=
  ln <- prev_line ;; emitByte (op o) ln.

(** The two-byte instruction [o arg] at [parser.previous.line]. *)
Definition emitOpArg (o : OpCode) (arg : Z) : M unit :=
  ln <- prev_line ;; emitBytes (op o) arg ln.

(** The opcodes of a binary operator token, in the order of the
    [else if] chain of [expression]. *)
Definition binary_ops : list (TokenType * list OpCode) :=
  [ (TOKEN_STAR, [OP_MULTIPLY]);
    (TOKEN_SLASH, [OP_DIVIDE]);
    (TOKEN_PLUS, [OP_ADD]);
    (TOKEN_MINUS, [OP_SUBTRACT]);
    (TOKEN_EQUAL_EQUAL, [OP_EQUAL]);
    (TOKEN_BANG_EQUAL, [OP_EQUAL; OP_NOT]);
    (TOKEN_LESS, [OP_LESS]);
    (TOKEN_LESS_EQUAL, [OP_GREATER; OP_NOT]);
    (TOKEN_GREATER, [OP_GREATER]);
    (TOKEN_GREATER_EQUAL, [OP_LESS; OP_NOT]) ].

(** The first operator of the chain that [match]es the current token. *)
Fixpoint match_binary (table : list (TokenType * list OpCode))
  : M (option (list OpCode)) :=
  match table with
  | [] => ret None
  | (ty, ops) :: rest =>
      when match_ ty then ret (Some ops) otherwise match_binary rest
  end.

Fixpoint emitOps (ops : list OpCode) : M unit :=
  match ops with
  | [] => ret tt
  | o :: rest => emitOp o ;; emitOps rest
  end.

(** [parsePrecedence1], [expression] (its first operand, then its
    [while (1)]), [declaration] and the [while] of the block. *)
#[warnings="-non-full-mutual"]
Fixpoint parsePrecedence1 (fuel : nat) : M unit :=
  match fuel with
  | O => out_of_fuel
  | S fuel' =>
      when (when match_ TOKEN_BANG then ret true otherwise match_ TOKEN_MINUS)
      then
        (t <- prev ;;
         parsePrecedence1 fuel' ;;
         if tt_eqb (type t) TOKEN_BANG then emitOp OP_NOT
         else emitOp OP_NEGATE)
      otherwise when match_ TOKEN_FALSE then emitOp OP_FALSE
      otherwise when match_ TOKEN_TRUE then emitOp OP_TRUE
      otherwise when match_ TOKEN_NIL then emitOp OP_NIL
      otherwise when match_ TOKEN_NUMBER then
        (t <- prev ;;
         emitConstant (NUMBER_VAL (Libc.strtod (start t))) (line t))
      otherwise when match_ TOKEN_LEFT_PAREN then
        (expression fuel' ;;
         consume TOKEN_RIGHT_PAREN "Expect ')' after expression.")
      otherwise when match_ TOKEN_IDENTIFIER then
        (name <- prev ;;
         arg <- identifierConstant name ;;
         when match_ TOKEN_EQUAL then
           (expression fuel' ;; emitOpArg OP_SET_GLOBAL arg)
         otherwise emitOpArg OP_GET_GLOBAL arg)
      otherwise errorAtCurrent "Expect expression."
  end

with expression (fuel : nat) : M unit :=
  match fuel with
  | O => out_of_fuel
  | S fuel' => parsePrecedence1 fuel' ;; expression_loop fuel'
  end

with expression_loop (fuel : nat) : M unit :=
  match fuel with
  | O => out_of_fuel
  | S fuel' =>
      found <- match_binary binary_ops ;;
      match found with
      | Some ops =>
          parsePrecedence1 fuel' ;; emitOps ops ;; expression_loop fuel'
      | None => ret tt
      end
  end

with declaration (fuel : nat) : M unit :=
  match fuel with
  | O => out_of_fuel
  | S fuel' =>
      when match_ TOKEN_VAR then
        (consume TOKEN_IDENTIFIER "Expect variable name." ;;
         name <- prev ;;
         arg <- identifierConstant name ;;
         (when match_ TOKEN_EQUAL then expression fuel'
          otherwise emitOp OP_NIL) ;;
         consume TOKEN_SEMICOLON "Expect ';' after variable declaration." ;;
         emitOpArg OP_DEFINE_GLOBAL arg)
      otherwise when match_ TOKEN_PRINT then
        (expression fuel' ;;
         consume TOKEN_SEMICOLON "Expect ';' after value." ;;
         emitOp OP_PRINT)
      otherwise when match_ TOKEN_IF then
        (consume TOKEN_LEFT_PAREN "Expect '(' after 'if'." ;;
         expression fuel' ;;
         consume TOKEN_RIGHT_PAREN "Expect ')' after if condition." ;;
         ln <- prev_line ;;
         thenJump <- emitJump (op OP_JUMP_IF_FALSE) ln ;;
         emitOp OP_POP ;;
         declaration fuel' ;;
         ln <- prev_line ;;
         elseJump <- emitJump (op OP_JUMP) ln ;;
         patchJump thenJump ;;
         emitOp OP_POP ;;
         (when match_ TOKEN_ELSE then declaration fuel' otherwise ret tt) ;;
         patchJump elseJump)
      otherwise when match_ TOKEN_WHILE then
        (loopStart <- chunk_count ;;
         consume TOKEN_LEFT_PAREN "Expect '(' after 'while'." ;;
         expression fuel' ;;
         consume TOKEN_RIGHT_PAREN "Expect ')' after condition." ;;
         ln <- prev_line ;;
         exitJump <- emitJump (op OP_JUMP_IF_FALSE) ln ;;
         emitOp OP_POP ;;
         declaration fuel' ;;
         n <- chunk_count ;;
         let offset := loopStart - n - 2 in
         emitOp OP_LOOP ;;
         ln <- prev_line ;;
         emitByte (hi_byte offset) ln ;;
         emitByte (lo_byte offset) ln ;;
         patchJump exitJump ;;
         emitOp OP_POP)
      otherwise when match_ TOKEN_LEFT_BRACE then
        (block_loop fuel' ;;
         consume TOKEN_RIGHT_BRACE "Expect '}' after block.")
      otherwise
        (expression fuel' ;;
         consume TOKEN_SEMICOLON "Expect ';' after expression." ;;
         emitOp OP_POP)
  end

with block_loop (fuel : nat) : M unit :=
  match fuel with
  | O => out_of_fuel
  | S fuel' =>
      fun p =>
        if negb (tt_eqb (type (current (parser p))) TOKEN_RIGHT_BRACE)
           && negb (hadError (parser p))
        then (declaration fuel' ;; block_loop fuel') p
        else Some (tt, p)
  end.

(** The [while (!match(TOKEN_EOF)) declaration();] of [compile]. *)
Fixpoint compile_loop (fuel : nat) : M unit :=
  match fuel with
  | O => out_of_fuel
  | S fuel' =>
      when match_ TOKEN_EOF then ret tt
      otherwise (declaration fuel' ;; compile_loop fuel')
  end.

(** [compile(source, chunk)]: the result and the statics afterwards;
    the chunk written to is [compilingChunk] of the final statics. *)
Definition compile (fuel : nat) (source : string) (chunk : Chunk) : M bool :=
  modify (set_scanner (Scanner.initScanner source)) ;;
  modify (set_compilingChunk chunk) ;;
  modify (fun p =>
    set_parser (mkParser (current (parser p)) (previous (parser p))
                         false false) p) ;;
  advance ;;
  compile_loop fuel ;;
  emitOp OP_RETURN ;;
  gets (fun p => negb (hadError (parser p))).

End Compiler.

(* ================================================================== *)
(** * vm.c *)
(* ================================================================== *)

Inductive InterpretResult :=
| INTERPRET_OK | INTERPRET_COMPILE_ERROR | INTERPRET_RUNTIME_ERROR.

(** The ways in which vm.c leaves defined behaviour. *)
Inductive Fault :=
| STACK_UNDERFLOW          (* [vm.stack[i]] with [i] outside [0, stackTop) *)
| STACK_AFTER_FREE         (* access through [vm.stack] after [free] *)
| STACK_NULL               (* access through a null [vm.stack] *)
| DOUBLE_FREE              (* [free] or [realloc] of a released block *)
| CODE_OUT_OF_BOUNDS       (* fetch outside [code[0 .. count-1]] *)
| CONSTANT_OUT_OF_BOUNDS   (* [values[i]] with [i] outside [0, count) *)
| NULL_NAME                (* [name->length] with a null [name] *)
| UNION_READ.              (* [AS_NUMBER] of a boolean or of a string *)

(** How a call of [run] or [interpret] ends. *)
Inductive Outcome :=
| Returned (r : InterpretResult)
| Faulted (f : Fault).

Module Vm.

(** A computation of the VM either goes on with a value, or stops the
    dispatch loop. *)
Inductive Res (A : Type) :=
| Ok (x : A) (p : Process)
| Stop (o : Outcome) (p : Process).
Arguments Ok {A} x p.
Arguments Stop {A} o p.

Definition V (A : Type) : Type := Process -> Res A.

Definition ret {A} (x : A) : V A := fun p => Ok x p.

Definition bind {A B} (c : V A) (k : A -> V B) : V B :=
  fun p => match c p with
           | Ok x p' => k x p'
           | Stop o p' => Stop o p'
           end.

Definition fault {A} (f : Fault) : V A := fun p => Stop (Faulted f) p.

Definition return_ {A} (r : InterpretResult) : V A :=
  fun p => Stop (Returned r) p.

Declare Scope vm_scope.
Delimit Scope vm_scope with vm.
Notation "x <- c1 ;; c2" := (bind c1 (fun x => c2))
  (at level 61, c1 at next level, right associativity) : vm_scope.
Notation "c1 ;; c2" := (bind c1 (fun _ => c2))
  (at level 61, right associativity) : vm_scope.
Local Open Scope vm_scope.

Definition set_stack (st : list Value) (p : Process) : Process :=
  let m := vm p in
  set_vm (mkVM (chunk m) (ip m) st (stackBlock m) (stackCapacity m)) p.

Definition set_ip (i : Z) (p : Process) : Process :=
  let m := vm p in
  set_vm (mkVM (chunk m) i (stack m) (stackBlock m) (stackCapacity m)) p.

(** [vm.stack] designates [b]. *)
Definition set_vm_block (b : Block) (p : Process) : Process :=
  let m := vm p in
  set_vm (mkVM (chunk m) (ip m) (stack m) b (stackCapacity m)) p.

Definition resetStack (p : Process) : Process := set_stack [] p.

(** An access through [vm.stack]. *)
Definition stack_access : V unit :=
  fun p => match stackBlock (vm p) with
           | BLOCK_LIVE => Ok tt p
           | BLOCK_FREED => Stop (Faulted STACK_AFTER_FREE) p
           | BLOCK_NULL => Stop (Faulted STACK_NULL) p
           end.

Definition push (value : Value) : V unit :=
  (fun p =>
     let m := vm p in
     if stackCapacity m <? stackTop m + 1 then
       match stackBlock m with
       | BLOCK_FREED => Stop (Faulted DOUBLE_FREE) p
       | _ => Ok tt (set_vm (mkVM (chunk m) (ip m) (stack m) BLOCK_LIVE
                                  (grow_capacity (stackCapacity m))) p)
       end
     else Ok tt p) ;;
  stack_access ;;
  fun p => Ok tt (set_stack (value :: stack (vm p)) p).

Definition pop : V Value :=
  fun p => match stack (vm p) with
           | [] => Stop (Faulted STACK_UNDERFLOW) p
           | v :: rest => (stack_access ;; ret v) (set_stack rest p)
           end.

Definition peek (distance : nat) : V Value :=
  fun p => match nth_error (stack (vm p)) distance with
           | None => Stop (Faulted STACK_UNDERFLOW) p
           | Some v => (stack_access ;; ret v) p
           end.

(** [chunk->constants.values[index]]. *)
Definition constant_at (index : Z) : V Value :=
  fun p => match nth_error (values (constants (chunk (vm p))))
                           (Z.to_nat index) with
           | Some v => Ok v p
           | None => Stop (Faulted CONSTANT_OUT_OF_BOUNDS) p
           end.

Definition getConstantName (index : Z) : V (option ObjString) :=
  v <- constant_at index ;;
  ret (match v with OBJ_VAL o => Some o | _ => None end).

Definition stringsEqual (a b : option ObjString) : bool :=
  match a, b with
  | None, None => true
  | Some x, Some y =>
      ptr_eqb x y
      || ((os_length x =? os_length y)
          && String.eqb (take (os_length x) (os_chars x))
                        (take (os_length x) (os_chars y)))
  | _, _ => false
  end.

Fixpoint getGlobal (gs : Globals) (name : option ObjString) : option Value :=
  match gs with
  | [] => None
  | (n, v) :: rest =>
      if stringsEqual n name then Some v else getGlobal rest name
  end.

(** The first loop of [setGlobal]: the table with the entry of [name]
    overwritten, if there is one. *)
Fixpoint overwrite (gs : Globals) (name : option ObjString) (value : Value)
  : option Globals :=
  match gs with
  | [] => None
  | (n, v) :: rest =>
      if stringsEqual n name then Some ((n, value) :: rest)
      else match overwrite rest name value with
           | Some rest' => Some ((n, v) :: rest')
           | None => None
           end
  end.

Definition globalCount (gs : Globals) : Z := Z.of_nat (List.length gs).

Definition setGlobal (gs : Globals) (name : option ObjString) (value : Value)
  : Globals :=
  match overwrite gs name value with
  | Some gs' => gs'
  | None =>
      if globalCount gs <? MAX_GLOBALS then (gs ++ [(name, value)])%list
      else gs
  end.

Definition isTruthy (value : Value) : bool :=
  match value with
  | NIL_VAL => false
  | BOOL_VAL b => b
  | _ => true
  end.

Definition runtimeError (message : string) : V unit :=
  fun p => Ok tt (put_stderr ("Runtime error: " ++ message ++ newline) p).

(** [runtimeError(...); return INTERPRET_RUNTIME_ERROR;] *)
Definition fail {A} (message : string) : V A :=
  runtimeError message ;; return_ INTERPRET_RUNTIME_ERROR.

(** The message of [runtimeError("Undefined variable '%.*s'.", ...)]. *)
Definition undefined_variable (n : ObjString) : string :=
  "Undefined variable '" ++ take (os_length n) (os_chars n) ++ "'.".

Definition fail_undefined {A} (name : option ObjString) : V A :=
  match name with
  | Some n => fail (undefined_variable n)
  | None => fault NULL_NAME
  end.

Definition code_at (i : Z) : V Z :=
  fun p =>
    if (0 <=? i) && (i <? count (chunk (vm p))) then
      match nth_error (code (chunk (vm p))) (Z.to_nat i) with
      | Some b => Ok b p
      | None => Stop (Faulted CODE_OUT_OF_BOUNDS) p
      end
    else Stop (Faulted CODE_OUT_OF_BOUNDS) p.

Definition READ_BYTE : V Z :=
  fun p => (b <- code_at (ip (vm p)) ;;
            fun p => Ok b (set_ip (ip (vm p) + 1) p)) p.

Definition READ_SHORT : V Z :=
  fun p => (hi <- code_at (ip (vm p)) ;;
            lo <- code_at (ip (vm p) + 1) ;;
            fun p => Ok (Z.lor (Z.shiftl hi 8) lo mod 65536)
                        (set_ip (ip (vm p) + 2) p)) p.

Definition READ_CONSTANT : V Value :=
  i <- READ_BYTE ;; constant_at i.

Definition jump (delta : Z) : V unit :=
  fun p => Ok tt (set_ip (ip (vm p) + delta) p).

(** The number that C makes of the [int] result of a comparison. *)
Definition of_bool (b : bool) : float := if b then 1%float else 0%float.

Definition IS_NUMBER_peek (distance : nat) : V bool :=
  v <- peek distance ;; ret (IS_NUMBER v).

(** [AS_NUMBER(v)], where the value read is used. *)
Definition as_number (v : Value) : V float :=
  match AS_NUMBER v with
  | Some n => ret n
  | None => fault UNION_READ
  end.

(** The macro [BINARY_OP(op)]; [f a b] is [a op b] as a [double]. *)
Definition BINARY_OP (f : float -> float -> float) : V unit :=
  n0 <- IS_NUMBER_peek 0 ;;
  ok <- (if n0 then IS_NUMBER_peek 1 else ret false) ;;
  if negb ok then fail "Operands must be numbers."
  else
    vb <- pop ;; b <- as_number vb ;;
    va <- pop ;; a <- as_number va ;;
    push (NUMBER_VAL (f a b)).

(** One turn of the [for (;;)] of [run]: fetch and dispatch. *)
Definition step : V unit :=
  instruction <- READ_BYTE ;;
  match decode instruction with
  | Some OP_CONSTANT => constant <- READ_CONSTANT ;; push constant
  | Some OP_NIL => push NIL_VAL
  | Some OP_TRUE => push (BOOL_VAL true)
  | Some OP_FALSE => push (BOOL_VAL false)
  | Some OP_POP => pop ;; ret tt
  | Some OP_GET_GLOBAL =>
      k <- READ_BYTE ;;
      name <- getConstantName k ;;
      fun p =>
        match getGlobal (globals p) name with
        | None => fail_undefined name p
        | Some value => push value p
        end
  | Some OP_DEFINE_GLOBAL =>
      k <- READ_BYTE ;;
      name <- getConstantName k ;;
      v <- peek 0 ;;
      (fun p => Ok tt (set_globals (setGlobal (globals p) name v) p)) ;;
      pop ;; ret tt
  | Some OP_SET_GLOBAL =>
      k <- READ_BYTE ;;
      name <- getConstantName k ;;
      v <- pop ;;
      fun p =>
        match getGlobal (globals p) name with
        | None => fail_undefined name p
        | Some _ =>
            push v (set_globals (setGlobal (globals p) name v) p)
        end
  | Some OP_EQUAL =>
      b <- pop ;; a <- pop ;; push (BOOL_VAL (valuesEqual a b))
  | Some OP_GREATER => BINARY_OP (fun a b => of_bool (PrimFloat.ltb b a))
  | Some OP_LESS => BINARY_OP (fun a b => of_bool (PrimFloat.ltb a b))
  | Some OP_ADD =>
      n0 <- IS_NUMBER_peek 0 ;;
      ok <- (if n0 then IS_NUMBER_peek 1 else ret false) ;;
      if ok then
        vb <- pop ;; b <- as_number vb ;;
        va <- pop ;; a <- as_number va ;;
        push (NUMBER_VAL (PrimFloat.add a b))
      else fail "Operands must be numbers."
  | Some OP_SUBTRACT => BINARY_OP PrimFloat.sub
  | Some OP_MULTIPLY => BINARY_OP PrimFloat.mul
  | Some OP_DIVIDE =>
      v <- peek 0 ;;
      d <- as_number v ;;
      if PrimFloat.eqb d 0%float then fail "Division by zero."
      else BINARY_OP PrimFloat.div
  | Some OP_NOT => v <- pop ;; push (BOOL_VAL (negb (isTruthy v)))
  | Some OP_NEGATE =>
      n0 <- IS_NUMBER_peek 0 ;;
      if negb n0 then fail "Operand must be a number."
      else v <- pop ;; n <- as_number v ;; push (NUMBER_VAL (PrimFloat.opp n))
  | Some OP_PRINT =>
      v <- pop ;;
      fun p => Ok tt (put_stdout newline (put_stdout (printValue v) p))
  | Some OP_JUMP => offset <- READ_SHORT ;; jump offset
  | Some OP_JUMP_IF_FALSE =>
      offset <- READ_SHORT ;;
      v <- peek 0 ;;
      if negb (isTruthy v) then pop ;; jump offset else ret tt
  | Some OP_LOOP => offset <- READ_SHORT ;; jump (- offset)
  | Some OP_RETURN => return_ INTERPRET_OK
  | Some OP_GET_LOCAL | Some OP_SET_LOCAL | None => ret tt
  end.

(** [run()]: [None] when the fuel ran out before the loop was left. *)
Fixpoint run (fuel : nat) (p : Process) : option (Outcome * Process) :=
  match fuel with
  | O => None
  | S fuel' =>
      match step p with
      | Ok _ p' => run fuel' p'
      | Stop o p' => Some (o, p')
      end
  end.

Definition initVM (p : Process) : Process :=
  set_globals [] (resetStack p).

(** [freeVM()]: [free(vm.stack)], which leaves [vm.stack] and
    [vm.stackCapacity] as they are. *)
Definition freeVM (p : Process) : Fault + Process :=
  match stackBlock (vm p) with
  | BLOCK_NULL => inr p
  | BLOCK_LIVE => inr (set_vm_block BLOCK_FREED p)
  | BLOCK_FREED => inl DOUBLE_FREE
  end.

(** [freeChunk(&chunk)] on the local chunk of [interpret], to which
    [compilingChunk] and [vm.chunk] point. *)
Definition freeChunk (p : Process) : Process :=
  let m := vm p in
  set_compilingChunk initChunk
    (set_vm (mkVM initChunk (ip m) (stack m) (stackBlock m)
                  (stackCapacity m)) p).

Definition interpret (fuel : nat) (source : string) (p : Process)
  : option (Outcome * Process) :=
  match Compiler.compile fuel source initChunk p with
  | None => None
  | Some (false, p1) =>
      Some (Returned INTERPRET_COMPILE_ERROR, freeChunk p1)
  | Some (true, p1) =>
      let m := vm p1 in
      let p2 := set_vm (mkVM (compilingChunk p1) 0 (stack m) (stackBlock m)
                             (stackCapacity m)) p1 in
      match run fuel p2 with
      | None => None
      | Some (result, p3) => Some (result, freeChunk p3)
      end
  end.

End Vm.

(* ================================================================== *)
(** * Vocabulary of the statements *)
(* ================================================================== *)

(** A process after [initVM()], before any [interpret]. *)
Definition started : Process := Vm.initVM boot.

(** [interpret(source)] called in [p] ends with [o] and leaves [p']. *)
Definition interprets (source : string) (p : Process)
           (o : Outcome) (p' : Process) : Prop :=
  exists fuel, Vm.interpret fuel source p = Some (o, p').

(** [compile(source, chunk)] called in [p] returns [ok] and leaves [p']. *)
Definition compiles (source : string) (chunk : Chunk) (p : Process)
           (ok : bool) (p' : Process) : Prop :=
  exists fuel, Compiler.compile fuel source chunk p = Some (ok, p').

(** A computation of the compiler that returns with more fuel whatever it
    returns with less. *)
Definition le_M {A} (c c' : Compiler.M A) : Prop :=
  forall p r, c p = Some r -> c' p = Some r.

(** The bytes of [vm.chunk->code] at [vm.ip] are [bytes]. *)
Definition at_ip (p : Process) (bytes : list Z) : Prop :=
  0 <= ip (vm p) /\
  firstn (List.length bytes)
         (skipn (Z.to_nat (ip (vm p))) (code (chunk (vm p)))) = bytes.

(** The constant [k] of [vm.chunk]. *)
Definition constant (p : Process) (k : Z) : option Value :=
  nth_error (values (constants (chunk (vm p)))) (Z.to_nat k).

(** [push] can store: the stack block is live, or it has never been
    allocated and the next [push] allocates it. *)
Definition pushable (m : VM) : Prop :=
  stackBlock m = BLOCK_LIVE \/
  (stackBlock m = BLOCK_NULL /\ stackCapacity m < stackTop m + 1).

(** The 16-bit operand that [READ_SHORT] makes of two bytes. *)
Definition short (hi lo : Z) : Z := Z.lor (Z.shiftl hi 8) lo mod 65536.

(** What [runtimeError] writes for a message. *)
Definition diagnostic (message : string) : string :=
  "Runtime error: " ++ message ++ newline.

(** [o] is as [copyString] makes it from a text of at least [length]
    characters: it holds [length] characters. *)
Definition well_formedb (o : ObjString) : bool :=
  os_length o =? strlen (os_chars o).

Definition ObjString_eqb (a b : ObjString) : bool :=
  Nat.eqb (os_addr a) (os_addr b) && (os_length a =? os_length b)
  && String.eqb (os_chars a) (os_chars b).

(** The heap as the table and [o] see it: every object is well formed, and
    the only object of the table at the address of [o] is [o]. *)
Definition coherent (gs : Globals) (o : ObjString) : bool :=
  well_formedb o &&
  forallb (fun e : option ObjString * Value =>
             match fst e with
             | None => true
             | Some n => well_formedb n
                         && (negb (ptr_eqb n o) || ObjString_eqb n o)
             end) gs.

(** The lines [l1], [l2], ... as written on a stream. *)
Fixpoint text (ls : list string) : string :=
  match ls with
  | [] => ""
  | l :: rest => l ++ newline ++ text rest
  end.

(** [n] copies of [s]. *)
Fixpoint copies (n : nat) (s : string) : string :=
  match n with
  | O => ""
  | S n' => s ++ copies n' s
  end.

(** The spelling of each binary operator with the opcodes that section 4.2
    of the specification gives for it. *)
Definition binary_spelling : list (string * list OpCode) :=
  [ ("*", [OP_MULTIPLY]); ("/", [OP_DIVIDE]);
    ("+", [OP_ADD]); ("-", [OP_SUBTRACT]);
    ("==", [OP_EQUAL]); ("!=", [OP_EQUAL; OP_NOT]);
    ("<", [OP_LESS]); ("<=", [OP_GREATER; OP_NOT]);
    (">", [OP_GREATER]); (">=", [OP_LESS; OP_NOT]) ].

(** The code of [(1 o1 2) o2 3], printed: operands and operators in source
    order, the first operator applied before the third operand is pushed. *)
Definition flat_code (ops1 ops2 : list OpCode) : list Z :=
  ([op OP_CONSTANT; 0; op OP_CONSTANT; 1] ++ map op ops1
   ++ [op OP_CONSTANT; 2] ++ map op ops2 ++ [op OP_PRINT; op OP_RETURN])%list.

(** The bytes that [compile] makes of a source, when it succeeds. *)
Definition compiled_code (fuel : nat) (source : string) : option (list Z) :=
  match Compiler.compile fuel source initChunk started with
  | Some (true, p) => Some (code (compilingChunk p))
  | _ => None
  end.

Definition list_Z_eqb (a b : list Z) : bool :=
  if list_eq_dec Z.eq_dec a b then true else false.

(** [print 1 o1 2 o2 3;] compiles to [flat_code]. *)
Definition flat_pair (e1 e2 : string * list OpCode) : bool :=
  match compiled_code 50 ("print 1 " ++ fst e1 ++ " 2 " ++ fst e2 ++ " 3;") with
  | Some c => list_Z_eqb c (flat_code (snd e1) (snd e2))
  | None => false
  end.

(** The globals [v0], [v1], ..., each holding nil. *)
Definition numbered_global (i : nat) : option ObjString * Value :=
  let name := "v" ++ print_int (Z.of_nat i) in
  (Some (mkObjString i (strlen name) name), NIL_VAL).

Definition numbered_globals (n : nat) : Globals :=
  map numbered_global (seq 0 n).

(** The source [var v0; var v1; ...] of [n] declarations. *)
Definition numbered_vars (n : nat) : string :=
  String.concat " "
    (map (fun i => "var v" ++ print_int (Z.of_nat i) ++ ";") (seq 0 n)).

(** A machine with [vm.ip] at offset [i] of [bytes], with the given
    constants, stack and globals. *)
Definition machine (i : Z) (bytes : list Z) (consts : list Value)
           (st : list Value) (gs : Globals) : Process :=
  set_globals gs
    (set_vm (mkVM (mkChunk (Z.of_nat (List.length bytes)) bytes
                           (map (fun _ => 1) bytes)
                           (mkValueArray (Z.of_nat (List.length consts)) consts))
                  i st BLOCK_LIVE 8) started).

(** The statics when [compile] has primed [parser.current] with the first
    token of [source]. *)
Definition parsing (source : string) : Process :=
  match Compiler.advance (set_scanner (Scanner.initScanner source) started) with
  | Some (_, p) => p
  | None => started
  end.

(** The code of [n] statements [print c;], the [i]-th with the operand
    that a one-byte cast makes of the pool index [i]. *)
Definition print_many (n : nat) : list Z :=
  (flat_map (fun i => [op OP_CONSTANT; Z.of_nat i mod 256; op OP_PRINT])
            (seq 0 n)
   ++ [op OP_RETURN])%list.

(** Scenario 4 of the specification, and what [compile] makes of it: the
    condition starts at offset 4 and [OP_LOOP] is at offset 24. *)
Definition while_source : string :=
  "var i = 0; while (i < 3) { print i; i = i + 1; }".

Definition while_code : list Z :=
  [ op OP_CONSTANT; 1; op OP_DEFINE_GLOBAL; 0;
    op OP_GET_GLOBAL; 2; op OP_CONSTANT; 3; op OP_LESS;
    op OP_JUMP_IF_FALSE; 0; 15; op OP_POP;
    op OP_GET_GLOBAL; 4; op OP_PRINT;
    op OP_GET_GLOBAL; 6; op OP_CONSTANT; 7; op OP_ADD;
    op OP_SET_GLOBAL; 5; op OP_POP;
    op OP_LOOP; 255; 234;
    op OP_POP; op OP_RETURN ].

(** What [compile] makes of [if (false) print 1;]: the jump at offset 1
    leads to the [OP_POP] at offset 11. *)
Definition if_false_code : list Z :=
  [ op OP_FALSE; op OP_JUMP_IF_FALSE; 0; 7; op OP_POP;
    op OP_CONSTANT; 0; op OP_PRINT; op OP_JUMP; 0; 1;
    op OP_POP; op OP_RETURN ].

(** Two allocations of the spelling [a]. *)
Definition name_a (addr : nat) : ObjString := mkObjString addr 1 "a".


(** The parser is in front of a [)] that starts a declaration. *)
Definition stuck (p : Process) : Prop :=
  type (current (parser p)) = TOKEN_RIGHT_PAREN.

(* ================================================================== *)
(** * Vocabulary of the further properties *)
(* ================================================================== *)

(** The number of newline characters of a text. *)
Fixpoint newlines (s : string) : Z :=
  match s with
  | EmptyString => 0
  | String c rest => (if Ascii.eqb c LF then 1 else 0) + newlines rest
  end.

(** [c] is one of the characters of [s]. *)
Fixpoint occurs (c : ascii) (s : string) : bool :=
  match s with
  | EmptyString => false
  | String a rest => Ascii.eqb a c || occurs c rest
  end.

(** The text of a token that is neither an error nor the end of the
    source: a word, a number or punctuation, none of which holds a
    quote, or a string literal between its two double quotes. *)
Definition spelled (l : string) : Prop :=
  l <> ""
  /\ (occurs "'" l = false /\ occurs DQUOTE l = false
      \/ exists body, l = String DQUOTE (body ++ String DQUOTE "")
                      /\ occurs DQUOTE body = false).

(** [scanToken] made the token [t] and the state [s'] of the state [s]:
    it passed over [skipped], took [body], and left the rest to scan. *)
Definition scans (s : Scanner.State) (t : Token) (s' : Scanner.State)
           (skipped body : string) : Prop :=
  Scanner.current s = skipped ++ body ++ Scanner.current s'
  /\ Scanner.line s' = Scanner.line s + newlines (skipped ++ body)
  /\ line t = Scanner.line s'
  /\ (type t <> TOKEN_ERROR ->
      start t = body ++ Scanner.current s' /\ lexeme t = body
      /\ length t = strlen body)
  /\ (type t = TOKEN_EOF <-> body = "").

(** Nothing but blanks and comments is left to scan. *)
Definition only_blanks (s : Scanner.State) : Prop :=
  Scanner.isAtEnd (Scanner.skipWhitespace s) = true.

(** The scanner when [scanToken] has skipped the blanks of [s]. *)
Definition at_end_of (s : Scanner.State) : Scanner.State :=
  Scanner.mkState (Scanner.current (Scanner.skipWhitespace s))
                  (Scanner.current (Scanner.skipWhitespace s))
                  (Scanner.line (Scanner.skipWhitespace s)).

(** The characters that [skipWhitespace] passes one by one. *)
Definition whitespace (c : ascii) : bool :=
  Ascii.eqb c " " || Ascii.eqb c CR || Ascii.eqb c TAB || Ascii.eqb c LF.

(** A text of blanks: spaces, carriage returns, tabs and newlines, and
    comments from [//] to the end of their line or of the text. *)
Inductive blank : string -> Prop :=
| blank_end : blank ""
| blank_space c s : whitespace c = true -> blank s -> blank (String c s)
| blank_last_comment body :
    newlines body = 0 -> blank ("//" ++ body)
| blank_comment body s :
    newlines body = 0 -> blank s -> blank ("//" ++ body ++ String LF s).

(** The reserved words of section 4.1 of the specification with their
    token kinds. *)
Definition keywords : list (string * TokenType) :=
  [ ("and", TOKEN_AND); ("class", TOKEN_CLASS); ("else", TOKEN_ELSE);
    ("false", TOKEN_FALSE); ("for", TOKEN_FOR); ("fun", TOKEN_FUN);
    ("if", TOKEN_IF); ("nil", TOKEN_NIL); ("or", TOKEN_OR);
    ("print", TOKEN_PRINT); ("return", TOKEN_RETURN); ("super", TOKEN_SUPER);
    ("this", TOKEN_THIS); ("true", TOKEN_TRUE); ("var", TOKEN_VAR);
    ("while", TOKEN_WHILE) ].

(** The kind of a word by a table of reserved words: that of the entry
    it is, or [TOKEN_IDENTIFIER]. *)
Fixpoint word_kind (table : list (string * TokenType)) (w : string)
  : TokenType :=
  match table with
  | [] => TOKEN_IDENTIFIER
  | (k, ty) :: rest => if String.eqb w k then ty else word_kind rest w
  end.

(** A computation of the compiler keeps [P]. *)
Definition keeps {A} (P : Process -> Prop) (c : Compiler.M A) : Prop :=
  forall p r, P p -> c p = Some r -> P (snd r).

(** What [errorAt] writes for a token and a message. *)
Definition report (t : Token) (message : string) : string :=
  "[line " ++ print_int (line t) ++ "] Error"
  ++ (if tt_eqb (type t) TOKEN_EOF then " at end"
      else if negb (tt_eqb (type t) TOKEN_ERROR)
           then " at '" ++ lexeme t ++ "'" else "")
  ++ ": " ++ message ++ newline.

(** The messages of the compiler (compiler.c) and of the scanner
    (scanner.c). *)
Definition compiler_messages : list string :=
  [ "Expect ')' after expression."; "Expect expression.";
    "Expect variable name."; "Expect ';' after variable declaration.";
    "Expect ';' after value."; "Expect '(' after 'if'.";
    "Expect ')' after if condition."; "Expect '(' after 'while'.";
    "Expect ')' after condition."; "Expect '}' after block.";
    "Expect ';' after expression.";
    "Unterminated string."; "Unexpected character." ].

(** [t] is a token that [scanToken] returns. *)
Definition scanned (t : Token) : Prop :=
  exists s, t = fst (Scanner.scanToken s).

(** [e] is [e0] followed by what one call of [errorAt] writes and by
    nothing more: it is [e0] and the report of a token that the scanner
    made with a message of the compiler, and whatever such report
    follows [e0] in [e], nothing follows that report. *)
Definition one_report (e0 e : string) : Prop :=
  (exists t msg,
      scanned t /\ In msg compiler_messages /\ e = e0 ++ report t msg)
  /\ (forall t msg rest,
        scanned t -> In msg compiler_messages ->
        e = e0 ++ report t msg ++ rest -> rest = "").

(** Since [compile] started with [stderr] holding [e0], the two flags
    have moved together and at most one report was written. *)
Definition reported (e0 : string) (p : Process) : Prop :=
  hadError (parser p) = panicMode (parser p)
  /\ if hadError (parser p)
     then one_report e0 (stderr p)
     else stderr p = e0.

(** The arrays of a chunk as [writeChunk] and [writeValueArray] keep
    them: a line for every byte, and no more elements than allocated. *)
Definition in_bounds (c : Chunk) : Prop :=
  List.length (lines c) = List.length (code c)
  /\ count c <= capacity c
  /\ va_count (constants c) <= va_capacity (constants c).

(** The operands of the jumps at the offsets [l] lie within the code:
    [code[offset]] and [code[offset + 1]] are bytes of the chunk. *)
Definition open_jumps (l : list Z) (p : Process) : Prop :=
  Forall (fun offset => 0 <= offset /\ offset + 2 <= count (compilingChunk p))
         l.

(** [patchJump] where C defines it: on an operand within the code.  It
    has no result elsewhere, where the two stores of [patchJump] would
    write outside the bytes of the chunk. *)
Definition patchJump_within (offset : Z) : Compiler.M unit :=
  fun p =>
    if (0 <=? offset) && (offset + 2 <=? count (compilingChunk p))
    then Compiler.patchJump offset p
    else None.

Module Checked.
Import Compiler.
Local Open Scope comp_scope.

(** [declaration], the [while] of the block, the loop of [compile] and
    [compile] (compiler.c, lines 186 to 264) with the function that
    patches a jump as a parameter: with [patchJump] they are the
    functions of the compiler. *)
Fixpoint declaration (patch : Z -> M unit) (fuel : nat) : M unit :=
  match fuel with
  | O => out_of_fuel
  | S fuel' =>
      when match_ TOKEN_VAR then
        (consume TOKEN_IDENTIFIER "Expect variable name." ;;
         name <- prev ;;
         arg <- identifierConstant name ;;
         (when match_ TOKEN_EQUAL then expression fuel'
          otherwise emitOp OP_NIL) ;;
         consume TOKEN_SEMICOLON "Expect ';' after variable declaration." ;;
         emitOpArg OP_DEFINE_GLOBAL arg)
      otherwise when match_ TOKEN_PRINT then
        (expression fuel' ;;
         consume TOKEN_SEMICOLON "Expect ';' after value." ;;
         emitOp OP_PRINT)
      otherwise when match_ TOKEN_IF then
        (consume TOKEN_LEFT_PAREN "Expect '(' after 'if'." ;;
         expression fuel' ;;
         consume TOKEN_RIGHT_PAREN "Expect ')' after if condition." ;;
         ln <- prev_line ;;
         thenJump <- emitJump (op OP_JUMP_IF_FALSE) ln ;;
         emitOp OP_POP ;;
         declaration patch fuel' ;;
         ln <- prev_line ;;
         elseJump <- emitJump (op OP_JUMP) ln ;;
         patch thenJump ;;
         emitOp OP_POP ;;
         (when match_ TOKEN_ELSE then declaration patch fuel' otherwise ret tt) ;;
         patch elseJump)
      otherwise when match_ TOKEN_WHILE then
        (loopStart <- chunk_count ;;
         consume TOKEN_LEFT_PAREN "Expect '(' after 'while'." ;;
         expression fuel' ;;
         consume TOKEN_RIGHT_PAREN "Expect ')' after condition." ;;
         ln <- prev_line ;;
         exitJump <- emitJump (op OP_JUMP_IF_FALSE) ln ;;
         emitOp OP_POP ;;
         declaration patch fuel' ;;
         n <- chunk_count ;;
         let offset := loopStart - n - 2 in
         emitOp OP_LOOP ;;
         ln <- prev_line ;;
         emitByte (hi_byte offset) ln ;;
         emitByte (lo_byte offset) ln ;;
         patch exitJump ;;
         emitOp OP_POP)
      otherwise when match_ TOKEN_LEFT_BRACE then
        (block_loop patch fuel' ;;
         consume TOKEN_RIGHT_BRACE "Expect '}' after block.")
      otherwise
        (expression fuel' ;;
         consume TOKEN_SEMICOLON "Expect ';' after expression." ;;
         emitOp OP_POP)
  end

with block_loop (patch : Z -> M unit) (fuel : nat) : M unit :=
  match fuel with
  | O => out_of_fuel
  | S fuel' =>
      fun p =>
        if negb (tt_eqb (type (current (parser p))) TOKEN_RIGHT_BRACE)
           && negb (hadError (parser p))
        then (declaration patch fuel' ;; block_loop patch fuel') p
        else Some (tt, p)
  end.

Fixpoint compile_loop (patch : Z -> M unit) (fuel : nat) : M unit :=
  match fuel with
  | O => out_of_fuel
  | S fuel' =>
      when match_ TOKEN_EOF then ret tt
      otherwise (declaration patch fuel' ;; compile_loop patch fuel')
  end.

Definition compile (patch : Z -> M unit) (fuel : nat) (source : string)
           (chunk : Chunk) : M bool :=
  modify (set_scanner (Scanner.initScanner source)) ;;
  modify (set_compilingChunk chunk) ;;
  modify (fun p =>
    set_parser (mkParser (current (parser p)) (previous (parser p))
                         false false) p) ;;
  advance ;;
  compile_loop patch fuel ;;
  emitOp OP_RETURN ;;
  gets (fun p => negb (hadError (parser p))).

End Checked.

(** A computation of the compiler that started where [I] holds returns
    where [J] holds of its result. *)
Definition hoare {A} (I : Process -> Prop) (c : Compiler.M A)
           (J : A -> Process -> Prop) : Prop :=
  forall p r, I p -> c p = Some r -> J (fst r) (snd r).

(** Two computations of the compiler do the same where [I] holds. *)
Definition agree {A} (I : Process -> Prop) (c c' : Compiler.M A) : Prop :=
  forall p, I p -> c p = c' p.

(** The last token consumed was the end of the source. *)
Definition at_eof (p : Process) : Prop :=
  type (previous (parser p)) = TOKEN_EOF.

(** The kinds of token that no rule of the compiler consumes at the
    start of a declaration: those that neither [declaration] nor
    [parsePrecedence1] nor the loop of [expression] matches, and that
    are neither [;] nor the end of the source. *)
Definition unconsumed (ty : TokenType) : bool :=
  match ty with
  | TOKEN_RIGHT_PAREN | TOKEN_RIGHT_BRACE | TOKEN_COMMA | TOKEN_DOT
  | TOKEN_EQUAL | TOKEN_STRING
  | TOKEN_AND | TOKEN_CLASS | TOKEN_ELSE | TOKEN_FOR | TOKEN_FUN | TOKEN_OR
  | TOKEN_RETURN | TOKEN_SUPER | TOKEN_THIS => true
  | _ => false
  end.

(** The parser is in front of a token of kind [k]. *)
Definition in_front_of (k : TokenType) (p : Process) : Prop :=
  type (current (parser p)) = k.

(** The statics in which [compile] calls [advance] for the first time. *)
Definition primed (source : string) (chunk : Chunk) (p : Process) : Process :=
  set_parser (mkParser (current (parser p)) (previous (parser p)) false false)
    (set_compilingChunk chunk
       (set_scanner (Scanner.initScanner source) p)).

(** The statics in which [interpret] calls [run] after [compile] left
    [p1]. *)
Definition loaded (p1 : Process) : Process :=
  set_vm (mkVM (compilingChunk p1) 0 (stack (vm p1)) (stackBlock (vm p1))
               (stackCapacity (vm p1))) p1.

(** The fixed messages that [run] passes to [runtimeError] (vm.c). *)
Definition runtime_messages : list string :=
  [ "Operands must be numbers."; "Operand must be a number.";
    "Division by zero." ].

(** [msg] is the message of the runtime error of the instruction that
    ends in front of [ip] in the chunk [c]: one of the three fixed
    messages, or the message of an undefined variable when the two
    bytes in front of [ip] are [OP_GET_GLOBAL] or [OP_SET_GLOBAL] and an
    operand that designates the name [n] among the constants of [c]. *)
Definition raised (c : Chunk) (ip : Z) (msg : string) : Prop :=
  In msg runtime_messages
  \/ exists o k n,
       (o = OP_GET_GLOBAL \/ o = OP_SET_GLOBAL)
       /\ 2 <= ip
       /\ nth_error (code c) (Z.to_nat (ip - 2)) = Some (op o)
       /\ nth_error (code c) (Z.to_nat (ip - 1)) = Some k
       /\ nth_error (values (constants c)) (Z.to_nat k) = Some (OBJ_VAL n)
       /\ msg = Vm.undefined_variable n.

(** A computation of the VM keeps [P] while it goes on and establishes
    [R] when it stops. *)
Definition vkeeps {A} (P : Process -> Prop) (R : Outcome -> Process -> Prop)
           (c : Vm.V A) : Prop :=
  forall p, P p ->
    match c p with
    | Vm.Ok _ p' => P p'
    | Vm.Stop o p' => R o p'
    end.

(** The test that the opcode of an ordered comparison makes of [a] and
    [b]. *)
Definition ordered (o : OpCode) (a b : float) : option bool :=
  match o with
  | OP_GREATER => Some (PrimFloat.ltb b a)
  | OP_LESS => Some (PrimFloat.ltb a b)
  | _ => None
  end.

(** The statics that a call has left, those of [boot] if it ran out of
    fuel. *)
Definition left_by {A} (r : option (A * Process)) : Process :=
  match r with
  | Some (_, p) => p
  | None => boot
  end.

(** A chunk whose jump at offset 1 waits to be patched. *)
Definition jump_chunk : Chunk :=
  mkChunk 8 [op OP_JUMP; 255; 255; op OP_NIL; op OP_POP] [1; 1; 1; 1; 1]
          initValueArray.

(* ================================================================== *)
(** * Fuel: a result does not depend on how much was supplied *)
(* ================================================================== *)

Lemma le_M_refl {A} (c : Compiler.M A) : le_M c c.
Proof. intros p r H. exact H. Qed.

Lemma le_M_bind {A B} (c c' : Compiler.M A) (k k' : A -> Compiler.M B) :
  le_M c c' -> (forall x, le_M (k x) (k' x)) ->
  le_M (Compiler.bind c k) (Compiler.bind c' k').
Proof.
  intros Hc Hk p r. unfold Compiler.bind.
  destruct (c p) as [[x p1]|] eqn:E; [|discriminate].
  rewrite (Hc _ _ E). apply Hk.
Qed.

Lemma le_M_out_of_fuel {A} (c : Compiler.M A) : le_M Compiler.out_of_fuel c.
Proof. intros p r H. discriminate. Qed.

Ltac mono :=
  repeat first
    [ assumption
    | apply le_M_refl
    | apply le_M_bind; [|intros ?]
    | match goal with
      | |- le_M (if ?b then _ else _) _ => destruct b
      | |- le_M (match ?x with Some _ => _ | None => _ end) _ => destruct x
      end ].

Lemma descent_fuel_step n :
  le_M (Compiler.parsePrecedence1 n) (Compiler.parsePrecedence1 (S n))
  /\ le_M (Compiler.expression n) (Compiler.expression (S n))
  /\ le_M (Compiler.expression_loop n) (Compiler.expression_loop (S n))
  /\ le_M (Compiler.declaration n) (Compiler.declaration (S n))
  /\ le_M (Compiler.block_loop n) (Compiler.block_loop (S n)).
Proof.
  induction n as [|n (IHp & IHe & IHl & IHd & IHb)].
  - repeat split; apply le_M_out_of_fuel.
  - repeat split.
    + cbn [Compiler.parsePrecedence1]. mono.
    + cbn [Compiler.expression]. mono.
    + cbn [Compiler.expression_loop]. mono.
    + cbn [Compiler.declaration]. mono.
    + cbn [Compiler.block_loop]. intros p r.
      destruct (negb _ && negb _); [|intros H; exact H].
      revert p r. fold (le_M (A:=unit)). mono.
Qed.

Lemma compile_loop_fuel_step n :
  le_M (Compiler.compile_loop n) (Compiler.compile_loop (S n)).
Proof.
  induction n as [|n IH]; [apply le_M_out_of_fuel|].
  cbn [Compiler.compile_loop].
  pose proof (descent_fuel_step n) as (_ & _ & _ & D & _). mono.
Qed.

Lemma compile_fuel_step n source chunk :
  le_M (Compiler.compile n source chunk) (Compiler.compile (S n) source chunk).
Proof.
  unfold Compiler.compile. pose proof (compile_loop_fuel_step n). mono.
Qed.

Lemma run_fuel_step n : forall p r,
  Vm.run n p = Some r -> Vm.run (S n) p = Some r.
Proof.
  induction n as [|n IH]; intros p r; [discriminate|].
  cbn [Vm.run].
  destruct (Vm.step p) as [u p'|o p']; [apply IH | intros H; exact H].
Qed.

Lemma interpret_fuel_step n source p r :
  Vm.interpret n source p = Some r -> Vm.interpret (S n) source p = Some r.
Proof.
  unfold Vm.interpret.
  destruct (Compiler.compile n source initChunk p) as [[ok p1]|] eqn:C;
    [|discriminate].
  rewrite (compile_fuel_step _ _ _ _ _ C).
  destruct ok; [|intros H; exact H].
  destruct (Vm.run n _) as [[o p3]|] eqn:R; [|discriminate].
  rewrite (run_fuel_step _ _ _ R). intros H; exact H.
Qed.

Lemma compile_fuel_mono n m source chunk p r :
  (n <= m)%nat ->
  Compiler.compile n source chunk p = Some r ->
  Compiler.compile m source chunk p = Some r.
Proof.
  induction 1 as [|m L IH]; intros H; [exact H|].
  apply compile_fuel_step, IH, H.
Qed.

Lemma interpret_fuel_mono n m source p r :
  (n <= m)%nat ->
  Vm.interpret n source p = Some r -> Vm.interpret m source p = Some r.
Proof.
  induction 1 as [|m L IH]; intros H; [exact H|].
  apply interpret_fuel_step, IH, H.
Qed.

(** A call of [interpret] has at most one outcome. *)
Lemma interprets_deterministic source p o1 p1 o2 p2 :
  interprets source p o1 p1 -> interprets source p o2 p2 ->
  o1 = o2 /\ p1 = p2.
Proof.
  intros [n1 H1] [n2 H2].
  apply (interpret_fuel_mono n1 (Nat.max n1 n2)) in H1; [|apply Nat.le_max_l].
  apply (interpret_fuel_mono n2 (Nat.max n1 n2)) in H2; [|apply Nat.le_max_r].
  rewrite H1 in H2. injection H2 as <- <-. split; reflexivity.
Qed.

Lemma compiles_deterministic source chunk p ok1 p1 ok2 p2 :
  compiles source chunk p ok1 p1 -> compiles source chunk p ok2 p2 ->
  ok1 = ok2 /\ p1 = p2.
Proof.
  intros [n1 H1] [n2 H2].
  apply (compile_fuel_mono n1 (Nat.max n1 n2)) in H1; [|apply Nat.le_max_l].
  apply (compile_fuel_mono n2 (Nat.max n1 n2)) in H2; [|apply Nat.le_max_r].
  rewrite H1 in H2. injection H2 as <- <-. split; reflexivity.
Qed.

(* ================================================================== *)
(** * The parser in front of a token that no rule consumes *)
(* ================================================================== *)

Lemma check_type p ty :
  Compiler.check ty p = Some (tt_eqb (type (current (parser p))) ty, p).
Proof. reflexivity. Qed.

Lemma match_other p ty :
  tt_eqb (type (current (parser p))) ty = false ->
  Compiler.match_ ty p = Some (false, p).
Proof.
  intros H. unfold Compiler.match_, Compiler.bind.
  rewrite check_type, H. reflexivity.
Qed.

Lemma errorAt_current t msg p :
  exists p', Compiler.errorAt t msg p = Some (tt, p')
             /\ current (parser p') = current (parser p)
             /\ scanner p' = scanner p.
Proof.
  unfold Compiler.errorAt. destruct (panicMode (parser p)).
  - eexists; repeat split.
  - destruct (tt_eqb (type t) TOKEN_EOF); [|destruct (negb _)];
      eexists; repeat split.
Qed.

(** ** [advance] always returns *)

Lemma skipWhitespace_at_length : forall cur c ln,
  (String.length (fst (Scanner.skipWhitespace_at c cur ln)) <= String.length cur)%nat.
Proof.
  induction cur as [|a cur IH]; intros c ln; simpl; [lia|].
  destruct c.
  - destruct (Ascii.eqb a LF); [specialize (IH false (ln + 1)%Z); lia|].
    destruct (Ascii.eqb a NUL); [simpl; lia|]. specialize (IH true ln); lia.
  - destruct (_ || _); [specialize (IH false ln); lia|].
    destruct (Ascii.eqb a LF); [specialize (IH false (ln + 1)%Z); lia|].
    destruct (Ascii.eqb a "/"); [|simpl; lia].
    destruct (Ascii.eqb _ "/"); [specialize (IH true ln); lia | simpl; lia].
Qed.

Lemma identifierType_not_error s : Scanner.identifierType s <> TOKEN_ERROR.
Proof.
  unfold Scanner.identifierType, Scanner.checkKeyword.
  repeat match goal with
         | |- context [if ?b then _ else _] => destruct b
         end; discriminate.
Qed.

(** A token of kind [TOKEN_ERROR] has consumed input, or the scanner is at
    the end of the source. *)
Lemma scanToken_error s :
  type (fst (Scanner.scanToken s)) = TOKEN_ERROR ->
  (String.length (Scanner.current (snd (Scanner.scanToken s)))
   < String.length (Scanner.current s))%nat
  \/ Scanner.isAtEnd (snd (Scanner.scanToken s)) = true.
Proof.
  unfold Scanner.scanToken, Scanner.skipWhitespace.
  pose proof (skipWhitespace_at_length (Scanner.current s) false (Scanner.line s)) as L.
  destruct (Scanner.skipWhitespace_at false (Scanner.current s) (Scanner.line s))
    as [cur ln]. simpl in L. cbn [Scanner.current Scanner.line].
  destruct (Scanner.isAtEnd _) eqn:E; [discriminate|].
  unfold Scanner.advance. cbn [Scanner.current Scanner.start Scanner.line].
  destruct cur as [|c rest]; [discriminate E|].
  change (Ascii.eqb c NUL = false) in E. rewrite E.
  destruct (Scanner.isAlpha c).
  { intros H. exfalso. revert H. unfold Scanner.identifier. cbn [fst type Scanner.makeToken].
    apply identifierType_not_error. }
  destruct (Scanner.isDigit c); [discriminate|].
  unfold Scanner.match_.
  repeat match goal with
         | |- context [if is_char c ?k then _ else _] => destruct (is_char c k)
         | |- context [if Scanner.isAtEnd ?q then _ else _] => destruct (Scanner.isAtEnd q)
         | |- context [if negb ?q then _ else _] => destruct (negb q)
         end; cbn [fst snd type Scanner.makeToken]; try discriminate.
  - unfold Scanner.string_. cbn [Scanner.current Scanner.line Scanner.start].
    destruct (Scanner.string_at rest ln) as [cur' ln'].
    destruct (Scanner.isAtEnd _) eqn:E2; cbn [fst snd type Scanner.makeToken]; [|discriminate].
    intros _. right. exact E2.
  - intros _. left. cbn [Scanner.errorToken snd Scanner.current]. simpl in L. lia.
Qed.

Lemma scanToken_at_end s :
  Scanner.isAtEnd s = true -> type (fst (Scanner.scanToken s)) = TOKEN_EOF.
Proof.
  unfold Scanner.scanToken, Scanner.skipWhitespace, Scanner.isAtEnd, Scanner.peek.
  destruct (Scanner.current s) as [|c rest] eqn:C; intros E.
  - reflexivity.
  - change (Ascii.eqb c NUL = true) in E. apply Ascii.eqb_eq in E. subst c.
    reflexivity.
Qed.

Lemma advance_loop_total fuel : forall p,
  (String.length (Scanner.current (scanner p)) + 2 <= fuel)%nat
  \/ (Scanner.isAtEnd (scanner p) = true /\ (1 <= fuel)%nat) ->
  exists p', Compiler.advance_loop fuel p = Some (tt, p').
Proof.
  induction fuel as [|fuel IH]; intros p H; [lia|].
  cbn [Compiler.advance_loop].
  pose proof (scanToken_error (scanner p)) as P.
  pose proof (scanToken_at_end (scanner p)) as Q.
  destruct (Scanner.scanToken (scanner p)) as [t sc]. cbn [fst snd] in P, Q.
  unfold tt_eqb. destruct (TokenType_eq_dec (type t) TOKEN_ERROR) as [E|E];
    cbn [negb]; [|eexists; reflexivity].
  unfold Compiler.bind, Compiler.errorAtCurrent.
  match goal with |- context [Compiler.errorAt ?tok ?msg ?q] =>
    destruct (errorAt_current tok msg q) as (p1 & E1 & _ & S1) end.
  rewrite E1. apply IH. rewrite S1. cbn [scanner set_parser set_scanner Compiler.set_current].
  destruct H as [H | [H _]].
  - destruct (P E) as [L | A]; [left; lia | right; split; [exact A | lia]].
  - rewrite (Q H) in E. discriminate.
Qed.

(** [advance] always returns. *)
Lemma advance_total p : exists p', Compiler.advance p = Some (tt, p').
Proof.
  unfold Compiler.advance. apply advance_loop_total. left.
  cbn [scanner set_parser]. lia.
Qed.

(** ** The top-level loop in front of [)] *)

Lemma match_binary_stuck p :
  stuck p -> Compiler.match_binary Compiler.binary_ops p = Some (None, p).
Proof.
  intros H. unfold Compiler.binary_ops. simpl. unfold Compiler.bind.
  repeat (rewrite match_other by (rewrite H; reflexivity)). reflexivity.
Qed.

Lemma parsePrecedence1_stuck fuel p r :
  stuck p -> Compiler.parsePrecedence1 fuel p = Some r -> stuck (snd r).
Proof.
  intros H. destruct fuel as [|fuel]; [discriminate|].
  simpl. unfold Compiler.bind.
  repeat (rewrite match_other by (rewrite H; reflexivity)).
  destruct (errorAt_current (current (parser p)) "Expect expression." p)
    as (p' & E & C & _).
  fold (Compiler.errorAtCurrent "Expect expression." p).
  unfold Compiler.errorAtCurrent.
  rewrite E. intros [= <-]. unfold stuck. simpl. rewrite C. exact H.
Qed.

Lemma consume_stuck ty msg p r :
  stuck p -> ty <> TOKEN_RIGHT_PAREN ->
  Compiler.consume ty msg p = Some r -> stuck (snd r).
Proof.
  intros H N. unfold Compiler.consume, Compiler.bind. rewrite check_type.
  replace (tt_eqb (type (current (parser p))) ty) with false.
  - destruct (errorAt_current (current (parser p)) msg p) as (p' & E & C & _).
    unfold Compiler.errorAtCurrent. rewrite E. intros [= <-].
    unfold stuck. simpl. rewrite C. exact H.
  - rewrite H. unfold tt_eqb. destruct (TokenType_eq_dec _ _); congruence.
Qed.

Lemma expression_stuck fuel p r :
  stuck p -> Compiler.expression fuel p = Some r -> stuck (snd r).
Proof.
  intros H. destruct fuel as [|fuel]; [discriminate|].
  cbn [Compiler.expression]. unfold Compiler.bind at 1.
  destruct (Compiler.parsePrecedence1 fuel p) as [[u p1]|] eqn:E;
    [|discriminate].
  apply (parsePrecedence1_stuck _ _ _ H) in E. simpl in E.
  destruct fuel as [|fuel]; [discriminate|].
  cbn [Compiler.expression_loop]. unfold Compiler.bind at 1.
  rewrite (match_binary_stuck p1 E). intros [= <-]. exact E.
Qed.

(** A declaration that starts at a [)] returns in front of the same
    [)]: nothing was consumed. *)
Lemma declaration_stuck fuel p r :
  stuck p -> Compiler.declaration fuel p = Some r -> stuck (snd r).
Proof.
  intros H. destruct fuel as [|fuel]; [discriminate|].
  cbn [Compiler.declaration]. unfold Compiler.bind at 1.
  repeat (rewrite match_other by (rewrite H; reflexivity);
          unfold Compiler.bind at 1).
  destruct (Compiler.expression fuel p) as [[u p1]|] eqn:E; [|discriminate].
  apply (expression_stuck _ _ _ H) in E. simpl in E.
  unfold Compiler.bind at 1.
  destruct (Compiler.consume _ _ p1) as [[u2 p2]|] eqn:E2; [|discriminate].
  apply (consume_stuck _ _ _ _ E) in E2; [|discriminate]. simpl in E2.
  intros [= <-]. exact E2.
Qed.

Lemma compile_loop_stuck fuel :
  forall p, stuck p -> Compiler.compile_loop fuel p = None.
Proof.
  induction fuel as [|fuel IH]; intros p H; [reflexivity|].
  cbn [Compiler.compile_loop]. unfold Compiler.bind at 1.
  rewrite match_other by (rewrite H; reflexivity).
  unfold Compiler.bind at 1.
  destruct (Compiler.declaration fuel p) as [[u p1]|] eqn:E; [|reflexivity].
  apply IH. exact (declaration_stuck _ _ _ H E).
Qed.

(** C3, on the code: [compile] does not return on the source [)].  The
    claim has [compile] run to completion on every source and return false
    on this one; in the code [declaration] reports the error without
    consuming the [)], and [while (!match(TOKEN_EOF)) declaration();] calls
    it again on the same token for ever (each turn appends an [OP_POP]).
    With any amount of fuel [compile], and so [interpret], runs out of it. *)
Theorem compile_rparen_diverges :
  (forall fuel chunk p, Compiler.compile fuel ")" chunk p = None)
  /\ (forall fuel p, Vm.interpret fuel ")" p = None).
Proof.
  assert (C : forall fuel chunk p, Compiler.compile fuel ")" chunk p = None).
  { intros fuel chunk p. unfold Compiler.compile.
    do 4 (unfold Compiler.bind at 1; cbn [Compiler.modify]).
    match goal with |- context [Compiler.advance ?q] =>
      destruct (Compiler.advance q) as [[u q']|] eqn:A; [|reflexivity];
      assert (S : stuck q')
        by (vm_compute in A; injection A as A; subst q'; reflexivity)
    end.
    unfold Compiler.bind at 1. rewrite (compile_loop_stuck fuel q' S).
    reflexivity. }
  split; [exact C|].
  intros fuel p. unfold Vm.interpret. rewrite C. reflexivity.
Qed.

(* ================================================================== *)
(** * Fetching, the operand stack and the table of globals *)
(* ================================================================== *)

Lemma decode_op o : decode (op o) = Some o.
Proof. destruct o; reflexivity. Qed.

Lemma skipn_cons_nth {A} (l : list A) : forall i x tl,
  skipn i l = x :: tl -> nth_error l i = Some x /\ skipn (S i) l = tl.
Proof.
  induction l as [|a l IH]; intros [|i] x tl H; simpl in *; try discriminate.
  - injection H as <- <-. split; reflexivity.
  - apply IH in H. exact H.
Qed.

Lemma nth_error_firstn_skipn {A} (l : list A) : forall i x,
  nth_error l i = Some x -> firstn 1 (skipn i l) = [x].
Proof.
  induction l as [|a l IH]; intros [|i] x H; simpl in *; try discriminate.
  - injection H as <-. reflexivity.
  - apply IH, H.
Qed.

Lemma at_ip_cons p b bs :
  at_ip p (b :: bs) ->
  Vm.code_at (ip (vm p)) p = Vm.Ok b p
  /\ at_ip (Vm.set_ip (ip (vm p) + 1) p) bs.
Proof.
  intros [Hpos H]. simpl in H.
  destruct (skipn (Z.to_nat (ip (vm p))) (code (chunk (vm p)))) as [|x tl] eqn:E;
    [discriminate|].
  injection H as -> H.
  apply skipn_cons_nth in E. destruct E as [N Sk].
  split.
  - unfold Vm.code_at. rewrite N.
    assert (L : ip (vm p) < count (chunk (vm p))).
    { unfold count.
      assert (Z.to_nat (ip (vm p)) < List.length (code (chunk (vm p))))%nat
        by (apply nth_error_Some; congruence). lia. }
    apply Z.ltb_lt in L. apply Z.leb_le in Hpos. rewrite L, Hpos. reflexivity.
  - split; simpl; [lia|].
    replace (Z.to_nat (ip (vm p) + 1)) with (S (Z.to_nat (ip (vm p)))) by lia.
    rewrite Sk. exact H.
Qed.

Lemma READ_BYTE_at p b bs :
  at_ip p (b :: bs) ->
  Vm.READ_BYTE p = Vm.Ok b (Vm.set_ip (ip (vm p) + 1) p)
  /\ at_ip (Vm.set_ip (ip (vm p) + 1) p) bs.
Proof.
  intros H. apply at_ip_cons in H. destruct H as [C A]. split; [|exact A].
  unfold Vm.READ_BYTE, Vm.bind. rewrite C. reflexivity.
Qed.

Lemma code_at_set_ip i j p b :
  Vm.code_at i (Vm.set_ip j p) = Vm.Ok b (Vm.set_ip j p) ->
  Vm.code_at i p = Vm.Ok b p.
Proof.
  unfold Vm.code_at. cbn [Vm.set_ip set_vm vm chunk].
  destruct ((0 <=? i) && (i <? count (chunk (vm p)))); [|discriminate].
  destruct (nth_error _ _); [|discriminate].
  intros [= ->]. reflexivity.
Qed.

Lemma READ_SHORT_at p hi lo bs :
  at_ip p (hi :: lo :: bs) ->
  Vm.READ_SHORT p = Vm.Ok (short hi lo) (Vm.set_ip (ip (vm p) + 2) p)
  /\ at_ip (Vm.set_ip (ip (vm p) + 2) p) bs.
Proof.
  intros H. destruct (at_ip_cons _ _ _ H) as [C1 A1].
  destruct (at_ip_cons _ _ _ A1) as [C2 A2].
  apply code_at_set_ip in C2. cbn [Vm.set_ip set_vm vm ip] in C2.
  unfold Vm.READ_SHORT, Vm.bind. rewrite C1, C2. split; [reflexivity|].
  destruct A2 as [P F]. split; cbn [Vm.set_ip set_vm vm ip chunk] in *; [lia|].
  replace (ip (vm p) + 2) with (ip (vm p) + 1 + 1) by lia. exact F.
Qed.

(** Reads the next byte of an [at_ip] hypothesis in a goal about [step]. *)
Ltac fetch H :=
  let R := fresh "R" in
  destruct (READ_BYTE_at _ _ _ H) as [R ?]; clear H;
  unfold Vm.bind at 1; rewrite R; clear R.

Lemma byte_bits n : 0 <= n -> Z.testbit 255 n = (n <? 8).
Proof.
  intros H. change 255 with (Z.ones 8).
  destruct (Z.ltb_spec n 8).
  - apply Z.ones_spec_low. lia.
  - apply Z.ones_spec_high. lia.
Qed.

(** The two operand bytes of a jump carry the offset modulo 2^16. *)
Lemma short_hi_lo x : short (hi_byte x) (lo_byte x) = x mod 65536.
Proof.
  unfold short, hi_byte, lo_byte.
  change 65536 with (2 ^ 16).
  apply Z.bits_inj'. intros n Hn.
  destruct (Z.ltb_spec n 16).
  - rewrite !Z.mod_pow2_bits_low by lia.
    rewrite Z.lor_spec, Z.shiftl_spec, !Z.land_spec by lia.
    destruct (Z.ltb_spec n 8).
    + rewrite (Z.testbit_neg_r _ (n - 8)) by lia.
      rewrite (byte_bits n) by lia.
      destruct (Z.ltb_spec n 8); [|lia]. rewrite andb_true_r. reflexivity.
    + rewrite Z.shiftr_spec by lia.
      rewrite (byte_bits n), (byte_bits (n - 8)) by lia.
      destruct (Z.ltb_spec n 8); [lia|].
      destruct (Z.ltb_spec (n - 8) 8); [|lia].
      rewrite andb_true_r, andb_false_r, orb_false_r.
      f_equal. lia.
  - rewrite !Z.mod_pow2_bits_high by lia. reflexivity.
Qed.

Lemma getConstantName_at p k name :
  constant p k = Some (OBJ_VAL name) ->
  Vm.getConstantName k p = Vm.Ok (Some name) p.
Proof.
  unfold constant, Vm.getConstantName, Vm.bind, Vm.constant_at.
  intros ->. reflexivity.
Qed.

Lemma push_pushable v p :
  pushable (vm p) ->
  exists p', Vm.push v p = Vm.Ok tt p'
    /\ stack (vm p') = v :: stack (vm p)
    /\ stackBlock (vm p') = BLOCK_LIVE
    /\ ip (vm p') = ip (vm p) /\ chunk (vm p') = chunk (vm p)
    /\ globals p' = globals p /\ stdout p' = stdout p /\ stderr p' = stderr p.
Proof.
  intros [L | [N C]]; unfold Vm.push, Vm.bind, Vm.stack_access.
  - destruct (stackCapacity (vm p) <? stackTop (vm p) + 1); rewrite L; simpl;
      eexists; repeat split; exact L.
  - apply Z.ltb_lt in C. rewrite C, N. simpl. eexists; repeat split.
Qed.

Lemma pop_live v rest p :
  stack (vm p) = v :: rest -> stackBlock (vm p) = BLOCK_LIVE ->
  Vm.pop p = Vm.Ok v (Vm.set_stack rest p).
Proof.
  intros S L. unfold Vm.pop, Vm.bind, Vm.stack_access.
  rewrite S. simpl. rewrite L. reflexivity.
Qed.

Lemma peek0_live v rest p :
  stack (vm p) = v :: rest -> stackBlock (vm p) = BLOCK_LIVE ->
  Vm.peek 0 p = Vm.Ok v p.
Proof.
  intros S L. unfold Vm.peek, Vm.bind, Vm.stack_access.
  rewrite S. simpl. rewrite L. reflexivity.
Qed.

Lemma peek1_live v w rest p :
  stack (vm p) = v :: w :: rest -> stackBlock (vm p) = BLOCK_LIVE ->
  Vm.peek 1 p = Vm.Ok w p.
Proof.
  intros S L. unfold Vm.peek, Vm.bind, Vm.stack_access.
  rewrite S. simpl. rewrite L. reflexivity.
Qed.

Lemma overwrite_getGlobal gs name value :
  Vm.overwrite gs name value = None <-> Vm.getGlobal gs name = None.
Proof.
  induction gs as [|[n v] gs IH]; simpl; [tauto|].
  destruct (Vm.stringsEqual n name); [split; discriminate|].
  destruct (Vm.overwrite gs name value); split; intros H;
    try discriminate; try tauto.
  apply IH in H. discriminate.
Qed.



(** A full table ignores a name it does not hold. *)
Lemma setGlobal_full gs name value :
  Vm.getGlobal gs name = None -> MAX_GLOBALS <= Vm.globalCount gs ->
  Vm.setGlobal gs name value = gs.
Proof.
  intros H F. unfold Vm.setGlobal.
  apply (overwrite_getGlobal gs name value) in H. rewrite H.
  destruct (Z.ltb_spec (Vm.globalCount gs) MAX_GLOBALS); [lia | reflexivity].
Qed.

(* ================================================================== *)
(** * Names are compared by their characters *)
(* ================================================================== *)

Lemma take_all s : take (strlen s) s = s.
Proof.
  unfold take, strlen. rewrite Nat2Z.id.
  induction s as [|c s IH]; simpl; [reflexivity | now rewrite IH].
Qed.

Lemma ObjString_eqb_eq a b : ObjString_eqb a b = true -> a = b.
Proof.
  unfold ObjString_eqb. destruct a, b; simpl.
  rewrite !andb_true_iff. intros [[A L] C].
  apply Nat.eqb_eq in A. apply Z.eqb_eq in L. apply String.eqb_eq in C.
  congruence.
Qed.

Lemma stringsEqual_well_formed n x :
  well_formedb n = true -> well_formedb x = true ->
  Vm.stringsEqual (Some n) (Some x)
  = ptr_eqb n x || String.eqb (os_chars n) (os_chars x).
Proof.
  unfold well_formedb. intros Wn Wx. apply Z.eqb_eq in Wn, Wx.
  unfold Vm.stringsEqual. f_equal.
  rewrite Wn at 2 3. rewrite take_all.
  destruct (Z.eqb_spec (os_length n) (os_length x)) as [E|E]; simpl.
  - rewrite <- Wn, E, Wx, take_all. reflexivity.
  - symmetry. apply String.eqb_neq. intros C. apply E.
    rewrite Wn, Wx, C. reflexivity.
Qed.

Lemma coherent_agree gs x y :
  coherent gs x = true -> coherent gs y = true ->
  os_chars x = os_chars y ->
  forall e, In e gs ->
    Vm.stringsEqual (fst e) (Some x) = Vm.stringsEqual (fst e) (Some y).
Proof.
  unfold coherent. rewrite !andb_true_iff, !forallb_forall.
  intros [Wx Fx] [Wy Fy] C [[n|] v] I; [|reflexivity].
  specialize (Fx _ I). specialize (Fy _ I). cbn [fst] in *.
  apply andb_true_iff in Fx, Fy. destruct Fx as [Wn Fx], Fy as [_ Fy].
  rewrite !stringsEqual_well_formed by assumption.
  rewrite <- C.
  destruct (ptr_eqb n x) eqn:Px, (ptr_eqb n y) eqn:Py; simpl in *;
    try reflexivity.
  - apply ObjString_eqb_eq in Fx. subst n.
    rewrite String.eqb_refl. reflexivity.
  - apply ObjString_eqb_eq in Fy. subst n.
    rewrite C, String.eqb_refl. reflexivity.
Qed.

Lemma getGlobal_agree gs a b :
  (forall e, In e gs ->
     Vm.stringsEqual (fst e) a = Vm.stringsEqual (fst e) b) ->
  Vm.getGlobal gs a = Vm.getGlobal gs b.
Proof.
  induction gs as [|[n v] gs IH]; intros H; simpl; [reflexivity|].
  pose proof (H (n, v) (or_introl eq_refl)) as E. simpl in E. rewrite <- E.
  destruct (Vm.stringsEqual n a); [reflexivity|].
  apply IH. intros e I. apply H. right. exact I.
Qed.



Lemma getGlobal_spelling gs x y :
  coherent gs x = true -> coherent gs y = true -> os_chars x = os_chars y ->
  Vm.getGlobal gs (Some x) = Vm.getGlobal gs (Some y).
Proof.
  intros Cx Cy C. apply getGlobal_agree. apply coherent_agree; assumption.
Qed.


(* ================================================================== *)
(** * Single instructions *)
(* ================================================================== *)

Lemma get_global_absent_step p k name :
  at_ip p [op OP_GET_GLOBAL; k] -> constant p k = Some (OBJ_VAL name) ->
  Vm.getGlobal (globals p) (Some name) = None ->
  exists p', Vm.step p = Vm.Stop (Returned INTERPRET_RUNTIME_ERROR) p'
    /\ stderr p' = stderr p ++ diagnostic (Vm.undefined_variable name)
    /\ stdout p' = stdout p /\ globals p' = globals p.
Proof.
  intros A C G.
  unfold Vm.step; fetch A; rewrite decode_op; cbv iota; fetch H;
    unfold Vm.bind at 1; rewrite (getConstantName_at _ k name) by exact C;
    cbn [globals Vm.set_ip set_vm]; rewrite G.
  eexists. split; [reflexivity|]. simpl. repeat split.
Qed.



Lemma define_global_step p k name v rest :
  at_ip p [op OP_DEFINE_GLOBAL; k] -> constant p k = Some (OBJ_VAL name) ->
  stack (vm p) = v :: rest -> stackBlock (vm p) = BLOCK_LIVE ->
  exists p', Vm.step p = Vm.Ok tt p'
    /\ stack (vm p') = rest
    /\ globals p' = Vm.setGlobal (globals p) (Some name) v
    /\ ip (vm p') = ip (vm p) + 2
    /\ stdout p' = stdout p /\ stderr p' = stderr p.
Proof.
  intros A C S L.
  unfold Vm.step; fetch A; rewrite decode_op; cbv iota; fetch H;
    unfold Vm.bind at 1; rewrite (getConstantName_at _ k name) by exact C.
  unfold Vm.bind at 1.
  match goal with |- context [Vm.peek 0 ?q] =>
    rewrite (peek0_live v rest q) by assumption end.
  unfold Vm.bind at 1. unfold Vm.bind at 1.
  match goal with |- context [Vm.pop ?q] =>
    rewrite (pop_live v rest q) by assumption end.
  eexists. split; [reflexivity|]. simpl. repeat split. lia.
Qed.

Lemma divide_zero_step p d z a rest :
  at_ip p [op OP_DIVIDE] -> stackBlock (vm p) = BLOCK_LIVE ->
  stack (vm p) = d :: a :: rest ->
  AS_NUMBER d = Some z -> PrimFloat.eqb z 0%float = true ->
  exists p', Vm.step p = Vm.Stop (Returned INTERPRET_RUNTIME_ERROR) p'
    /\ stderr p' = stderr p ++ diagnostic "Division by zero."
    /\ stdout p' = stdout p.
Proof.
  intros A L S N Z.
  unfold Vm.step; fetch A; rewrite decode_op; cbv iota.
  unfold Vm.bind at 1.
  match goal with |- context [Vm.peek 0 ?q] =>
    rewrite (peek0_live d (a :: rest) q) by assumption end.
  unfold Vm.bind at 1, Vm.as_number. rewrite N. cbn [Vm.ret]. rewrite Z.
  eexists. split; [reflexivity|]. simpl. repeat split.
Qed.

Lemma divide_mismatch_step p b a rest :
  at_ip p [op OP_DIVIDE] -> stackBlock (vm p) = BLOCK_LIVE ->
  stack (vm p) = NUMBER_VAL b :: a :: rest ->
  PrimFloat.eqb b 0%float = false -> IS_NUMBER a = false ->
  exists p', Vm.step p = Vm.Stop (Returned INTERPRET_RUNTIME_ERROR) p'
    /\ stderr p' = stderr p ++ diagnostic "Operands must be numbers."
    /\ stdout p' = stdout p.
Proof.
  intros A L S Z N.
  unfold Vm.step; fetch A; rewrite decode_op; cbv iota.
  unfold Vm.bind at 1.
  match goal with |- context [Vm.peek 0 ?q] =>
    rewrite (peek0_live (NUMBER_VAL b) (a :: rest) q) by assumption end.
  unfold Vm.bind at 1, Vm.as_number. cbn [AS_NUMBER Vm.ret]. rewrite Z.
  unfold Vm.BINARY_OP, Vm.IS_NUMBER_peek.
  unfold Vm.bind at 1. unfold Vm.bind at 1.
  match goal with |- context [Vm.peek 0 ?q] =>
    rewrite (peek0_live (NUMBER_VAL b) (a :: rest) q) by assumption end.
  cbn [Vm.ret IS_NUMBER]. unfold Vm.bind at 1. unfold Vm.bind at 1.
  match goal with |- context [Vm.peek 1 ?q] =>
    rewrite (peek1_live (NUMBER_VAL b) a rest q) by assumption end.
  cbn [Vm.ret]. rewrite N. cbn [negb].
  eexists. split; [reflexivity|]. simpl. repeat split.
Qed.

Lemma divide_numbers_step p b a rest :
  at_ip p [op OP_DIVIDE] -> stackBlock (vm p) = BLOCK_LIVE ->
  stack (vm p) = NUMBER_VAL b :: NUMBER_VAL a :: rest ->
  PrimFloat.eqb b 0%float = false ->
  exists p', Vm.step p = Vm.Ok tt p'
    /\ stack (vm p') = NUMBER_VAL (PrimFloat.div a b) :: rest
    /\ ip (vm p') = ip (vm p) + 1
    /\ stdout p' = stdout p /\ stderr p' = stderr p.
Proof.
  intros A L S Z.
  unfold Vm.step; fetch A; rewrite decode_op; cbv iota.
  unfold Vm.bind at 1.
  match goal with |- context [Vm.peek 0 ?q] =>
    rewrite (peek0_live (NUMBER_VAL b) (NUMBER_VAL a :: rest) q)
      by assumption end.
  unfold Vm.bind at 1, Vm.as_number. cbn [AS_NUMBER Vm.ret]. rewrite Z.
  unfold Vm.BINARY_OP, Vm.IS_NUMBER_peek.
  unfold Vm.bind at 1. unfold Vm.bind at 1.
  match goal with |- context [Vm.peek 0 ?q] =>
    rewrite (peek0_live (NUMBER_VAL b) (NUMBER_VAL a :: rest) q)
      by assumption end.
  cbn [Vm.ret IS_NUMBER]. unfold Vm.bind at 1. unfold Vm.bind at 1.
  match goal with |- context [Vm.peek 1 ?q] =>
    rewrite (peek1_live (NUMBER_VAL b) (NUMBER_VAL a) rest q)
      by assumption end.
  cbn [Vm.ret IS_NUMBER negb].
  unfold Vm.bind at 1.
  match goal with |- context [Vm.pop ?q] =>
    rewrite (pop_live (NUMBER_VAL b) (NUMBER_VAL a :: rest) q)
      by assumption end.
  unfold Vm.bind at 1. cbn [Vm.as_number AS_NUMBER Vm.ret].
  unfold Vm.bind at 1.
  match goal with |- context [Vm.pop ?q] =>
    rewrite (pop_live (NUMBER_VAL a) rest q)
      by (try assumption; reflexivity) end.
  unfold Vm.bind at 1. cbn [Vm.as_number AS_NUMBER Vm.ret].
  match goal with |- context [Vm.push ?v ?q] =>
    destruct (push_pushable v q) as (p' & E & S' & _ & I & _ & G' & O & Er);
    [left; exact L|] end.
  exists p'. rewrite E, S', I, O, Er. simpl. repeat split.
Qed.

Lemma loop_step p loopStart :
  0 <= loopStart <= ip (vm p) ->
  at_ip p [op OP_LOOP; hi_byte (loopStart - ip (vm p) - 2);
           lo_byte (loopStart - ip (vm p) - 2)] ->
  exists p', Vm.step p = Vm.Ok tt p'
    /\ ip (vm p') = ip (vm p) + 3 - (loopStart - ip (vm p) - 2) mod 65536
    /\ ip (vm p') <> loopStart.
Proof.
  intros R A. unfold Vm.step. fetch A. rewrite decode_op. cbv iota.
  destruct (READ_SHORT_at _ _ _ _ H) as [S _]. unfold Vm.bind at 1. rewrite S.
  rewrite short_hi_lo. eexists. split; [reflexivity|].
  cbn [Vm.jump Vm.set_ip set_vm vm ip].
  split; [lia|].
  pose proof (Z.div_mod (loopStart - ip (vm p) - 2) 65536). lia.
Qed.

Lemma jump_if_false_step p hi lo v rest :
  at_ip p [op OP_JUMP_IF_FALSE; hi; lo] ->
  stack (vm p) = v :: rest -> stackBlock (vm p) = BLOCK_LIVE ->
  exists p', Vm.step p = Vm.Ok tt p'
    /\ chunk (vm p') = chunk (vm p) /\ stackBlock (vm p') = BLOCK_LIVE
    /\ stdout p' = stdout p /\ stderr p' = stderr p
    /\ if Vm.isTruthy v
       then stack (vm p') = v :: rest /\ ip (vm p') = ip (vm p) + 3
       else stack (vm p') = rest /\ ip (vm p') = ip (vm p) + 3 + short hi lo.
Proof.
  intros A S L. unfold Vm.step. fetch A. rewrite decode_op. cbv iota.
  destruct (READ_SHORT_at _ _ _ _ H) as [R _]. unfold Vm.bind at 1. rewrite R.
  unfold Vm.bind at 1.
  match goal with |- context [Vm.peek 0 ?q] =>
    rewrite (peek0_live v rest q) by assumption end.
  destruct (Vm.isTruthy v); cbn [negb].
  - eexists. split; [reflexivity|]. simpl. repeat split; try assumption. lia.
  - unfold Vm.bind at 1.
    match goal with |- context [Vm.pop ?q] =>
      rewrite (pop_live v rest q) by assumption end.
    eexists. split; [reflexivity|]. simpl. repeat split; try assumption. lia.
Qed.

Lemma pop_empty_step p :
  at_ip p [op OP_POP] -> stack (vm p) = [] ->
  exists p', Vm.step p = Vm.Stop (Faulted STACK_UNDERFLOW) p'
             /\ stdout p' = stdout p /\ stderr p' = stderr p.
Proof.
  intros A S. unfold Vm.step. fetch A. rewrite decode_op. cbv iota.
  unfold Vm.bind at 1, Vm.pop. cbn [Vm.set_ip set_vm vm stack]. rewrite S.
  eexists. split; [reflexivity|]. split; reflexivity.
Qed.

(* ================================================================== *)
(** * The parser at a binary operator, and constants *)
(* ================================================================== *)

Lemma match_same p ty :
  type (current (parser p)) = ty ->
  Compiler.match_ ty p
  = Compiler.bind Compiler.advance (fun _ => Compiler.ret true) p.
Proof.
  intros H. unfold Compiler.match_. unfold Compiler.bind at 1.
  rewrite check_type, H.
  replace (tt_eqb ty ty) with true; [reflexivity|].
  unfold tt_eqb. destruct (TokenType_eq_dec ty ty); congruence.
Qed.

Lemma match_binary_found p ty ops :
  In (ty, ops) Compiler.binary_ops -> type (current (parser p)) = ty ->
  Compiler.match_binary Compiler.binary_ops p
  = Compiler.bind Compiler.advance (fun _ => Compiler.ret (Some ops)) p.
Proof.
  intros I H. unfold Compiler.binary_ops in *. simpl in I.
  repeat (destruct I as [I | I];
    [ injection I as <- <-; cbn [Compiler.match_binary];
      repeat (unfold Compiler.bind at 1;
              first [ rewrite match_other by (rewrite H; reflexivity)
                    | rewrite (match_same p _ H) ]);
      unfold Compiler.bind;
      destruct (Compiler.advance p) as [[[] q]|]; reflexivity
    | ]).
  contradiction.
Qed.

Lemma expression_loop_binary fuel p ty ops :
  In (ty, ops) Compiler.binary_ops -> type (current (parser p)) = ty ->
  Compiler.expression_loop (S fuel) p
  = Compiler.bind Compiler.advance (fun _ =>
      Compiler.bind (Compiler.parsePrecedence1 fuel) (fun _ =>
        Compiler.bind (Compiler.emitOps ops) (fun _ =>
          Compiler.expression_loop fuel))) p.
Proof.
  intros I H. cbn [Compiler.expression_loop]. unfold Compiler.bind at 1.
  rewrite (match_binary_found p ty ops I H).
  unfold Compiler.bind.
  destruct (Compiler.advance p) as [[[] q]|]; reflexivity.
Qed.

Lemma emitConstant_operand v ln p :
  exists p', Compiler.emitConstant v ln p = Some (tt, p')
    /\ code (compilingChunk p')
       = (code (compilingChunk p)
          ++ [op OP_CONSTANT;
              va_count (constants (compilingChunk p)) mod 256])%list
    /\ values (constants (compilingChunk p'))
       = (values (constants (compilingChunk p)) ++ [v])%list
    /\ parser p' = parser p /\ stderr p' = stderr p.
Proof.
  eexists. split; [reflexivity|]. simpl. repeat split.
  rewrite <- app_assoc. simpl. unfold va_count, uint8. simpl.
  rewrite length_app. simpl.
  replace (Z.of_nat (List.length (values (constants (compilingChunk p))) + 1)
           - 1)
    with (Z.of_nat (List.length (values (constants (compilingChunk p)))))
    by lia.
  reflexivity.
Qed.

Lemma identifierConstant_operand name p :
  exists p', Compiler.identifierConstant name p
             = Some (va_count (constants (compilingChunk p)) mod 256, p')
    /\ values (constants (compilingChunk p'))
       = (values (constants (compilingChunk p))
          ++ [OBJ_VAL (copyString (next_obj p) (start name) (length name))])%list
    /\ code (compilingChunk p') = code (compilingChunk p)
    /\ parser p' = parser p /\ stderr p' = stderr p.
Proof.
  unfold Compiler.identifierConstant, Compiler.bind, Compiler.addConstant,
    addConstant.
  simpl. unfold Compiler.ret, va_count, uint8. simpl.
  rewrite length_app. simpl.
  replace (Z.of_nat (List.length (values (constants (compilingChunk p))) + 1)
           - 1)
    with (Z.of_nat (List.length (values (constants (compilingChunk p)))))
    by lia.
  eexists. split; [reflexivity|]. simpl. repeat split.
Qed.




(* ================================================================== *)
(** * The claims *)
(* ================================================================== *)

(** C1, on the code: the [OP_LOOP] of a [while] statement does not lead
    back to [loop_start].  The claim has the compiler emit a backward
    offset that returns control to [loop_start], and has scenario 4 print
    0, 1, 2 and return Ok.  The code computes the operand as
    [loopStart - count - 2], a negative number whose low 16 bits the VM
    subtracts from [ip]: whatever the loop, the [ip] after [OP_LOOP]
    differs from [loop_start] (first part).  Scenario 4 compiles to
    [while_code], whose [OP_LOOP] carries 0xFFEA; its run prints the one
    line 0 and then fetches at offset -65487, outside the code. *)
Theorem while_loop_misses_loop_start :
  (forall p loopStart,
     0 <= loopStart <= ip (vm p) ->
     at_ip p [op OP_LOOP; hi_byte (loopStart - ip (vm p) - 2);
              lo_byte (loopStart - ip (vm p) - 2)] ->
     exists p', Vm.step p = Vm.Ok tt p'
       /\ ip (vm p') = ip (vm p) + 3 - (loopStart - ip (vm p) - 2) mod 65536
       /\ ip (vm p') <> loopStart)
  /\ (exists p, compiles while_source initChunk started true p
                /\ code (compilingChunk p) = while_code)
  /\ (exists p, interprets while_source started (Faulted CODE_OUT_OF_BOUNDS) p
                /\ stdout p = text ["0"] /\ stderr p = ""
                /\ ip (vm p) = -65487).
Proof.
  split; [exact loop_step|]. split.
  - eexists. split; [exists 50%nat; vm_compute; reflexivity|].
    vm_compute. reflexivity.
  - eexists. split; [exists 50%nat; vm_compute; reflexivity|].
    repeat split; vm_compute; reflexivity.
Qed.

(** The [OP_LOOP] of scenario 4, at offset 24 with [loop_start] 4. *)
Lemma while_loop_misses_loop_start_witness :
  exists p', Vm.step (machine 24 while_code [] [] []) = Vm.Ok tt p'
    /\ ip (vm p') = 24 + 3 - (4 - 24 - 2) mod 65536
    /\ ip (vm p') <> 4.
Proof.
  apply (proj1 while_loop_misses_loop_start (machine 24 while_code [] [] []) 4).
  - simpl. lia.
  - split; [simpl; lia | vm_compute; reflexivity].
Defined.

(** C2, on the code: on the falsy branch the condition is popped twice.
    The claim has the operand stack never popped when empty and empty at
    [OP_RETURN].  In the code [OP_JUMP_IF_FALSE] pops a falsy condition
    and jumps, and the compiler has patched that jump to the [OP_POP] it
    emits for the falsy path: with only the condition on the stack the
    second pop reads below the stack (first part).  [if (false) print 1;]
    and [while (false) print 1;] raise no runtime error and end in that
    underflow. *)
Theorem falsy_jump_pops_twice :
  (forall p hi lo v,
     at_ip p [op OP_JUMP_IF_FALSE; hi; lo] ->
     stack (vm p) = [v] -> stackBlock (vm p) = BLOCK_LIVE ->
     Vm.isTruthy v = false ->
     nth_error (code (chunk (vm p))) (Z.to_nat (ip (vm p) + 3 + short hi lo))
     = Some (op OP_POP) ->
     exists p1 p2,
       Vm.step p = Vm.Ok tt p1 /\ stack (vm p1) = []
       /\ ip (vm p1) = ip (vm p) + 3 + short hi lo
       /\ Vm.step p1 = Vm.Stop (Faulted STACK_UNDERFLOW) p2
       /\ stderr p2 = stderr p)
  /\ (exists p, compiles "if (false) print 1;" initChunk started true p
                /\ code (compilingChunk p) = if_false_code)
  /\ (exists p, interprets "if (false) print 1;" started
                           (Faulted STACK_UNDERFLOW) p
                /\ stdout p = "" /\ stderr p = "")
  /\ (exists p, interprets "while (false) print 1;" started
                           (Faulted STACK_UNDERFLOW) p
                /\ stdout p = "" /\ stderr p = "").
Proof.
  split.
  - intros p hi lo v A S L F N.
    pose proof A as [Pos _].
    destruct (jump_if_false_step p hi lo v [] A S L)
      as (p1 & E1 & C1 & L1 & O1 & Er1 & T).
    rewrite F in T. destruct T as [S1 I1].
    assert (A1 : at_ip p1 [op OP_POP]).
    { split.
      - rewrite I1. unfold short.
        pose proof (Z.mod_pos_bound (Z.lor (Z.shiftl hi 8) lo) 65536). lia.
      - rewrite I1, C1. apply nth_error_firstn_skipn, N. }
    destruct (pop_empty_step p1 A1 S1) as (p2 & E2 & _ & Er2).
    exists p1, p2. repeat split; try assumption. congruence.
  - split; [|split].
    + eexists. split; [exists 50%nat; vm_compute; reflexivity|].
      vm_compute. reflexivity.
    + eexists. split; [exists 50%nat; vm_compute; reflexivity|].
      split; reflexivity.
    + eexists. split; [exists 50%nat; vm_compute; reflexivity|].
      split; reflexivity.
Qed.

(** The jump of [if (false) print 1;], at offset 1 with [false] on the
    stack. *)
Lemma falsy_jump_pops_twice_witness :
  exists p1 p2,
    Vm.step (machine 1 if_false_code [NUMBER_VAL 1] [BOOL_VAL false] [])
    = Vm.Ok tt p1
    /\ stack (vm p1) = []
    /\ ip (vm p1) = 1 + 3 + short 0 7
    /\ Vm.step p1 = Vm.Stop (Faulted STACK_UNDERFLOW) p2
    /\ stderr p2 = "".
Proof.
  apply (proj1 falsy_jump_pops_twice
           (machine 1 if_false_code [NUMBER_VAL 1] [BOOL_VAL false] [])
           0 7 (BOOL_VAL false)).
  - split; [simpl; lia | vm_compute; reflexivity].
  - reflexivity.
  - reflexivity.
  - reflexivity.
  - vm_compute. reflexivity.
Defined.

(** C4, on the code: [OP_DIVIDE] tests the divisor for zero before it
    tests the types.  The claim has the numeric check first, and
    "Division by zero." only when both operands are numbers.  The code
    reads the [number] member of the top of the stack whatever its tag:
    a top that is the number 0, or nil (whose [number] member is 0),
    raises "Division by zero." over any left operand (first part).  Past
    that test the claim holds: a non-zero number over a non-number raises
    "Operands must be numbers." (second part) and two numbers leave their
    quotient (third part).  So [print 1 / nil;] and [print nil / 0;]
    report a division by zero. *)
Theorem divide_tests_zero_before_types :
  (forall p d z a rest,
     at_ip p [op OP_DIVIDE] -> stackBlock (vm p) = BLOCK_LIVE ->
     stack (vm p) = d :: a :: rest ->
     AS_NUMBER d = Some z -> PrimFloat.eqb z 0%float = true ->
     exists p', Vm.step p = Vm.Stop (Returned INTERPRET_RUNTIME_ERROR) p'
       /\ stderr p' = stderr p ++ diagnostic "Division by zero."
       /\ stdout p' = stdout p)
  /\ (forall p b a rest,
        at_ip p [op OP_DIVIDE] -> stackBlock (vm p) = BLOCK_LIVE ->
        stack (vm p) = NUMBER_VAL b :: a :: rest ->
        PrimFloat.eqb b 0%float = false -> IS_NUMBER a = false ->
        exists p', Vm.step p = Vm.Stop (Returned INTERPRET_RUNTIME_ERROR) p'
          /\ stderr p' = stderr p ++ diagnostic "Operands must be numbers."
          /\ stdout p' = stdout p)
  /\ (forall p b a rest,
        at_ip p [op OP_DIVIDE] -> stackBlock (vm p) = BLOCK_LIVE ->
        stack (vm p) = NUMBER_VAL b :: NUMBER_VAL a :: rest ->
        PrimFloat.eqb b 0%float = false ->
        exists p', Vm.step p = Vm.Ok tt p'
          /\ stack (vm p') = NUMBER_VAL (PrimFloat.div a b) :: rest
          /\ ip (vm p') = ip (vm p) + 1
          /\ stdout p' = stdout p /\ stderr p' = stderr p)
  /\ (exists p, interprets "print 1 / nil;" started
                           (Returned INTERPRET_RUNTIME_ERROR) p
                /\ stderr p = diagnostic "Division by zero." /\ stdout p = "")
  /\ (exists p, interprets "print nil / 0;" started
                           (Returned INTERPRET_RUNTIME_ERROR) p
                /\ stderr p = diagnostic "Division by zero." /\ stdout p = "").
Proof.
  split; [exact divide_zero_step|].
  split; [exact divide_mismatch_step|].
  split; [exact divide_numbers_step|].
  split; eexists; (split; [exists 50%nat; vm_compute; reflexivity|]);
    split; reflexivity.
Qed.

(** [true / nil], [nil / 2] and [7 / 2] on the stack of [OP_DIVIDE]. *)
Lemma divide_tests_zero_before_types_witness :
  (exists p',
     Vm.step (machine 0 [op OP_DIVIDE] [] [NIL_VAL; BOOL_VAL true] [])
     = Vm.Stop (Returned INTERPRET_RUNTIME_ERROR) p'
     /\ stderr p' = "" ++ diagnostic "Division by zero."
     /\ stdout p' = "")
  /\ (exists p',
        Vm.step (machine 0 [op OP_DIVIDE] [] [NUMBER_VAL 2; NIL_VAL] [])
        = Vm.Stop (Returned INTERPRET_RUNTIME_ERROR) p'
        /\ stderr p' = "" ++ diagnostic "Operands must be numbers."
        /\ stdout p' = "")
  /\ (exists p',
        Vm.step (machine 0 [op OP_DIVIDE] [] [NUMBER_VAL 2; NUMBER_VAL 7] [])
        = Vm.Ok tt p'
        /\ stack (vm p') = [NUMBER_VAL (PrimFloat.div 7 2)]
        /\ ip (vm p') = 0 + 1
        /\ stdout p' = "" /\ stderr p' = "").
Proof.
  split; [|split].
  - apply (proj1 divide_tests_zero_before_types
             (machine 0 [op OP_DIVIDE] [] [NIL_VAL; BOOL_VAL true] [])
             NIL_VAL 0%float (BOOL_VAL true) []);
      try reflexivity.
    split; [simpl; lia | reflexivity].
  - apply (proj1 (proj2 divide_tests_zero_before_types)
             (machine 0 [op OP_DIVIDE] [] [NUMBER_VAL 2; NIL_VAL] [])
             2%float NIL_VAL []);
      try reflexivity.
    split; [simpl; lia | reflexivity].
  - apply (proj1 (proj2 (proj2 divide_tests_zero_before_types))
             (machine 0 [op OP_DIVIDE] [] [NUMBER_VAL 2; NUMBER_VAL 7] [])
             2%float 7%float []);
      try reflexivity.
    split; [simpl; lia | reflexivity].
Defined.

(** C5: binary operators are parsed at one level, left to right.  In
    front of any of the ten operators the loop of [expression] consumes
    it, parses one [parsePrecedence1] operand, emits the operator, and
    loops: the operand never extends over a later operator, whichever the
    two operators are (first part).  For every pair of operators
    [print 1 o1 2 o2 3;] compiles to the code of [(1 o1 2) o2 3] (second
    part), and [print 1 + 2 * 3;] returns Ok and prints 9. *)
Theorem binary_operators_one_level :
  (forall fuel p ty ops,
     In (ty, ops) Compiler.binary_ops -> type (current (parser p)) = ty ->
     Compiler.expression_loop (S fuel) p
     = Compiler.bind Compiler.advance (fun _ =>
         Compiler.bind (Compiler.parsePrecedence1 fuel) (fun _ =>
           Compiler.bind (Compiler.emitOps ops) (fun _ =>
             Compiler.expression_loop fuel))) p)
  /\ forallb (fun e1 => forallb (flat_pair e1) binary_spelling)
             binary_spelling = true
  /\ (exists p, compiles "print 1 + 2 * 3;" initChunk started true p
                /\ code (compilingChunk p) = flat_code [OP_ADD] [OP_MULTIPLY]
                /\ values (constants (compilingChunk p))
                   = [NUMBER_VAL 1; NUMBER_VAL 2; NUMBER_VAL 3])
  /\ (exists p, interprets "print 1 + 2 * 3;" started (Returned INTERPRET_OK) p
                /\ stdout p = text ["9"] /\ stderr p = "").
Proof.
  split; [exact expression_loop_binary|].
  split; [vm_compute; reflexivity|].
  split.
  - eexists. split; [exists 50%nat; vm_compute; reflexivity|].
    split; vm_compute; reflexivity.
  - eexists. split; [exists 50%nat; vm_compute; reflexivity|].
    split; vm_compute; reflexivity.
Qed.

(** The loop of [expression] in front of [* 3;]. *)
Lemma binary_operators_one_level_witness :
  Compiler.expression_loop 5 (parsing "* 3;")
  = Compiler.bind Compiler.advance (fun _ =>
      Compiler.bind (Compiler.parsePrecedence1 4) (fun _ =>
        Compiler.bind (Compiler.emitOps [OP_MULTIPLY]) (fun _ =>
          Compiler.expression_loop 4))) (parsing "* 3;").
Proof.
  apply (proj1 binary_operators_one_level 4%nat (parsing "* 3;")
           TOKEN_STAR [OP_MULTIPLY]).
  - simpl. tauto.
  - reflexivity.
Defined.






(** C8: the operand of a constant is its pool index modulo 256, and no
    error is raised when the pool grows past 256.  Whatever the chunk,
    [emitConstant] appends the value to the pool and emits [OP_CONSTANT]
    with the index of the value reduced modulo 256, and
    [identifierConstant] returns the index of the name reduced modulo
    256; neither touches the error flags or reports anything (first and
    second part).  A source of 256 [print 7;] compiles without error to
    the operands 0 to 255; with 257 it still compiles without error, to
    257 constants, and the operand of the last one is 0. *)
Theorem constant_operand_truncated :
  (forall v ln p,
     exists p', Compiler.emitConstant v ln p = Some (tt, p')
       /\ code (compilingChunk p')
          = (code (compilingChunk p)
             ++ [op OP_CONSTANT;
                 va_count (constants (compilingChunk p)) mod 256])%list
       /\ values (constants (compilingChunk p'))
          = (values (constants (compilingChunk p)) ++ [v])%list
       /\ parser p' = parser p /\ stderr p' = stderr p)
  /\ (forall name p,
        exists p', Compiler.identifierConstant name p
                   = Some (va_count (constants (compilingChunk p)) mod 256, p')
          /\ values (constants (compilingChunk p'))
             = (values (constants (compilingChunk p))
                ++ [OBJ_VAL (copyString (next_obj p) (start name)
                                        (length name))])%list
          /\ code (compilingChunk p') = code (compilingChunk p)
          /\ parser p' = parser p /\ stderr p' = stderr p)
  /\ (exists p, compiles (copies 256 "print 7;") initChunk started true p
                /\ va_count (constants (compilingChunk p)) = 256
                /\ code (compilingChunk p) = print_many 256
                /\ nth_error (code (compilingChunk p)) (3 * 255 + 1)
                   = Some 255
                /\ stderr p = "")
  /\ (exists p, compiles (copies 257 "print 7;") initChunk started true p
                /\ va_count (constants (compilingChunk p)) = 257
                /\ code (compilingChunk p) = print_many 257
                /\ nth_error (code (compilingChunk p)) (3 * 256 + 1)
                   = Some 0
                /\ stderr p = "").
Proof.
  split; [exact emitConstant_operand|].
  split; [exact identifierConstant_operand|].
  split; eexists;
    (split; [exists 300%nat; vm_compute; reflexivity|]);
    repeat split; vm_compute; reflexivity.
Qed.

(** C9, on the code: the second of two runs separated by [freeVM()] and
    [initVM()] stores through the released stack.  The claim has both
    runs print the same and return the same.  [freeVM] releases
    [vm.stack] but leaves the pointer and [vm.stackCapacity] as they
    were, and [initVM] resets only [stackTop] and [globalCount]: after
    them the first [push] finds room and writes into the released block
    (first part).  The first run of [var a = 1; print a;] prints 1 and
    returns Ok; the second prints nothing and ends in that store. *)
Theorem second_run_writes_freed_stack :
  (forall p p' v,
     stackBlock (vm p) = BLOCK_LIVE -> 0 < stackCapacity (vm p) ->
     Vm.freeVM p = inr p' ->
     stackBlock (vm (Vm.initVM p')) = BLOCK_FREED
     /\ stackCapacity (vm (Vm.initVM p')) = stackCapacity (vm p)
     /\ Vm.push v (Vm.initVM p')
        = Vm.Stop (Faulted STACK_AFTER_FREE) (Vm.initVM p'))
  /\ (exists p1 p2 p3,
        interprets "var a = 1; print a;" started (Returned INTERPRET_OK) p1
        /\ stdout p1 = text ["1"]
        /\ Vm.freeVM p1 = inr p2
        /\ interprets "var a = 1; print a;" (Vm.initVM p2)
                      (Faulted STACK_AFTER_FREE) p3
        /\ stdout p3 = stdout p1 /\ stderr p3 = "").
Proof.
  split.
  - intros p p' v L C F. unfold Vm.freeVM in F. rewrite L in F.
    injection F as <-. split; [reflexivity|]. split; [reflexivity|].
    unfold Vm.push, Vm.bind. cbn.
    destruct (Z.ltb_spec (stackCapacity (vm p)) 1); [lia|]. reflexivity.
  - eexists. eexists. eexists.
    split; [exists 50%nat; vm_compute; reflexivity|].
    split; [reflexivity|].
    split; [vm_compute; reflexivity|].
    split; [exists 50%nat; vm_compute; reflexivity|].
    split; reflexivity.
Qed.

(** A machine whose stack of capacity 8 holds one value, released and
    initialised again. *)
Lemma second_run_writes_freed_stack_witness :
  stackBlock (vm (Vm.initVM (Vm.set_vm_block BLOCK_FREED
                               (machine 0 [] [] [NIL_VAL] []))))
  = BLOCK_FREED
  /\ stackCapacity (vm (Vm.initVM (Vm.set_vm_block BLOCK_FREED
                                     (machine 0 [] [] [NIL_VAL] []))))
     = stackCapacity (vm (machine 0 [] [] [NIL_VAL] []))
  /\ Vm.push (NUMBER_VAL 1)
             (Vm.initVM (Vm.set_vm_block BLOCK_FREED
                           (machine 0 [] [] [NIL_VAL] [])))
     = Vm.Stop (Faulted STACK_AFTER_FREE)
               (Vm.initVM (Vm.set_vm_block BLOCK_FREED
                             (machine 0 [] [] [NIL_VAL] []))).
Proof.
  apply (proj1 second_run_writes_freed_stack (machine 0 [] [] [NIL_VAL] [])).
  - reflexivity.
  - reflexivity.
  - reflexivity.
Defined.

(** C10: a 257th global is dropped without a word.  With 256 entries in
    the table and the name in none of them, [OP_DEFINE_GLOBAL] pops the
    value and leaves the table and both streams as they were; afterwards
    an [OP_GET_GLOBAL] through any object of the same spelling raises
    "Undefined variable 'N'." (first part).  After a run that defines
    [v0] to [v255], the run of [var w = 1; print w;] compiles, prints
    nothing and ends in the runtime error "Undefined variable 'w'.". *)
Theorem define_global_beyond_capacity :
  (forall p k name v rest,
     at_ip p [op OP_DEFINE_GLOBAL; k] -> constant p k = Some (OBJ_VAL name) ->
     stack (vm p) = v :: rest -> stackBlock (vm p) = BLOCK_LIVE ->
     Vm.globalCount (globals p) = MAX_GLOBALS ->
     Vm.getGlobal (globals p) (Some name) = None ->
     exists p', Vm.step p = Vm.Ok tt p'
       /\ stack (vm p') = rest /\ globals p' = globals p
       /\ stdout p' = stdout p /\ stderr p' = stderr p
       /\ forall q k' name',
            globals q = globals p' ->
            at_ip q [op OP_GET_GLOBAL; k'] ->
            constant q k' = Some (OBJ_VAL name') ->
            coherent (globals p) name = true ->
            coherent (globals p) name' = true ->
            os_chars name' = os_chars name ->
            exists q',
              Vm.step q = Vm.Stop (Returned INTERPRET_RUNTIME_ERROR) q'
              /\ stderr q'
                 = stderr q ++ diagnostic (Vm.undefined_variable name')
              /\ stdout q' = stdout q)
  /\ (exists p1 p2,
        interprets (numbered_vars 256) started (Returned INTERPRET_OK) p1
        /\ Vm.globalCount (globals p1) = MAX_GLOBALS
        /\ stdout p1 = "" /\ stderr p1 = ""
        /\ interprets "var w = 1; print w;" p1
                      (Returned INTERPRET_RUNTIME_ERROR) p2
        /\ globals p2 = globals p1
        /\ stdout p2 = ""
        /\ stderr p2 = diagnostic "Undefined variable 'w'.").
Proof.
  split.
  - intros p k name v rest A C S L F G.
    destruct (define_global_step p k name v rest A C S L)
      as (p' & E & S' & G' & _ & O & Er).
    rewrite setGlobal_full in G' by (try assumption; lia).
    exists p'. repeat split; try assumption.
    intros q k' name' Gq Aq Cq Co Co' Sp.
    destruct (get_global_absent_step q k' name' Aq Cq) as (q' & Eq & Erq & Oq & _).
    + rewrite Gq, G'. rewrite (getGlobal_spelling _ name' name) by assumption.
      exact G.
    + exists q'. repeat split; assumption.
  - eexists. eexists.
    split; [exists 1000%nat; vm_compute; reflexivity|].
    split; [vm_compute; reflexivity|].
    split; [vm_compute; reflexivity|].
    split; [vm_compute; reflexivity|].
    split; [exists 50%nat; vm_compute; reflexivity|].
    split; [vm_compute; reflexivity|].
    split; vm_compute; reflexivity.
Qed.

(** Defining [a] when the table holds [v0] to [v255], and reading it
    through another object of that spelling. *)
Lemma define_global_beyond_capacity_witness :
  exists p' q',
    Vm.step (machine 0 [op OP_DEFINE_GLOBAL; 0] [OBJ_VAL (name_a 300)]
                     [NUMBER_VAL 1] (numbered_globals 256))
    = Vm.Ok tt p'
    /\ stack (vm p') = [] /\ globals p' = numbered_globals 256
    /\ stdout p' = "" /\ stderr p' = ""
    /\ Vm.step (machine 0 [op OP_GET_GLOBAL; 0] [OBJ_VAL (name_a 301)] []
                        (numbered_globals 256))
       = Vm.Stop (Returned INTERPRET_RUNTIME_ERROR) q'
    /\ stderr q' = diagnostic "Undefined variable 'a'."
    /\ stdout q' = "".
Proof.
  destruct (proj1 define_global_beyond_capacity
              (machine 0 [op OP_DEFINE_GLOBAL; 0] [OBJ_VAL (name_a 300)]
                       [NUMBER_VAL 1] (numbered_globals 256))
              0 (name_a 300) (NUMBER_VAL 1) [])
    as (p' & E & S & G & O & Er & Later).
  - split; [simpl; lia | reflexivity].
  - reflexivity.
  - reflexivity.
  - reflexivity.
  - vm_compute. reflexivity.
  - vm_compute. reflexivity.
  - destruct (Later (machine 0 [op OP_GET_GLOBAL; 0] [OBJ_VAL (name_a 301)] []
                             (numbered_globals 256))
                    0 (name_a 301))
      as (q' & Eq & Erq & Oq).
    + rewrite G. reflexivity.
    + split; [simpl; lia | reflexivity].
    + reflexivity.
    + vm_compute. reflexivity.
    + vm_compute. reflexivity.
    + reflexivity.
    + exists p', q'. repeat split; assumption.
Defined.

(* ================================================================== *)
(** * Further properties: the scanner *)
(* ================================================================== *)

Lemma append_assoc (a b c : string) : (a ++ b) ++ c = a ++ (b ++ c).
Proof. induction a as [|x a IH]; simpl; [reflexivity | now rewrite IH]. Qed.

Lemma append_nil_r (a : string) : a ++ "" = a.
Proof. induction a as [|x a IH]; simpl; [reflexivity | now rewrite IH]. Qed.

Lemma strlen_app a b : strlen (a ++ b) = strlen a + strlen b.
Proof.
  unfold strlen. induction a as [|c a IH]; simpl String.length; [lia|].
  rewrite !Nat2Z.inj_succ. simpl in IH. lia.
Qed.

Lemma strlen_cons c s : strlen (String c s) = 1 + strlen s.
Proof. unfold strlen. simpl String.length. lia. Qed.

Lemma strlen_nonneg s : 0 <= strlen s.
Proof. unfold strlen. lia. Qed.

Lemma take_app a b : take (strlen a) (a ++ b) = a.
Proof.
  unfold take, strlen. rewrite Nat2Z.id.
  induction a as [|c a IH]; simpl.
  - destruct b; reflexivity.
  - now rewrite IH.
Qed.

Lemma newlines_app a b : newlines (a ++ b) = newlines a + newlines b.
Proof. induction a as [|c a IH]; simpl; [reflexivity | rewrite IH; lia]. Qed.

Lemma text_app ls ms : text (ls ++ ms) = text ls ++ text ms.
Proof.
  induction ls as [|l ls IH]; simpl; [reflexivity|].
  rewrite IH, !append_assoc. reflexivity.
Qed.

Lemma is_char_eq c k : is_char c k = true -> c = k.
Proof. unfold is_char. apply Ascii.eqb_eq. Qed.

(** ** What the loops of the scanner pass over *)

Lemma skipWhitespace_at_split : forall cur c ln,
  exists pre,
    cur = pre ++ fst (Scanner.skipWhitespace_at c cur ln)
    /\ snd (Scanner.skipWhitespace_at c cur ln) = ln + newlines pre.
Proof.
  induction cur as [|a cur IH]; intros c ln; simpl.
  - exists "". split; [reflexivity | simpl; lia].
  - assert (Stop : exists pre, String a cur = pre ++ String a cur
                               /\ ln = ln + newlines pre)
      by (exists ""; split; [reflexivity | simpl; lia]).
    destruct c.
    + destruct (Ascii.eqb a LF) eqn:E.
      * destruct (IH false (ln + 1)) as [pre [H1 H2]].
        exists (String a pre). simpl. rewrite E, H2. split; [congruence | lia].
      * destruct (Ascii.eqb a NUL); [exact Stop|].
        destruct (IH true ln) as [pre [H1 H2]].
        exists (String a pre). simpl. rewrite E, H2. split; [congruence | lia].
    + destruct (Ascii.eqb a LF) eqn:E.
      * assert (W : Ascii.eqb a " " || Ascii.eqb a CR || Ascii.eqb a TAB = false).
        { apply Ascii.eqb_eq in E. subst a. reflexivity. }
        rewrite W.
        destruct (IH false (ln + 1)) as [pre [H1 H2]].
        exists (String a pre). simpl. rewrite E, H2. split; [congruence | lia].
      * destruct (_ || _).
        { destruct (IH false ln) as [pre [H1 H2]].
          exists (String a pre). simpl. rewrite E, H2. split; [congruence | lia]. }
        destruct (Ascii.eqb a "/"); [|exact Stop].
        destruct (Ascii.eqb _ "/"); [|exact Stop].
        destruct (IH true ln) as [pre [H1 H2]].
        exists (String a pre). simpl. rewrite E, H2. split; [congruence | lia].
Qed.

Lemma skipWhitespace_at_head : forall cur c ln a rest,
  fst (Scanner.skipWhitespace_at c cur ln) = String a rest ->
  Ascii.eqb a LF = false.
Proof.
  induction cur as [|b cur IH]; intros c ln a rest; simpl; [discriminate|].
  destruct c.
  - destruct (Ascii.eqb b LF) eqn:E; [apply IH|].
    destruct (Ascii.eqb b NUL); [simpl; intros [= <- _]; exact E | apply IH].
  - destruct (_ || _); [apply IH|].
    destruct (Ascii.eqb b LF) eqn:E; [apply IH|].
    destruct (Ascii.eqb b "/"); [|simpl; intros [= <- _]; exact E].
    destruct (Ascii.eqb _ "/"); [apply IH | simpl; intros [= <- _]; exact E].
Qed.

Lemma advance_while_split f : forall cur,
  f LF = false ->
  exists pre, cur = pre ++ Scanner.advance_while f cur /\ newlines pre = 0.
Proof.
  intros cur F. induction cur as [|a cur [pre [H1 H2]]]; simpl.
  - exists "". split; reflexivity.
  - destruct (f a) eqn:E.
    + exists (String a pre). simpl. split; [congruence|].
      destruct (Ascii.eqb_spec a LF); [congruence | lia].
    + exists "". split; reflexivity.
Qed.

Lemma string_at_split : forall cur ln,
  exists pre,
    cur = pre ++ fst (Scanner.string_at cur ln)
    /\ snd (Scanner.string_at cur ln) = ln + newlines pre.
Proof.
  induction cur as [|a cur IH]; intros ln; simpl.
  - exists "". split; [reflexivity | simpl; lia].
  - destruct (_ || _).
    + exists "". split; [reflexivity | simpl; lia].
    + destruct (IH (if Ascii.eqb a LF then ln + 1 else ln)) as [pre [H1 H2]].
      exists (String a pre). simpl. rewrite H2. split; [congruence|].
      destruct (Ascii.eqb a LF); lia.
Qed.

Lemma string_at_head : forall cur ln q r,
  fst (Scanner.string_at cur ln) = String q r ->
  Ascii.eqb q DQUOTE || Ascii.eqb q NUL = true.
Proof.
  induction cur as [|a cur IH]; intros ln q r; simpl; [discriminate|].
  destruct (_ || _) eqn:E; [simpl; intros [= <- _]; exact E | apply IH].
Qed.

(** What a token made by [makeToken] shows of the text it spans. *)
Lemma makeToken_spans ty cur0 body cur2 ln :
  cur0 = body ++ cur2 ->
  start (Scanner.makeToken ty (Scanner.mkState cur0 cur2 ln)) = body ++ cur2
  /\ lexeme (Scanner.makeToken ty (Scanner.mkState cur0 cur2 ln)) = body
  /\ length (Scanner.makeToken ty (Scanner.mkState cur0 cur2 ln)) = strlen body
  /\ line (Scanner.makeToken ty (Scanner.mkState cur0 cur2 ln)) = ln
  /\ type (Scanner.makeToken ty (Scanner.mkState cur0 cur2 ln)) = ty.
Proof.
  intros ->. unfold Scanner.makeToken, lexeme.
  cbn [start length line type Scanner.start Scanner.current Scanner.line].
  rewrite strlen_app.
  replace (strlen body + strlen cur2 - strlen cur2) with (strlen body) by lia.
  rewrite take_app. repeat split.
Qed.

Lemma scans_made s skipped body cur2 ln ty :
  Scanner.current s = skipped ++ body ++ cur2 ->
  ln = Scanner.line s + newlines (skipped ++ body) ->
  (ty = TOKEN_EOF <-> body = "") ->
  scans s (Scanner.makeToken ty (Scanner.mkState (body ++ cur2) cur2 ln))
        (Scanner.mkState (body ++ cur2) cur2 ln) skipped body.
Proof.
  intros C L E.
  destruct (makeToken_spans ty (body ++ cur2) body cur2 ln eq_refl)
    as (A1 & A2 & A3 & A4 & A5).
  unfold scans. cbn [Scanner.current Scanner.line].
  rewrite A4, A5. repeat split; try tauto; try lia; apply E.
Qed.

Lemma scans_error s skipped body st cur2 ln msg :
  Scanner.current s = skipped ++ body ++ cur2 ->
  ln = Scanner.line s + newlines (skipped ++ body) ->
  body <> "" ->
  scans s (Scanner.errorToken msg (Scanner.mkState st cur2 ln))
        (Scanner.mkState st cur2 ln) skipped body.
Proof.
  intros C L E. unfold scans, Scanner.errorToken.
  cbn [Scanner.current Scanner.line line type].
  repeat split; try tauto; try lia; try discriminate; congruence.
Qed.

Lemma identifierType_not_eof s : Scanner.identifierType s <> TOKEN_EOF.
Proof.
  unfold Scanner.identifierType, Scanner.checkKeyword.
  repeat match goal with
         | |- context [if ?b then _ else _] => destruct b
         end; discriminate.
Qed.

Lemma scanToken_scans s :
  exists skipped body,
    scans s (fst (Scanner.scanToken s)) (snd (Scanner.scanToken s))
          skipped body.
Proof.
  unfold Scanner.scanToken, Scanner.skipWhitespace.
  destruct (skipWhitespace_at_split (Scanner.current s) false (Scanner.line s))
    as (skipped & B1 & B2).
  pose proof (skipWhitespace_at_head (Scanner.current s) false (Scanner.line s))
    as H.
  destruct (Scanner.skipWhitespace_at false (Scanner.current s) (Scanner.line s))
    as [cur ln]. cbn [fst snd] in B1, B2, H. cbn [Scanner.current Scanner.line].
  exists skipped.
  destruct (Scanner.isAtEnd _) eqn:E.
  { exists "". apply (scans_made s skipped "" cur ln TOKEN_EOF);
      [exact B1| |tauto].
    rewrite newlines_app. simpl. lia. }
  unfold Scanner.advance. cbn [Scanner.current Scanner.start Scanner.line].
  destruct cur as [|c rest]; [discriminate E|].
  change (Ascii.eqb c NUL = false) in E. rewrite E.
  specialize (H c rest eq_refl).
  destruct (Scanner.isAlpha c) eqn:EA.
  { unfold Scanner.identifier.
    cbn [Scanner.current Scanner.start Scanner.line fst snd].
    destruct (advance_while_split
                (fun c => Scanner.isAlpha c || Scanner.isDigit c) rest eq_refl)
      as (pre & P1 & P2).
    remember (Scanner.advance_while _ rest) as cur2 eqn:Q. clear Q. subst rest.
    exists (String c pre).
    apply (scans_made s skipped (String c pre) cur2 ln _).
    - exact B1.
    - rewrite newlines_app. simpl. rewrite H, P2. lia.
    - split; [intros X; destruct (identifierType_not_eof _ X) | discriminate]. }
  destruct (Scanner.isDigit c) eqn:ED.
  { unfold Scanner.number.
    cbn [Scanner.current Scanner.start Scanner.line fst snd].
    destruct (advance_while_split Scanner.isDigit rest eq_refl)
      as (pre & P1 & P2).
    remember (Scanner.advance_while _ rest) as cur1 eqn:Q. clear Q. subst rest.
    destruct (_ && _) eqn:F.
    - apply andb_prop in F. destruct F as [F1 _].
      unfold Scanner.peek in F1. cbn [Scanner.current] in F1.
      destruct cur1 as [|d r]; [discriminate F1|].
      change (Ascii.eqb d "." = true) in F1. apply Ascii.eqb_eq in F1. subst d.
      unfold Scanner.advance.
      cbn [Scanner.current Scanner.start Scanner.line fst snd].
      change (Ascii.eqb "." NUL) with false. cbv iota.
      cbn [Scanner.current Scanner.start Scanner.line fst snd].
      destruct (advance_while_split Scanner.isDigit r eq_refl)
        as (pre2 & P3 & P4).
      remember (Scanner.advance_while _ r) as cur2 eqn:Q. clear Q. subst r.
      exists (String c (pre ++ String "." pre2)).
      assert (X : String c (pre ++ String "." (pre2 ++ cur2))
                  = String c (pre ++ String "." pre2) ++ cur2).
      { simpl. f_equal. rewrite append_assoc. reflexivity. }
      rewrite X in *.
      apply (scans_made s skipped _ cur2 ln _).
      + exact B1.
      + rewrite !newlines_app. simpl. rewrite H, newlines_app. simpl.
        rewrite P2, P4. lia.
      + split; discriminate.
    - exists (String c pre).
      apply (scans_made s skipped (String c pre) cur1 ln _).
      + exact B1.
      + rewrite newlines_app. simpl. rewrite H, P2. lia.
      + split; discriminate. }
  assert (ONE : forall ty, ty <> TOKEN_EOF ->
            scans s (Scanner.makeToken ty (Scanner.mkState (String c rest) rest ln))
                  (Scanner.mkState (String c rest) rest ln)
                  skipped (String c "")).
  { intros ty T. apply (scans_made s skipped (String c "") rest ln ty).
    - exact B1.
    - rewrite newlines_app. simpl. rewrite H. lia.
    - split; [intros X; destruct (T X) | discriminate]. }
  assert (TWO : forall ty1 ty2, ty1 <> TOKEN_EOF -> ty2 <> TOKEN_EOF ->
            exists body,
              scans s
                (let '(b, s1) :=
                   Scanner.match_ "=" (Scanner.mkState (String c rest) rest ln) in
                 fst (Scanner.makeToken (if b then ty1 else ty2) s1, s1))
                (let '(b, s1) :=
                   Scanner.match_ "=" (Scanner.mkState (String c rest) rest ln) in
                 snd (Scanner.makeToken (if b then ty1 else ty2) s1, s1))
                skipped body).
  { intros ty1 ty2 T1 T2. unfold Scanner.match_.
    destruct (Scanner.isAtEnd _) eqn:E1; [eexists; apply ONE; exact T2|].
    destruct (negb _) eqn:E2; [eexists; apply ONE; exact T2|].
    unfold Scanner.peek in E1, E2. unfold Scanner.isAtEnd, Scanner.peek in E1.
    cbn [Scanner.current] in E1, E2.
    destruct rest as [|d r]; [discriminate E1|].
    change (Ascii.eqb d NUL = false) in E1.
    change (negb (Ascii.eqb d "=") = false) in E2.
    apply negb_false_iff, Ascii.eqb_eq in E2. subst d.
    unfold Scanner.advance.
    cbn [Scanner.current Scanner.start Scanner.line fst snd].
    change (Ascii.eqb "=" NUL) with false. cbv iota. cbn [fst snd].
    exists (String c (String "=" "")).
    apply (scans_made s skipped (String c (String "=" "")) r ln ty1).
    - exact B1.
    - rewrite newlines_app. simpl. rewrite H. lia.
    - split; [intros X; destruct (T1 X) | discriminate]. }
  repeat match goal with
         | |- context [if is_char c ?k then _ else _] =>
             destruct (is_char c k) eqn:?
         end.
  all: try (eexists; apply ONE; discriminate).
  all: try (match goal with
            | |- context [Scanner.match_ "=" ?st] =>
                match goal with
                | |- context [if _ then ?t1 else ?t2] =>
                    pose proof (TWO t1 t2 ltac:(discriminate) ltac:(discriminate))
                      as W;
                    destruct (Scanner.match_ "=" st); exact W
                end
            end).
  - unfold Scanner.string_. cbn [Scanner.current Scanner.start Scanner.line].
    destruct (string_at_split rest ln) as (pre & P1 & P2).
    pose proof (string_at_head rest ln) as P3.
    destruct (Scanner.string_at rest ln) as [cur' ln'].
    cbn [fst snd] in P1, P2, P3. subst rest.
    destruct (Scanner.isAtEnd _) eqn:E1; cbn [fst snd].
    + exists (String c pre). apply scans_error.
      * exact B1.
      * rewrite newlines_app. simpl. rewrite H. lia.
      * discriminate.
    + unfold Scanner.isAtEnd, Scanner.peek in E1. cbn [Scanner.current] in E1.
      destruct cur' as [|q r]; [discriminate E1|].
      change (Ascii.eqb q NUL = false) in E1.
      specialize (P3 q r eq_refl). rewrite E1, orb_false_r in P3.
      apply Ascii.eqb_eq in P3. subst q.
      unfold Scanner.advance.
      cbn [Scanner.current Scanner.start Scanner.line fst snd].
      change (Ascii.eqb DQUOTE NUL) with false. cbv iota. cbn [fst snd].
      exists (String c (pre ++ String DQUOTE "")).
      assert (X : String c (pre ++ String DQUOTE r)
                  = String c (pre ++ String DQUOTE "") ++ r).
      { simpl. f_equal. rewrite append_assoc. reflexivity. }
      rewrite X in *.
      apply (scans_made s skipped _ r ln' _).
      * exact B1.
      * rewrite !newlines_app. simpl. rewrite H, newlines_app. simpl.
        change (Ascii.eqb DQUOTE LF) with false. lia.
      * split; discriminate.
  - exists (String c ""). apply scans_error.
    + exact B1.
    + rewrite newlines_app. simpl. rewrite H. lia.
    + discriminate.
Qed.

(** X1: every call of [scanToken] accounts for the text it passes.  What
    was left to scan is the blanks and comments skipped, then the text
    taken for the token, then what is left afterwards; [line] has grown
    by the newlines of all that was passed, and is the line of the token
    (for a string over several lines, the line of its closing quote).  A
    token that is not an error views exactly the text taken: [start]
    points at it and [length] is its length.  The token is the end of
    the source exactly when no text was taken. *)
Theorem scanToken_accounts_for_source :
  forall s, exists skipped body,
    Scanner.current s
    = skipped ++ body ++ Scanner.current (snd (Scanner.scanToken s))
    /\ Scanner.line (snd (Scanner.scanToken s))
       = Scanner.line s + newlines (skipped ++ body)
    /\ line (fst (Scanner.scanToken s))
       = Scanner.line (snd (Scanner.scanToken s))
    /\ (type (fst (Scanner.scanToken s)) <> TOKEN_ERROR ->
        start (fst (Scanner.scanToken s))
        = body ++ Scanner.current (snd (Scanner.scanToken s))
        /\ lexeme (fst (Scanner.scanToken s)) = body
        /\ length (fst (Scanner.scanToken s)) = strlen body)
    /\ (type (fst (Scanner.scanToken s)) = TOKEN_EOF <-> body = "").
Proof.
  intros s. destruct (scanToken_scans s) as (skipped & body & H).
  exists skipped, body. exact H.
Qed.

(** X2: the scanner makes progress.  Every token other than the end of
    the source has consumed at least one character, so that a source is
    scanned to its end in no more calls than it has characters. *)
Theorem scanToken_progress s :
  type (fst (Scanner.scanToken s)) <> TOKEN_EOF ->
  (String.length (Scanner.current (snd (Scanner.scanToken s)))
   < String.length (Scanner.current s))%nat.
Proof.
  destruct (scanToken_scans s) as (skipped & body & C & _ & _ & _ & E).
  intros T. rewrite C.
  assert (L : forall a b, String.length (a ++ b)
                          = (String.length a + String.length b)%nat).
  { intros a b. induction a as [|x a IH]; simpl; [reflexivity | now rewrite IH]. }
  rewrite !L. destruct body as [|x body]; [destruct (T (proj2 E eq_refl))|].
  simpl. lia.
Qed.

(** The first token of [var x;]. *)
Lemma scanToken_progress_witness :
  (String.length
     (Scanner.current (snd (Scanner.scanToken (Scanner.initScanner "var x;"))))
   < String.length (Scanner.current (Scanner.initScanner "var x;")))%nat.
Proof.
  apply (scanToken_progress (Scanner.initScanner "var x;")).
  vm_compute. discriminate.
Defined.

(** X3: a token that is not an error lies within the source.  Its
    length is between 0 and the length of the text at [start], so that
    the [memcpy] of [copyString] on a token reads inside the source
    buffer and yields an object of [length] characters. *)
Theorem token_within_source s a :
  type (fst (Scanner.scanToken s)) <> TOKEN_ERROR ->
  0 <= length (fst (Scanner.scanToken s))
    <= strlen (start (fst (Scanner.scanToken s)))
  /\ well_formedb (copyString a (start (fst (Scanner.scanToken s)))
                              (length (fst (Scanner.scanToken s)))) = true.
Proof.
  destruct (scanToken_scans s) as (skipped & body & _ & _ & _ & V & _).
  intros T. destruct (V T) as (St & _ & Ln).
  rewrite St, Ln, strlen_app. split.
  - pose proof (strlen_nonneg body).
    pose proof (strlen_nonneg (Scanner.current (snd (Scanner.scanToken s)))).
    lia.
  - unfold well_formedb, copyString. cbn [os_length os_chars].
    rewrite take_app. apply Z.eqb_refl.
Qed.

(** The first token of [print 1;]. *)
Lemma token_within_source_witness :
  0 <= length (fst (Scanner.scanToken (Scanner.initScanner "print 1;")))
    <= strlen (start (fst (Scanner.scanToken (Scanner.initScanner "print 1;"))))
  /\ well_formedb
       (copyString 0
          (start (fst (Scanner.scanToken (Scanner.initScanner "print 1;"))))
          (length (fst (Scanner.scanToken (Scanner.initScanner "print 1;")))))
     = true.
Proof.
  apply (token_within_source (Scanner.initScanner "print 1;") 0%nat).
  vm_compute. discriminate.
Defined.

(** ** Reserved words *)

Lemma substring_skip pre : forall n s,
  substring (String.length pre) n (pre ++ s) = substring 0 n s.
Proof.
  induction pre as [|c pre IH]; intros n s; simpl; [reflexivity | apply IH].
Qed.

Lemma eqb_strlen a b : strlen a <> strlen b -> String.eqb a b = false.
Proof.
  intros H. apply String.eqb_neq. intros ->. apply H. reflexivity.
Qed.

(** [checkKeyword] on the word [pre ++ w]: the test of [w] against
    [rest]. *)
Lemma checkKeyword_word pre w cur ln off len rest ty :
  strlen pre = off -> strlen rest = len ->
  Scanner.checkKeyword (Scanner.mkState (pre ++ w ++ cur) cur ln) off len rest ty
  = if String.eqb w rest then ty else TOKEN_IDENTIFIER.
Proof.
  intros <- <-. unfold Scanner.checkKeyword. cbn [Scanner.start Scanner.current].
  rewrite !strlen_app.
  replace (Z.to_nat (strlen pre)) with (String.length pre)
    by (unfold strlen; lia).
  rewrite substring_skip.
  destruct (Z.eqb_spec (strlen pre + (strlen w + strlen cur) - strlen cur)
                       (strlen pre + strlen rest)) as [E|E].
  - assert (L : strlen rest = strlen w) by lia. rewrite L.
    change (substring 0 (Z.to_nat (strlen w)) (w ++ cur))
      with (take (strlen w) (w ++ cur)).
    rewrite take_app. reflexivity.
  - rewrite (eqb_strlen w rest) by lia. reflexivity.
Qed.

Lemma identifierType_empty cur ln :
  Scanner.identifierType (Scanner.mkState cur cur ln) = TOKEN_IDENTIFIER.
Proof.
  unfold Scanner.identifierType, Scanner.checkKeyword.
  cbn [Scanner.start Scanner.current].
  replace (strlen cur - strlen cur) with 0 by lia.
  repeat match goal with
         | |- context [if is_char ?a ?b then _ else _] => destruct (is_char a b)
         end; reflexivity.
Qed.

(** The case of one letter in a [switch] of [identifierType]. *)
Ltac first_letter c0 k :=
  let E := fresh "E" in
  destruct (is_char c0 k) eqn:E;
  [ apply is_char_eq in E; subst c0
  | unfold is_char in E; rewrite ?E; cbn [andb] ].

(** For a word [body] between [start] and [current], the kind that the
    two-level [switch] of [identifierType] computes is the kind that the
    table gives to [body] as a whole. *)
Lemma identifierType_word body cur ln :
  Scanner.identifierType (Scanner.mkState (body ++ cur) cur ln)
  = word_kind keywords body.
Proof.
  destruct body as [|c0 b1]; [apply identifierType_empty|].
  unfold Scanner.identifierType.
  cbn [Scanner.start Scanner.current append char_at String.get].
  unfold keywords. cbn [word_kind String.eqb].
  first_letter c0 "a"%char.
  { rewrite (checkKeyword_word "a" b1 cur ln 1 2 "nd" _ eq_refl eq_refl).
    reflexivity. }
  first_letter c0 "c"%char.
  { rewrite (checkKeyword_word "c" b1 cur ln 1 4 "lass" _ eq_refl eq_refl).
    reflexivity. }
  first_letter c0 "e"%char.
  { rewrite (checkKeyword_word "e" b1 cur ln 1 3 "lse" _ eq_refl eq_refl).
    reflexivity. }
  first_letter c0 "f"%char.
  { destruct b1 as [|c1 b2].
    { cbn [append]. rewrite strlen_cons.
      replace (1 + strlen cur - strlen cur) with 1 by lia. reflexivity. }
    cbn [append char_at String.get String.eqb].
    rewrite !strlen_cons, !strlen_app.
    replace (1 <? 1 + (1 + (strlen b2 + strlen cur)) - strlen cur) with true
      by (symmetry; apply Z.ltb_lt; pose proof (strlen_nonneg b2); lia).
    first_letter c1 "a"%char.
    { rewrite (checkKeyword_word "fa" b2 cur ln 2 3 "lse" _
                eq_refl eq_refl).
      reflexivity. }
    first_letter c1 "o"%char.
    { rewrite (checkKeyword_word "fo" b2 cur ln 2 1 "r" _
                eq_refl eq_refl).
      reflexivity. }
    first_letter c1 "u"%char.
    { rewrite (checkKeyword_word "fu" b2 cur ln 2 1 "n" _
                eq_refl eq_refl).
      reflexivity. }
    reflexivity. }
  first_letter c0 "i"%char.
  { rewrite (checkKeyword_word "i" b1 cur ln 1 1 "f" _ eq_refl eq_refl).
    reflexivity. }
  first_letter c0 "n"%char.
  { rewrite (checkKeyword_word "n" b1 cur ln 1 2 "il" _ eq_refl eq_refl).
    reflexivity. }
  first_letter c0 "o"%char.
  { rewrite (checkKeyword_word "o" b1 cur ln 1 1 "r" _ eq_refl eq_refl).
    reflexivity. }
  first_letter c0 "p"%char.
  { rewrite (checkKeyword_word "p" b1 cur ln 1 4 "rint" _ eq_refl eq_refl).
    reflexivity. }
  first_letter c0 "r"%char.
  { rewrite (checkKeyword_word "r" b1 cur ln 1 5 "eturn" _ eq_refl eq_refl).
    reflexivity. }
  first_letter c0 "s"%char.
  { rewrite (checkKeyword_word "s" b1 cur ln 1 4 "uper" _ eq_refl eq_refl).
    reflexivity. }
  first_letter c0 "t"%char.
  { destruct b1 as [|c1 b2].
    { cbn [append]. rewrite strlen_cons.
      replace (1 + strlen cur - strlen cur) with 1 by lia. reflexivity. }
    cbn [append char_at String.get String.eqb].
    rewrite !strlen_cons, !strlen_app.
    replace (1 <? 1 + (1 + (strlen b2 + strlen cur)) - strlen cur) with true
      by (symmetry; apply Z.ltb_lt; pose proof (strlen_nonneg b2); lia).
    first_letter c1 "h"%char.
    { rewrite (checkKeyword_word "th" b2 cur ln 2 2 "is" _
                eq_refl eq_refl).
      reflexivity. }
    first_letter c1 "r"%char.
    { rewrite (checkKeyword_word "tr" b2 cur ln 2 2 "ue" _
                eq_refl eq_refl).
      reflexivity. }
    reflexivity. }
  first_letter c0 "v"%char.
  { rewrite (checkKeyword_word "v" b1 cur ln 1 2 "ar" _ eq_refl eq_refl).
    reflexivity. }
  first_letter c0 "w"%char.
  { rewrite (checkKeyword_word "w" b1 cur ln 1 4 "hile" _ eq_refl eq_refl).
    reflexivity. }
  reflexivity.
Qed.

(** X4: the scanner recognises the reserved words, and nothing else.
    When the first character after the blanks is a letter or an
    underscore, the kind of the token that [scanToken] returns is the
    kind that the table of the sixteen reserved words gives to the text
    of the token as a whole: a reserved word only when every character
    matches and none is left over (neither [prin] nor [printer] is
    [print]), [TOKEN_IDENTIFIER] otherwise. *)
Theorem scanToken_reserved_words s :
  Scanner.isAlpha (Scanner.peek (Scanner.skipWhitespace s)) = true ->
  type (fst (Scanner.scanToken s))
  = word_kind keywords (lexeme (fst (Scanner.scanToken s))).
Proof.
  unfold Scanner.scanToken, Scanner.isAtEnd, Scanner.peek.
  destruct (Scanner.skipWhitespace s) as [st cur ln].
  cbn [Scanner.current Scanner.line].
  destruct cur as [|c rest]; [discriminate|].
  change (char_at (String c rest) 0) with c. intros A.
  destruct (Ascii.eqb c NUL) eqn:E.
  { apply Ascii.eqb_eq in E. subst c. discriminate A. }
  unfold Scanner.advance. cbn [Scanner.current Scanner.start Scanner.line].
  rewrite E, A. unfold Scanner.identifier.
  cbn [Scanner.current Scanner.start Scanner.line fst].
  destruct (advance_while_split
              (fun c => Scanner.isAlpha c || Scanner.isDigit c) rest eq_refl)
    as (pre & P1 & _).
  remember (Scanner.advance_while _ rest) as cur2 eqn:Q. clear Q. subst rest.
  change (String c (pre ++ cur2)) with (String c pre ++ cur2).
  destruct (makeToken_spans
              (Scanner.identifierType
                 (Scanner.mkState (String c pre ++ cur2) cur2 ln))
              (String c pre ++ cur2) (String c pre) cur2 ln eq_refl)
    as (_ & Lx & _ & _ & Ty).
  rewrite Lx, Ty. apply identifierType_word.
Qed.

(** [while] in front of a parenthesis, after two spaces. *)
Lemma scanToken_reserved_words_witness :
  type (fst (Scanner.scanToken (Scanner.initScanner "  while (x)")))
  = word_kind keywords
      (lexeme (fst (Scanner.scanToken (Scanner.initScanner "  while (x)")))).
Proof.
  apply (scanToken_reserved_words (Scanner.initScanner "  while (x)")).
  vm_compute. reflexivity.
Defined.

(** ** Error tokens *)

(** Finds a text in a list of texts. *)
Ltac in_list :=
  unfold compiler_messages, runtime_messages; cbn [In];
  repeat (first [left; reflexivity | right]).

(** An error token carries one of the two messages of the scanner. *)
Lemma scanToken_error_message s :
  type (fst (Scanner.scanToken s)) = TOKEN_ERROR ->
  In (start (fst (Scanner.scanToken s))) compiler_messages.
Proof.
  unfold Scanner.scanToken.
  destruct (Scanner.isAtEnd _); [discriminate|].
  destruct (Scanner.advance _) as [c s1].
  destruct (Scanner.isAlpha c).
  { intros H. exfalso. revert H. unfold Scanner.identifier.
    cbn [fst type Scanner.makeToken]. apply identifierType_not_error. }
  destruct (Scanner.isDigit c); [discriminate|].
  repeat match goal with
         | |- context [if is_char c ?k then _ else _] => destruct (is_char c k)
         | |- context [Scanner.match_ ?e ?q] => destruct (Scanner.match_ e q)
         end; cbn [fst type Scanner.makeToken]; try discriminate.
  all: try (match goal with b : bool |- _ => destruct b end; discriminate).
  all: try (unfold Scanner.string_;
            match goal with
            | |- context [Scanner.string_at ?a ?b] =>
                destruct (Scanner.string_at a b)
            end;
            match goal with
            | |- context [Scanner.isAtEnd ?q] => destruct (Scanner.isAtEnd q)
            end;
            cbn [fst type Scanner.makeToken]; try discriminate).
  all: intros _; cbn [start Scanner.errorToken fst]; in_list.
Qed.

(** ** Texts that cannot be taken apart in two ways *)

Lemma newlines_nonneg s : 0 <= newlines s.
Proof.
  induction s as [|c s IH]; simpl; [lia|]. destruct (Ascii.eqb c LF); lia.
Qed.

Lemma app_inv_head (a x y : string) : a ++ x = a ++ y -> x = y.
Proof.
  induction a as [|c a IH]; cbn [append]; [tauto|].
  intros [= E]. exact (IH E).
Qed.

Lemma occurs_app c a b : occurs c (a ++ b) = occurs c a || occurs c b.
Proof.
  induction a as [|d a IH]; cbn [append occurs]; [reflexivity|].
  rewrite IH, orb_assoc. reflexivity.
Qed.

(** A text up to the first [c] is told by the whole text. *)
Lemma app_first c a : forall b x y,
  occurs c a = false ->
  a ++ String c x = b ++ String c y ->
  (b = a /\ y = x) \/ exists z, b = a ++ String c z.
Proof.
  induction a as [|e a IH]; intros b x y O E.
  - destruct b as [|d b]; cbn [append] in E.
    + injection E as <-. left. split; reflexivity.
    + injection E as <- ->. right. exists b. reflexivity.
  - cbn [occurs] in O. apply orb_false_iff in O. destruct O as [O1 O2].
    destruct b as [|d b]; cbn [append] in E.
    + injection E as -> _. rewrite Ascii.eqb_refl in O1. discriminate O1.
    + injection E as <- E. destruct (IH b x y O2 E) as [[-> ->]|[z ->]].
      * left. split; reflexivity.
      * right. exists z. reflexivity.
Qed.

Lemma app_first_both c a b x y :
  occurs c a = false -> occurs c b = false ->
  a ++ String c x = b ++ String c y -> b = a /\ y = x.
Proof.
  intros Oa Ob E. destruct (app_first c a b x y Oa E) as [H|[z ->]];
    [exact H|].
  rewrite occurs_app in Ob. cbn [occurs] in Ob.
  rewrite Ascii.eqb_refl, orb_true_r in Ob. discriminate Ob.
Qed.

Lemma occurs_newlines s : newlines s = 0 -> occurs LF s = false.
Proof.
  induction s as [|c s IH]; cbn [newlines occurs]; [reflexivity|].
  pose proof (newlines_nonneg s). destruct (Ascii.eqb c LF); [lia|].
  intros H0. apply IH. lia.
Qed.

Lemma digit_char_not c d :
  0 <= d < 10 -> (char_code c <? 48) || (57 <? char_code c) = true ->
  Ascii.eqb (digit_char d) c = false.
Proof.
  intros D C. destruct (Ascii.eqb_spec (digit_char d) c) as [<-|]; [|reflexivity].
  assert (K : d = 0 \/ d = 1 \/ d = 2 \/ d = 3 \/ d = 4 \/ d = 5 \/ d = 6
              \/ d = 7 \/ d = 8 \/ d = 9) by lia.
  repeat (destruct K as [->|K]; [discriminate C|]). subst d. discriminate C.
Qed.

Lemma occurs_decimal_digits c :
  (char_code c <? 48) || (57 <? char_code c) = true ->
  forall fuel n acc,
    occurs c (decimal_digits fuel n acc) = occurs c acc.
Proof.
  intros C. induction fuel as [|fuel IH]; intros n acc; [reflexivity|].
  cbn [decimal_digits].
  assert (D : occurs c (String (digit_char (n mod 10)) acc) = occurs c acc).
  { cbn [occurs]. rewrite digit_char_not; [reflexivity| |exact C].
    apply Z.mod_pos_bound. lia. }
  destruct (n / 10 =? 0); [exact D|]. rewrite IH. exact D.
Qed.

Lemma occurs_print_int n : occurs "]" (print_int n) = false.
Proof.
  unfold print_int. destruct (n <? 0); cbn [occurs];
    rewrite occurs_decimal_digits; reflexivity.
Qed.

(** ** The text of a token *)

Lemma advance_while_occurs f : forall cur,
  exists pre,
    cur = pre ++ Scanner.advance_while f cur
    /\ forall c, f c = false -> occurs c pre = false.
Proof.
  induction cur as [|a cur [pre [H1 H2]]]; simpl.
  - exists "". split; reflexivity.
  - destruct (f a) eqn:E.
    + exists (String a pre). simpl. split; [congruence|].
      intros c F. rewrite (H2 c F), orb_false_r.
      destruct (Ascii.eqb_spec a c); [congruence | reflexivity].
    + exists "". split; reflexivity.
Qed.

Lemma string_at_occurs : forall cur ln,
  exists pre,
    cur = pre ++ fst (Scanner.string_at cur ln)
    /\ occurs DQUOTE pre = false.
Proof.
  induction cur as [|a cur IH]; intros ln; simpl.
  - exists "". split; reflexivity.
  - destruct (Ascii.eqb a DQUOTE) eqn:E; cbn [orb].
    + exists "". split; reflexivity.
    + destruct (Ascii.eqb a NUL); [exists ""; split; reflexivity|].
      destruct (IH (if Ascii.eqb a LF then ln + 1 else ln)) as [pre [H1 H2]].
      exists (String a pre). simpl. rewrite E, H2. split; [congruence|].
      reflexivity.
Qed.

Lemma spelled_makeToken ty body cur2 ln :
  spelled body ->
  spelled (lexeme (Scanner.makeToken ty (Scanner.mkState (body ++ cur2) cur2 ln))).
Proof.
  destruct (makeToken_spans ty (body ++ cur2) body cur2 ln eq_refl)
    as (_ & -> & _). tauto.
Qed.

Lemma spelled_plain c body :
  occurs "'" (String c body) = false -> occurs DQUOTE (String c body) = false ->
  spelled (String c body).
Proof. intros A B. split; [discriminate | left; split; assumption]. Qed.

(** A token of [scanToken] that is neither an error nor the end of the
    source is spelled as a word, a number, punctuation or a string. *)
Lemma scanToken_spelled s :
  type (fst (Scanner.scanToken s)) <> TOKEN_ERROR ->
  type (fst (Scanner.scanToken s)) <> TOKEN_EOF ->
  spelled (lexeme (fst (Scanner.scanToken s))).
Proof.
  unfold Scanner.scanToken, Scanner.skipWhitespace.
  destruct (Scanner.skipWhitespace_at false (Scanner.current s) (Scanner.line s))
    as [cur ln]. cbn [Scanner.current Scanner.line].
  destruct (Scanner.isAtEnd _) eqn:E.
  { intros _ T. destruct T. reflexivity. }
  unfold Scanner.advance. cbn [Scanner.current Scanner.start Scanner.line].
  destruct cur as [|c rest]; [discriminate E|].
  change (Ascii.eqb c NUL = false) in E. rewrite E.
  destruct (Scanner.isAlpha c) eqn:EA.
  { intros _ _. unfold Scanner.identifier.
    cbn [Scanner.current Scanner.start Scanner.line fst snd].
    destruct (advance_while_occurs
                (fun c => Scanner.isAlpha c || Scanner.isDigit c) rest)
      as (pre & P1 & P2).
    remember (Scanner.advance_while _ rest) as cur2 eqn:Q. clear Q. subst rest.
    apply (spelled_makeToken _ (String c pre) cur2 ln).
    apply spelled_plain; cbn [occurs]; rewrite P2 by reflexivity;
      rewrite orb_false_r;
      (destruct (Ascii.eqb_spec c "'") as [->|]; [discriminate EA|]);
      (destruct (Ascii.eqb_spec c DQUOTE) as [->|]; [discriminate EA|]);
      reflexivity. }
  destruct (Scanner.isDigit c) eqn:ED.
  { intros _ _. unfold Scanner.number.
    cbn [Scanner.current Scanner.start Scanner.line fst snd].
    destruct (advance_while_occurs Scanner.isDigit rest) as (pre & P1 & P2).
    remember (Scanner.advance_while _ rest) as cur1 eqn:Q. clear Q. subst rest.
    assert (C1 : Ascii.eqb c "'" = false)
      by (destruct (Ascii.eqb_spec c "'") as [->|];
          [discriminate ED | reflexivity]).
    assert (C2 : Ascii.eqb c DQUOTE = false)
      by (destruct (Ascii.eqb_spec c DQUOTE) as [->|];
          [discriminate ED | reflexivity]).
    destruct (_ && _) eqn:F.
    - apply andb_prop in F. destruct F as [F1 _].
      unfold Scanner.peek in F1. cbn [Scanner.current] in F1.
      destruct cur1 as [|d r]; [discriminate F1|].
      change (Ascii.eqb d "." = true) in F1. apply Ascii.eqb_eq in F1. subst d.
      unfold Scanner.advance.
      cbn [Scanner.current Scanner.start Scanner.line fst snd].
      change (Ascii.eqb "." NUL) with false. cbv iota.
      cbn [Scanner.current Scanner.start Scanner.line fst snd].
      destruct (advance_while_occurs Scanner.isDigit r) as (pre2 & P3 & P4).
      remember (Scanner.advance_while _ r) as cur2 eqn:Q. clear Q. subst r.
      assert (X : String c (pre ++ String "." (pre2 ++ cur2))
                  = String c (pre ++ String "." pre2) ++ cur2).
      { simpl. f_equal. rewrite append_assoc. reflexivity. }
      rewrite X.
      apply (spelled_makeToken _ (String c (pre ++ String "." pre2)) cur2 ln).
      apply spelled_plain; cbn [occurs]; rewrite occurs_app; cbn [occurs];
        rewrite P2, P4 by reflexivity; rewrite ?C1, ?C2; reflexivity.
    - apply (spelled_makeToken _ (String c pre) cur1 ln).
      apply spelled_plain; cbn [occurs]; rewrite P2 by reflexivity;
        rewrite ?C1, ?C2; reflexivity. }
  assert (ONE : forall ty,
            Ascii.eqb c "'" = false -> Ascii.eqb c DQUOTE = false ->
            spelled (lexeme (Scanner.makeToken ty
                               (Scanner.mkState (String c rest) rest ln)))).
  { intros ty C1 C2. apply (spelled_makeToken ty (String c "") rest ln).
    apply spelled_plain; cbn [occurs]; rewrite ?C1, ?C2; reflexivity. }
  assert (TWO : forall ty1 ty2,
            Ascii.eqb c "'" = false -> Ascii.eqb c DQUOTE = false ->
            spelled (lexeme
              (let '(b, s1) :=
                 Scanner.match_ "=" (Scanner.mkState (String c rest) rest ln) in
               fst (Scanner.makeToken (if b then ty1 else ty2) s1, s1)))).
  { intros ty1 ty2 C1 C2. unfold Scanner.match_.
    destruct (Scanner.isAtEnd _) eqn:E1; [apply ONE; assumption|].
    destruct (negb _) eqn:E2; [apply ONE; assumption|].
    unfold Scanner.peek in E1, E2. unfold Scanner.isAtEnd, Scanner.peek in E1.
    cbn [Scanner.current] in E1, E2.
    destruct rest as [|d r]; [discriminate E1|].
    change (Ascii.eqb d NUL = false) in E1.
    change (negb (Ascii.eqb d "=") = false) in E2.
    apply negb_false_iff, Ascii.eqb_eq in E2. subst d.
    unfold Scanner.advance.
    cbn [Scanner.current Scanner.start Scanner.line fst snd].
    change (Ascii.eqb "=" NUL) with false. cbv iota. cbn [fst snd].
    apply (spelled_makeToken ty1 (String c (String "=" "")) r ln).
    apply spelled_plain; cbn [occurs]; rewrite ?C1, ?C2; reflexivity. }
  repeat match goal with
         | |- context [if is_char c ?k then _ else _] =>
             let H := fresh "K" in
             destruct (is_char c k) eqn:H;
             [apply is_char_eq in H|clear H]
         end.
  all: try (subst c; intros _ _; apply ONE; reflexivity).
  all: try (subst c; intros _ _;
            match goal with
            | |- context [Scanner.match_ "=" ?st] =>
                match goal with
                | |- context [if _ then ?t1 else ?t2] =>
                    pose proof (TWO t1 t2 eq_refl eq_refl) as W;
                    destruct (Scanner.match_ "=" st); exact W
                end
            end).
  - subst c. unfold Scanner.string_.
    cbn [Scanner.current Scanner.start Scanner.line].
    destruct (string_at_occurs rest ln) as (pre & P1 & P2).
    pose proof (string_at_head rest ln) as P3.
    destruct (Scanner.string_at rest ln) as [cur' ln'].
    cbn [fst snd] in P1, P3. subst rest.
    destruct (Scanner.isAtEnd _) eqn:E1; cbn [fst snd].
    + intros T. destruct T. reflexivity.
    + intros _ _.
      unfold Scanner.isAtEnd, Scanner.peek in E1. cbn [Scanner.current] in E1.
      destruct cur' as [|q r]; [discriminate E1|].
      change (Ascii.eqb q NUL = false) in E1.
      specialize (P3 q r eq_refl). rewrite E1, orb_false_r in P3.
      apply Ascii.eqb_eq in P3. subst q.
      unfold Scanner.advance.
      cbn [Scanner.current Scanner.start Scanner.line fst snd].
      change (Ascii.eqb DQUOTE NUL) with false. cbv iota. cbn [fst snd].
      assert (X : String DQUOTE (pre ++ String DQUOTE r)
                  = String DQUOTE (pre ++ String DQUOTE "") ++ r).
      { simpl. f_equal. rewrite append_assoc. reflexivity. }
      rewrite X.
      apply (spelled_makeToken _ (String DQUOTE (pre ++ String DQUOTE "")) r ln').
      split; [discriminate|]. right. exists pre. split; [reflexivity | exact P2].
  - intros T. destruct T. reflexivity.
Qed.

(** ** One report is not the text of several *)

Lemma compiler_message_line msg :
  In msg compiler_messages -> occurs LF msg = false.
Proof.
  unfold compiler_messages. cbn [In]. intros H.
  repeat (destruct H as [<-|H]; [reflexivity|]). destruct H.
Qed.

Lemma message_alone msg m1 rest :
  occurs LF msg = false -> occurs LF m1 = false ->
  msg ++ newline = m1 ++ newline ++ rest -> rest = "".
Proof.
  intros A B E. unfold newline in E. cbn [append] in E.
  destruct (app_first_both LF msg m1 "" rest A B E) as [_ H]. exact H.
Qed.

Ltac strip E := repeat (first [discriminate E | injection E as E]).

(** What follows the token in two reports that start alike. *)
Lemma spelled_alone l l1 x y :
  spelled l -> spelled l1 ->
  l ++ String "'" x = l1 ++ String "'" y -> x = y.
Proof.
  intros [N [[A B]|(b & -> & Ob)]] [N1 [[A1 B1]|(b1 & -> & Ob1)]] E.
  - destruct (app_first_both "'" l l1 x y A A1 E) as [_ H]. symmetry. exact H.
  - destruct l as [|a l]; [destruct N; reflexivity|].
    cbn [append] in E. injection E as -> _. cbn [occurs] in B.
    rewrite Ascii.eqb_refl in B. discriminate B.
  - destruct l1 as [|a l1]; [destruct N1; reflexivity|].
    cbn [append] in E. injection E as <- _. cbn [occurs] in B1.
    rewrite Ascii.eqb_refl in B1. discriminate B1.
  - cbn [append] in E. rewrite !append_assoc in E. cbn [append] in E.
    injection E as E.
    destruct (app_first_both DQUOTE b b1 _ _ Ob Ob1 E) as [_ H].
    injection H as H. symmetry. exact H.
Qed.

(** The text of a report and more is not the text of a report. *)
Lemma report_alone t msg t1 m1 rest :
  scanned t -> scanned t1 ->
  In msg compiler_messages -> In m1 compiler_messages ->
  report t msg = report t1 m1 ++ rest -> rest = "".
Proof.
  intros [s ->] [s1 ->] Im Im1.
  pose proof (scanToken_spelled s) as Sp.
  pose proof (scanToken_spelled s1) as Sp1.
  remember (fst (Scanner.scanToken s)) as t eqn:Q. clear Q.
  remember (fst (Scanner.scanToken s1)) as t1 eqn:Q. clear Q.
  apply compiler_message_line in Im, Im1.
  unfold report, tt_eqb.
  destruct (TokenType_eq_dec (type t) TOKEN_EOF) as [F|F];
    destruct (TokenType_eq_dec (type t) TOKEN_ERROR) as [G|G];
    destruct (TokenType_eq_dec (type t1) TOKEN_EOF) as [F1|F1];
    destruct (TokenType_eq_dec (type t1) TOKEN_ERROR) as [G1|G1];
    cbn [negb]; rewrite !append_assoc; intros E;
    apply app_inv_head in E; cbn [append] in E;
    destruct (app_first_both "]" _ _ _ _ (occurs_print_int _)
                (occurs_print_int _) E) as [_ E'];
    clear E; strip E'.
  all: try (symmetry in E'; exact (message_alone _ _ _ Im Im1 E')).
  pose proof (spelled_alone _ _ _ _ (Sp G F) (Sp1 G1 F1) (eq_sym E')) as E.
  strip E. exact (message_alone _ _ _ Im Im1 E).
Qed.

Lemma one_report_made e0 t msg :
  scanned t -> In msg compiler_messages -> one_report e0 (e0 ++ report t msg).
Proof.
  intros St Im. split.
  - exists t, msg. repeat split; assumption.
  - intros t1 m1 rest St1 Im1 E. apply app_inv_head in E.
    exact (report_alone t msg t1 m1 rest St St1 Im Im1 E).
Qed.

(* ================================================================== *)
(** * Further properties: the compiler *)
(* ================================================================== *)

Lemma keeps_ret {A} P (x : A) : keeps P (Compiler.ret x).
Proof. intros p r H [= <-]. exact H. Qed.

Lemma keeps_gets {A} P (f : Process -> A) : keeps P (Compiler.gets f).
Proof. intros p r H [= <-]. exact H. Qed.

Lemma keeps_out_of_fuel {A} P : keeps P (@Compiler.out_of_fuel A).
Proof. intros p r H E. discriminate E. Qed.

Lemma keeps_bind {A B} P (c : Compiler.M A) (k : A -> Compiler.M B) :
  keeps P c -> (forall x, keeps P (k x)) -> keeps P (Compiler.bind c k).
Proof.
  intros Hc Hk p r H. unfold Compiler.bind.
  destruct (c p) as [[x p1]|] eqn:E; [|discriminate].
  apply (Hk x). exact (Hc p (x, p1) H E).
Qed.

(** ** A property that the primitives keep is kept by the whole descent *)

Section Keeps.
Variable P : Process -> Prop.
Hypothesis P_advance : keeps P Compiler.advance.
Hypothesis P_error :
  forall msg, In msg compiler_messages ->
              keeps P (Compiler.errorAtCurrent msg).
Hypothesis P_emit : forall b l, keeps P (Compiler.emitByte b l).
Hypothesis P_const : forall v, keeps P (Compiler.addConstant v).
Hypothesis P_ident : forall t, keeps P (Compiler.identifierConstant t).
Hypothesis P_patch : forall o, keeps P (Compiler.patchJump o).

Ltac keep_with tac :=
  repeat lazymatch goal with
    | |- keeps _ (Compiler.bind _ _) => apply keeps_bind; [|intros ?]
    | |- keeps _ (Compiler.ret _) => apply keeps_ret
    | |- keeps _ (Compiler.gets _) => apply keeps_gets
    | |- keeps _ Compiler.out_of_fuel => apply keeps_out_of_fuel
    | |- keeps _ Compiler.advance => apply P_advance
    | |- keeps _ (Compiler.errorAtCurrent _) => apply P_error; first [assumption | in_list]
    | |- keeps _ (Compiler.emitByte _ _) => apply P_emit
    | |- keeps _ (Compiler.addConstant _) => apply P_const
    | |- keeps _ (Compiler.identifierConstant _) => apply P_ident
    | |- keeps _ (Compiler.patchJump _) => apply P_patch
    | |- keeps _ (if ?b then _ else _) => destruct b
    | |- keeps _ (match ?x with Some _ => _ | None => _ end) => destruct x
    | |- _ => tac
    end.

Ltac keep := keep_with ltac:(idtac; fail).

Lemma keeps_match ty : keeps P (Compiler.match_ ty).
Proof. unfold Compiler.match_, Compiler.check. keep. Qed.

Lemma keeps_consume ty msg :
  In msg compiler_messages -> keeps P (Compiler.consume ty msg).
Proof. intros Im. unfold Compiler.consume, Compiler.check. keep. Qed.

Lemma keeps_emitOp o : keeps P (Compiler.emitOp o).
Proof. unfold Compiler.emitOp, Compiler.prev_line. keep. Qed.

Lemma keeps_emitOpArg o a : keeps P (Compiler.emitOpArg o a).
Proof.
  unfold Compiler.emitOpArg, Compiler.emitBytes, Compiler.prev_line. keep.
Qed.

Lemma keeps_emitConstant v l : keeps P (Compiler.emitConstant v l).
Proof. unfold Compiler.emitConstant, Compiler.emitBytes. keep. Qed.

Lemma keeps_emitJump o l : keeps P (Compiler.emitJump o l).
Proof. unfold Compiler.emitJump, Compiler.chunk_count. keep. Qed.

Lemma keeps_emitOps ops : keeps P (Compiler.emitOps ops).
Proof.
  induction ops as [|o ops IH]; cbn [Compiler.emitOps]; [apply keeps_ret|].
  apply keeps_bind; [apply keeps_emitOp | intros _; exact IH].
Qed.

Lemma keeps_match_binary table : keeps P (Compiler.match_binary table).
Proof.
  induction table as [|[ty ops] table IH]; cbn [Compiler.match_binary];
    [apply keeps_ret|].
  apply keeps_bind; [apply keeps_match|].
  intros []; [apply keeps_ret | exact IH].
Qed.

Ltac keep' :=
  keep_with ltac:(
    idtac; lazymatch goal with
    | |- keeps _ (Compiler.match_ _) => apply keeps_match
    | |- keeps _ (Compiler.consume _ _) => apply keeps_consume; in_list
    | |- keeps _ (Compiler.emitOp _) => apply keeps_emitOp
    | |- keeps _ (Compiler.emitOpArg _ _) => apply keeps_emitOpArg
    | |- keeps _ (Compiler.emitConstant _ _) => apply keeps_emitConstant
    | |- keeps _ (Compiler.emitJump _ _) => apply keeps_emitJump
    | |- keeps _ (Compiler.emitOps _) => apply keeps_emitOps
    | |- keeps _ (Compiler.match_binary _) => apply keeps_match_binary
    | |- keeps _ Compiler.prev => apply keeps_gets
    | |- keeps _ Compiler.prev_line => apply keeps_gets
    | |- keeps _ Compiler.chunk_count => apply keeps_gets
    | |- keeps _ (Compiler.parsePrecedence1 _) => assumption
    | |- keeps _ (Compiler.expression _) => assumption
    | |- keeps _ (Compiler.expression_loop _) => assumption
    | |- keeps _ (Compiler.declaration _) => assumption
    | |- keeps _ (Compiler.block_loop _) => assumption
    | |- keeps _ (Compiler.compile_loop _) => assumption
    end).

Lemma keeps_descent n :
  keeps P (Compiler.parsePrecedence1 n)
  /\ keeps P (Compiler.expression n)
  /\ keeps P (Compiler.expression_loop n)
  /\ keeps P (Compiler.declaration n)
  /\ keeps P (Compiler.block_loop n).
Proof.
  induction n as [|n (IHp & IHe & IHl & IHd & IHb)].
  - repeat split; apply keeps_out_of_fuel.
  - repeat split.
    + cbn [Compiler.parsePrecedence1]. keep'.
    + cbn [Compiler.expression]. keep'.
    + cbn [Compiler.expression_loop]. keep'.
    + cbn [Compiler.declaration]. keep'.
    + cbn [Compiler.block_loop]. intros p r.
      destruct (negb _ && negb _); [|intros H [= <-]; exact H].
      apply (keeps_bind P (Compiler.declaration n)
               (fun _ => Compiler.block_loop n));
        [assumption | intros _; assumption].
Qed.

Lemma keeps_compile_loop n : keeps P (Compiler.compile_loop n).
Proof.
  induction n as [|n IH]; [apply keeps_out_of_fuel|].
  cbn [Compiler.compile_loop].
  pose proof (keeps_descent n) as (_ & _ & _ & D & _). keep'.
Qed.

End Keeps.

(** ** What [errorAt] and [advance] do to the statics *)

Lemma errorAt_effect t msg p :
  exists p', Compiler.errorAt t msg p = Some (tt, p')
    /\ compilingChunk p' = compilingChunk p /\ next_obj p' = next_obj p
    /\ vm p' = vm p /\ globals p' = globals p /\ stdout p' = stdout p
    /\ scanner p' = scanner p
    /\ current (parser p') = current (parser p)
    /\ previous (parser p') = previous (parser p)
    /\ (if panicMode (parser p)
        then parser p' = parser p /\ stderr p' = stderr p
        else hadError (parser p') = true /\ panicMode (parser p') = true
             /\ stderr p' = stderr p ++ report t msg).
Proof.
  unfold Compiler.errorAt, report. destruct (panicMode (parser p)).
  - eexists; repeat split.
  - destruct (tt_eqb (type t) TOKEN_EOF); [|destruct (negb _)];
      (eexists; split; [reflexivity|]);
      cbn [compilingChunk next_obj vm globals stdout stderr scanner parser
           put_stderr set_parser current previous hadError panicMode];
      repeat split; rewrite ?append_assoc, ?append_nil_r; reflexivity.
Qed.

Lemma keeps_errorAt P t msg :
  (forall x p, P p -> P (set_parser x p)) ->
  (forall s p, P p -> P (put_stderr s p)) ->
  keeps P (Compiler.errorAt t msg).
Proof.
  intros Hp He p r H. unfold Compiler.errorAt.
  destruct (panicMode (parser p)); [intros [= <-]; exact H|].
  destruct (tt_eqb (type t) TOKEN_EOF); [|destruct (negb _)];
    intros [= <-]; cbn [snd]; repeat first [apply He | apply Hp]; exact H.
Qed.

Lemma keeps_advance_loop P :
  (forall x p, P p -> P (set_parser x p)) ->
  (forall x p, P p -> P (set_scanner x p)) ->
  (forall s p, P p -> P (put_stderr s p)) ->
  forall fuel, keeps P (Compiler.advance_loop fuel).
Proof.
  intros Hp Hs He. induction fuel as [|fuel IH]; [apply keeps_out_of_fuel|].
  intros p r H. cbn [Compiler.advance_loop].
  destruct (Scanner.scanToken (scanner p)) as [t sc].
  assert (H1 : P (Compiler.set_current t (set_scanner sc p)))
    by (apply Hp, Hs, H).
  destruct (negb _); [intros [= <-]; exact H1|].
  revert H1.
  apply (keeps_bind P (Compiler.errorAtCurrent (start t))
           (fun _ => Compiler.advance_loop fuel)).
  - intros q r' Hq. unfold Compiler.errorAtCurrent.
    apply keeps_errorAt; assumption.
  - intros _. exact IH.
Qed.

Lemma keeps_advance P :
  (forall x p, P p -> P (set_parser x p)) ->
  (forall x p, P p -> P (set_scanner x p)) ->
  (forall s p, P p -> P (put_stderr s p)) ->
  keeps P Compiler.advance.
Proof.
  intros Hp Hs He p r H. unfold Compiler.advance.
  apply keeps_advance_loop; try assumption. apply Hp, H.
Qed.

Lemma keeps_errorAtCurrent P msg :
  (forall x p, P p -> P (set_parser x p)) ->
  (forall s p, P p -> P (put_stderr s p)) ->
  keeps P (Compiler.errorAtCurrent msg).
Proof.
  intros Hp He p r H. unfold Compiler.errorAtCurrent.
  apply keeps_errorAt; assumption.
Qed.

Lemma advance_loop_previous fuel : forall p r,
  Compiler.advance_loop fuel p = Some r ->
  previous (parser (snd r)) = previous (parser p)
  /\ type (current (parser (snd r))) <> TOKEN_ERROR
  /\ compilingChunk (snd r) = compilingChunk p.
Proof.
  induction fuel as [|fuel IH]; intros p r; [discriminate|].
  cbn [Compiler.advance_loop].
  destruct (Scanner.scanToken (scanner p)) as [t sc].
  unfold tt_eqb. destruct (TokenType_eq_dec (type t) TOKEN_ERROR) as [E|E];
    cbn [negb]; [|intros [= <-]; repeat split; exact E].
  unfold Compiler.bind, Compiler.errorAtCurrent.
  match goal with |- context [Compiler.errorAt ?tok ?msg ?q] =>
    destruct (errorAt_effect tok msg q)
      as (p1 & E1 & Ch & _ & _ & _ & _ & _ & _ & Pv & _)
  end.
  rewrite E1. intros H. destruct (IH _ _ H) as (H1 & H2 & H3).
  rewrite H1, H3, Pv, Ch. repeat split. exact H2.
Qed.

Lemma advance_previous p r :
  Compiler.advance p = Some r ->
  previous (parser (snd r)) = current (parser p).
Proof.
  unfold Compiler.advance. intros H.
  rewrite (proj1 (advance_loop_previous _ _ _ H)). reflexivity.
Qed.

(** X5: [advance] always returns, with a token that the parser can
    use.  Whatever is left to scan, the loop of [advance] ends: every
    error token is reported (or passed in silence in panic mode) and
    skipped, and the call returns with [parser.current] a token that is
    not an error and [parser.previous] the token that was current; the
    chunk is not touched. *)
Theorem advance_returns_a_token :
  forall p, exists p',
    Compiler.advance p = Some (tt, p')
    /\ type (current (parser p')) <> TOKEN_ERROR
    /\ previous (parser p') = current (parser p)
    /\ compilingChunk p' = compilingChunk p.
Proof.
  intros p. destruct (advance_total p) as [p' E]. exists p'.
  split; [exact E|].
  pose proof (advance_previous _ _ E) as Pv.
  unfold Compiler.advance in E.
  destruct (advance_loop_previous _ _ _ E) as (_ & T & C).
  repeat split; assumption.
Qed.

(** ** Tokens that no rule consumes *)

Lemma match_binary_unconsumed k p :
  unconsumed k = true -> in_front_of k p ->
  Compiler.match_binary Compiler.binary_ops p = Some (None, p).
Proof.
  unfold in_front_of. intros U H. unfold Compiler.binary_ops. simpl.
  unfold Compiler.bind.
  destruct k; try discriminate U;
    repeat (rewrite match_other by (rewrite H; reflexivity)); reflexivity.
Qed.

Lemma parsePrecedence1_unconsumed k fuel p r :
  unconsumed k = true -> in_front_of k p ->
  Compiler.parsePrecedence1 fuel p = Some r -> in_front_of k (snd r).
Proof.
  unfold in_front_of. intros U H. destruct fuel as [|fuel]; [discriminate|].
  simpl. unfold Compiler.bind.
  assert (M : forall ty, unconsumed ty = false ->
                Compiler.match_ ty p = Some (false, p)).
  { intros ty F. apply match_other. rewrite H. unfold tt_eqb.
    destruct (TokenType_eq_dec k ty); [congruence | reflexivity]. }
  rewrite !M by reflexivity.
  destruct (errorAt_current (current (parser p)) "Expect expression." p)
    as (p' & E & C & _).
  fold (Compiler.errorAtCurrent "Expect expression." p).
  unfold Compiler.errorAtCurrent.
  rewrite E. intros [= <-]. simpl. rewrite C. exact H.
Qed.

Lemma consume_unconsumed k ty msg p r :
  in_front_of k p -> ty <> k ->
  Compiler.consume ty msg p = Some r -> in_front_of k (snd r).
Proof.
  unfold in_front_of. intros H N.
  unfold Compiler.consume, Compiler.bind. rewrite check_type.
  replace (tt_eqb (type (current (parser p))) ty) with false.
  - destruct (errorAt_current (current (parser p)) msg p) as (p' & E & C & _).
    unfold Compiler.errorAtCurrent. rewrite E. intros [= <-].
    simpl. rewrite C. exact H.
  - rewrite H. unfold tt_eqb. destruct (TokenType_eq_dec _ _); congruence.
Qed.

Lemma expression_unconsumed k fuel p r :
  unconsumed k = true -> in_front_of k p ->
  Compiler.expression fuel p = Some r -> in_front_of k (snd r).
Proof.
  intros U H. destruct fuel as [|fuel]; [discriminate|].
  cbn [Compiler.expression]. unfold Compiler.bind at 1.
  destruct (Compiler.parsePrecedence1 fuel p) as [[u p1]|] eqn:E;
    [|discriminate].
  apply (parsePrecedence1_unconsumed k _ _ _ U H) in E. simpl in E.
  destruct fuel as [|fuel]; [discriminate|].
  cbn [Compiler.expression_loop]. unfold Compiler.bind at 1.
  rewrite (match_binary_unconsumed k p1 U E). intros [= <-]. exact E.
Qed.

(** A declaration that starts at such a token returns in front of it:
    nothing was consumed. *)
Lemma declaration_unconsumed k fuel p r :
  unconsumed k = true -> in_front_of k p ->
  Compiler.declaration fuel p = Some r -> in_front_of k (snd r).
Proof.
  intros U H. destruct fuel as [|fuel]; [discriminate|].
  cbn [Compiler.declaration]. unfold Compiler.bind at 1.
  assert (M : forall ty, unconsumed ty = false ->
                Compiler.match_ ty p = Some (false, p)).
  { intros ty F. apply match_other. unfold in_front_of in H. rewrite H.
    unfold tt_eqb. destruct (TokenType_eq_dec k ty); [congruence | reflexivity]. }
  repeat (rewrite M by reflexivity; unfold Compiler.bind at 1).
  destruct (Compiler.expression fuel p) as [[u p1]|] eqn:E; [|discriminate].
  apply (expression_unconsumed k _ _ _ U H) in E. simpl in E.
  unfold Compiler.bind at 1.
  destruct (Compiler.consume _ _ p1) as [[u2 p2]|] eqn:E2; [|discriminate].
  apply (consume_unconsumed k _ _ _ _ E) in E2;
    [|intros <-; discriminate U]. simpl in E2.
  intros [= <-]. exact E2.
Qed.

Lemma compile_loop_unconsumed k fuel :
  unconsumed k = true ->
  forall p, in_front_of k p -> Compiler.compile_loop fuel p = None.
Proof.
  intros U. induction fuel as [|fuel IH]; intros p H; [reflexivity|].
  cbn [Compiler.compile_loop]. unfold Compiler.bind at 1.
  rewrite match_other.
  - unfold Compiler.bind at 1.
    destruct (Compiler.declaration fuel p) as [[u p1]|] eqn:E; [|reflexivity].
    apply IH. exact (declaration_unconsumed k _ _ _ U H E).
  - unfold in_front_of in H. rewrite H. unfold tt_eqb.
    destruct (TokenType_eq_dec k TOKEN_EOF) as [->|]; [discriminate U|].
    reflexivity.
Qed.

(** X6: [compile] never returns once the top-level loop is in front of
    a token that no rule consumes.  These are the fifteen kinds of
    [unconsumed]: [)], [}], [,], [.], [=], a string literal, and the
    reserved words that the compiler does not know.  In front of one,
    [declaration] reports an error and returns without consuming it, and
    [while (!match(TOKEN_EOF)) declaration();] calls it again for ever:
    with any amount of fuel the loop runs out of it (first part).  So
    [compile], and [interpret], do not return on a source that starts
    with such a token (second part). *)
Theorem compile_hangs_on_unconsumed_token :
  (forall fuel p,
     unconsumed (type (current (parser p))) = true ->
     Compiler.compile_loop fuel p = None)
  /\ (forall fuel source chunk p,
        unconsumed (type (fst (Scanner.scanToken (Scanner.initScanner source))))
        = true ->
        Compiler.compile fuel source chunk p = None
        /\ Vm.interpret fuel source p = None).
Proof.
  assert (L : forall fuel p,
            unconsumed (type (current (parser p))) = true ->
            Compiler.compile_loop fuel p = None).
  { intros fuel p U.
    exact (compile_loop_unconsumed _ fuel U p eq_refl). }
  assert (C : forall fuel source chunk p,
            unconsumed (type (fst (Scanner.scanToken
                                     (Scanner.initScanner source)))) = true ->
            Compiler.compile fuel source chunk p = None).
  { intros fuel source chunk p U. unfold Compiler.compile.
    do 3 (unfold Compiler.bind at 1; cbn [Compiler.modify]).
    unfold Compiler.bind at 1.
    match goal with |- context [Compiler.advance ?q] =>
      change q with (primed source chunk p) end.
    unfold Compiler.advance.
    cbn [Nat.add Compiler.advance_loop scanner set_parser primed set_scanner
         set_compilingChunk].
    destruct (Scanner.scanToken (Scanner.initScanner source)) as [t sc].
    cbn [fst] in U.
    replace (negb (tt_eqb (type t) TOKEN_ERROR)) with true
      by (destruct (type t); try discriminate U; reflexivity).
    unfold Compiler.bind at 1. rewrite L; [reflexivity | exact U]. }
  split; [exact L|].
  intros fuel source chunk p U. split; [exact (C _ _ _ _ U)|].
  unfold Vm.interpret. rewrite (C _ _ _ _ U). reflexivity.
Qed.

(** A source that starts with [else]. *)
Lemma compile_hangs_on_unconsumed_token_witness :
  Compiler.compile 30 "else print 1;" initChunk started = None
  /\ Vm.interpret 30 "else print 1;" started = None.
Proof.
  apply (proj2 compile_hangs_on_unconsumed_token 30%nat "else print 1;"
           initChunk started).
  vm_compute. reflexivity.
Defined.

(** The steps of [compile]. *)
Lemma compile_cases fuel source chunk p ok p' :
  Compiler.compile fuel source chunk p = Some (ok, p') ->
  exists q1 q2,
    Compiler.advance (primed source chunk p) = Some (tt, q1)
    /\ Compiler.compile_loop fuel q1 = Some (tt, q2)
    /\ p' = set_compilingChunk
              (writeChunk (compilingChunk q2) (op OP_RETURN)
                          (line (previous (parser q2)))) q2
    /\ ok = negb (hadError (parser q2)).
Proof.
  unfold Compiler.compile.
  do 3 (unfold Compiler.bind at 1; cbn [Compiler.modify]).
  unfold Compiler.bind at 1.
  match goal with |- context [Compiler.advance ?q] =>
    change q with (primed source chunk p) end.
  destruct (Compiler.advance (primed source chunk p)) as [[[] q1]|] eqn:A;
    [|discriminate].
  unfold Compiler.bind at 1.
  destruct (Compiler.compile_loop fuel q1) as [[[] q2]|] eqn:L; [|discriminate].
  intros [= <- <-]. exists q1, q2. repeat split. exact L.
Qed.

(** ** The arrays of the chunk *)

Lemma length_store xs : forall i x, List.length (store xs i x) = List.length xs.
Proof.
  induction xs as [|a xs IH]; intros [|i] x; simpl; try reflexivity.
  now rewrite IH.
Qed.

Lemma grow_capacity_fits cap n :
  n <= cap -> n + 1 <= (if cap <? n + 1 then grow_capacity cap else cap).
Proof.
  intros H. unfold grow_capacity.
  destruct (Z.ltb_spec cap (n + 1)); [|lia].
  destruct (Z.ltb_spec cap 8); lia.
Qed.

Lemma in_bounds_writeChunk c b l : in_bounds c -> in_bounds (writeChunk c b l).
Proof.
  unfold in_bounds, writeChunk, count. cbn [code lines capacity constants].
  rewrite !length_app. cbn [List.length]. intros (L & C & V).
  repeat split; [lia| |exact V].
  pose proof (grow_capacity_fits (capacity c)
                (Z.of_nat (List.length (code c))) C). lia.
Qed.

Lemma in_bounds_addConstant c v :
  in_bounds c -> in_bounds (fst (addConstant c v)).
Proof.
  unfold in_bounds, addConstant, writeValueArray, va_count, count.
  cbn [fst code lines capacity constants values va_capacity].
  rewrite !length_app. cbn [List.length]. intros (L & C & V).
  repeat split; [exact L | exact C |].
  pose proof (grow_capacity_fits (va_capacity (constants c))
                (Z.of_nat (List.length (values (constants c)))) V). lia.
Qed.

Lemma in_bounds_store_code c o b : in_bounds c -> in_bounds (store_code c o b).
Proof.
  unfold in_bounds, store_code, count. cbn [code lines capacity constants].
  rewrite !length_store. tauto.
Qed.

Lemma compile_loop_in_bounds fuel :
  keeps (fun p => in_bounds (compilingChunk p)) (Compiler.compile_loop fuel).
Proof.
  apply keeps_compile_loop.
  - apply keeps_advance; intros x p H; exact H.
  - intros msg _. apply keeps_errorAtCurrent; intros x p H; exact H.
  - intros b l p r H [= <-]. apply in_bounds_writeChunk, H.
  - intros v p r H. unfold Compiler.addConstant.
    pose proof (in_bounds_addConstant (compilingChunk p) v H) as K.
    destruct (addConstant (compilingChunk p) v) as [c i].
    intros [= <-]. exact K.
  - intros t p r H. unfold Compiler.identifierConstant, Compiler.bind,
      Compiler.addConstant. cbn [compilingChunk set_next_obj].
    match goal with |- context [addConstant ?c ?v] =>
      pose proof (in_bounds_addConstant c v H) as K;
      destruct (addConstant c v) as [c' i]
    end.
    intros [= <-]. exact K.
  - intros o p r H [= <-]. cbn [snd compilingChunk set_compilingChunk].
    apply in_bounds_store_code, in_bounds_store_code, H.
Qed.

(** ** The operands that [patchJump] writes *)

Lemma count_writeChunk c b l : count (writeChunk c b l) = count c + 1.
Proof.
  unfold count, writeChunk. cbn [code]. rewrite length_app. cbn [List.length].
  lia.
Qed.

Lemma count_store_code c o b : count (store_code c o b) = count c.
Proof. unfold count, store_code. cbn [code]. now rewrite length_store. Qed.

Lemma count_addConstant c v : count (fst (addConstant c v)) = count c.
Proof. reflexivity. Qed.

Lemma open_jumps_grows l p q :
  count (compilingChunk p) <= count (compilingChunk q) ->
  open_jumps l p -> open_jumps l q.
Proof.
  intros G H. unfold open_jumps in *. eapply Forall_impl; [|exact H].
  cbv beta. intros a. lia.
Qed.

(** No primitive of the compiler shortens the code. *)
Lemma open_jumps_kept l :
  keeps (open_jumps l) Compiler.advance
  /\ (forall msg, In msg compiler_messages ->
                  keeps (open_jumps l) (Compiler.errorAtCurrent msg))
  /\ (forall b ln, keeps (open_jumps l) (Compiler.emitByte b ln))
  /\ (forall v, keeps (open_jumps l) (Compiler.addConstant v))
  /\ (forall t, keeps (open_jumps l) (Compiler.identifierConstant t))
  /\ (forall o, keeps (open_jumps l) (Compiler.patchJump o)).
Proof.
  split; [apply keeps_advance; intros x p H; exact H|].
  split; [intros msg _; apply keeps_errorAtCurrent; intros x p H; exact H|].
  split.
  { intros b ln p r H [= <-]. revert H. apply open_jumps_grows.
    cbn [snd compilingChunk set_compilingChunk]. rewrite count_writeChunk.
    lia. }
  split.
  { intros v p r H. unfold Compiler.addConstant.
    pose proof (count_addConstant (compilingChunk p) v) as K.
    destruct (addConstant (compilingChunk p) v) as [c i].
    intros [= <-]. revert H. apply open_jumps_grows.
    cbn [snd compilingChunk set_compilingChunk]. cbn [fst] in K. lia. }
  split.
  { intros t p r H. unfold Compiler.identifierConstant, Compiler.bind,
      Compiler.addConstant. cbn [compilingChunk set_next_obj].
    match goal with |- context [addConstant ?c ?v] =>
      pose proof (count_addConstant c v) as K;
      destruct (addConstant c v) as [c' i]
    end.
    intros [= <-]. revert H. apply open_jumps_grows.
    cbn [snd compilingChunk set_compilingChunk]. cbn [fst] in K. lia. }
  intros o p r H [= <-]. revert H. apply open_jumps_grows.
  cbn [snd compilingChunk set_compilingChunk].
  rewrite !count_store_code. lia.
Qed.

Lemma open_jumps_descent l n :
  keeps (open_jumps l) (Compiler.expression n)
  /\ keeps (open_jumps l) (Compiler.declaration n)
  /\ keeps (open_jumps l) (Compiler.block_loop n).
Proof.
  destruct (open_jumps_kept l) as (A & B & C & D & E & F).
  destruct (keeps_descent (open_jumps l) A B C D E F n)
    as (_ & K1 & _ & K2 & K3).
  repeat split; assumption.
Qed.

(** The operand that [emitJump] leaves open lies within the code. *)
Lemma hoare_emitJump l o ln :
  hoare (open_jumps l) (Compiler.emitJump o ln)
        (fun offset => open_jumps (offset :: l)).
Proof.
  intros p r H [= <-]. cbn [fst snd]. constructor.
  - cbn [compilingChunk set_compilingChunk]. rewrite !count_writeChunk.
    unfold count. lia.
  - revert H. apply open_jumps_grows.
    cbn [compilingChunk set_compilingChunk]. rewrite !count_writeChunk. lia.
Qed.

Lemma hoare_keeps {A} I (c : Compiler.M A) :
  keeps I c -> hoare I c (fun _ => I).
Proof. intros K p r H E. exact (K p r H E). Qed.

Lemma agree_refl {A} I (c : Compiler.M A) : agree I c c.
Proof. intros p _. reflexivity. Qed.

Lemma agree_bind {A B} I J (c c' : Compiler.M A) (k k' : A -> Compiler.M B) :
  agree I c c' -> hoare I c J -> (forall x, agree (J x) (k x) (k' x)) ->
  agree I (Compiler.bind c k) (Compiler.bind c' k').
Proof.
  intros Ac Hc Ak p H. unfold Compiler.bind. rewrite <- (Ac p H).
  destruct (c p) as [[x p1]|] eqn:E; [|reflexivity].
  apply Ak. exact (Hc p (x, p1) H E).
Qed.

(** On an operand that is open, [patchJump] stores within the code. *)
Lemma agree_patchJump l offset :
  In offset l ->
  agree (open_jumps l) (Compiler.patchJump offset) (patchJump_within offset).
Proof.
  intros Hin p H. unfold open_jumps in H. rewrite Forall_forall in H.
  destruct (H offset Hin) as [H0 H2]. unfold patchJump_within.
  destruct (Z.leb_spec 0 offset); [|lia].
  destruct (Z.leb_spec (offset + 2) (count (compilingChunk p))); [|lia].
  reflexivity.
Qed.

Ltac open_jump :=
  lazymatch goal with
  | |- keeps _ (Compiler.bind _ _) =>
      apply keeps_bind; [open_jump | intros ?; cbv beta; open_jump]
  | |- keeps _ (if ?b then _ else _) => destruct b; open_jump
  | |- keeps (open_jumps ?l) _ =>
      let A := fresh in let B := fresh in let C := fresh in
      let D := fresh in let E := fresh in let F := fresh in
      destruct (open_jumps_kept l) as (A & B & C & D & E & F);
      first
        [ assumption
        | apply keeps_ret
        | apply keeps_gets
        | apply keeps_match; assumption
        | apply keeps_consume; first [assumption | in_list]
        | apply keeps_emitOp; assumption
        | apply keeps_emitOpArg; assumption
        | apply keeps_emitJump; assumption
        | apply C
        | apply E
        | apply F
        | apply (proj1 (open_jumps_descent l _))
        | apply (proj1 (proj2 (open_jumps_descent l _)))
        | apply (proj2 (proj2 (open_jumps_descent l _))) ]
  end.

Ltac patches :=
  cbv beta zeta;
  lazymatch goal with
  | |- agree (open_jumps ?l) (Compiler.patchJump ?o) (patchJump_within ?o) =>
      apply agree_patchJump; cbn [In]; tauto
  | |- agree (open_jumps ?l) (Compiler.bind (Compiler.emitJump ?o ?ln) _)
             (Compiler.bind (Compiler.emitJump ?o ?ln) _) =>
      apply (agree_bind (open_jumps l) (fun offset => open_jumps (offset :: l)));
        [ apply agree_refl
        | apply hoare_emitJump
        | intros ?; patches ]
  | |- agree (open_jumps ?l) (Compiler.bind _ _) (Compiler.bind _ _) =>
      apply (agree_bind (open_jumps l) (fun _ => open_jumps l));
        [ patches
        | apply hoare_keeps; open_jump
        | intros ?; patches ]
  | |- agree _ (Compiler.declaration ?f) (Checked.declaration _ ?f) =>
      lazymatch goal with
      | H : forall I, agree I (Compiler.declaration f) _ |- _ => apply H
      end
  | |- agree _ (Compiler.block_loop ?f) (Checked.block_loop _ ?f) =>
      lazymatch goal with
      | H : forall I, agree I (Compiler.block_loop f) _ |- _ => apply H
      end
  | |- agree _ (Compiler.compile_loop ?f) (Checked.compile_loop _ ?f) =>
      lazymatch goal with
      | H : forall I, agree I (Compiler.compile_loop f) _ |- _ => apply H
      end
  | |- agree _ (if ?b then _ else _) (if ?b then _ else _) =>
      destruct b; patches
  | |- agree _ _ _ => apply agree_refl
  end.

(** With [patchJump] as the parameter, the parametrised functions are
    those of the compiler. *)
Lemma checked_patchJump fuel :
  Checked.declaration Compiler.patchJump fuel = Compiler.declaration fuel
  /\ Checked.block_loop Compiler.patchJump fuel = Compiler.block_loop fuel.
Proof.
  induction fuel as [|fuel [IHd IHb]]; [split; reflexivity|].
  split; cbn [Checked.declaration Checked.block_loop Compiler.declaration
              Compiler.block_loop]; rewrite IHd, ?IHb; reflexivity.
Qed.

Lemma checked_compile_loop fuel :
  Checked.compile_loop Compiler.patchJump fuel = Compiler.compile_loop fuel.
Proof.
  induction fuel as [|fuel IH]; [reflexivity|].
  cbn [Checked.compile_loop Compiler.compile_loop].
  rewrite IH, (proj1 (checked_patchJump fuel)). reflexivity.
Qed.

(** Every [patchJump] of a declaration is given an operand that an
    [emitJump] of the same declaration has left open. *)
Lemma declaration_patches_within fuel :
  (forall I, agree I (Compiler.declaration fuel)
                   (Checked.declaration patchJump_within fuel))
  /\ (forall I, agree I (Compiler.block_loop fuel)
                      (Checked.block_loop patchJump_within fuel)).
Proof.
  induction fuel as [|fuel [IHd IHb]]; [split; intros I p _; reflexivity|].
  split; intros I p _.
  - assert (A : agree (open_jumps []) (Compiler.declaration (S fuel))
                      (Checked.declaration patchJump_within (S fuel))).
    { cbn [Compiler.declaration Checked.declaration]. patches. }
    apply A. constructor.
  - cbn [Compiler.block_loop Checked.block_loop].
    destruct (_ && _); [|reflexivity].
    assert (A : agree (open_jumps [])
                  (Compiler.bind (Compiler.declaration fuel)
                     (fun _ => Compiler.block_loop fuel))
                  (Compiler.bind (Checked.declaration patchJump_within fuel)
                     (fun _ => Checked.block_loop patchJump_within fuel))).
    { patches. }
    apply A. constructor.
Qed.

Lemma compile_loop_patches_within fuel :
  forall I, agree I (Compiler.compile_loop fuel)
                  (Checked.compile_loop patchJump_within fuel).
Proof.
  induction fuel as [|fuel IH]; intros I p _; [reflexivity|].
  pose proof (proj1 (declaration_patches_within fuel)) as IHd.
  assert (A : agree (open_jumps []) (Compiler.compile_loop (S fuel))
                    (Checked.compile_loop patchJump_within (S fuel))).
  { cbn [Compiler.compile_loop Checked.compile_loop]. patches. }
  apply A. constructor.
Qed.

Lemma bind_ext {A B} (c c' : Compiler.M A) (k k' : A -> Compiler.M B) p :
  c p = c' p -> (forall x q, k x q = k' x q) ->
  Compiler.bind c k p = Compiler.bind c' k' p.
Proof.
  intros Ec Ek. unfold Compiler.bind. rewrite <- Ec.
  destruct (c p) as [[x q]|]; [apply Ek | reflexivity].
Qed.

(** X7: the compiler writes inside what it has allocated.  (1) The two
    stores of [patchJump], [code[offset]] and [code[offset + 1]], are
    stores into the bytes of the chunk.  [Checked.compile patch] is
    [compile] with the function that patches a jump as a parameter
    (with [patchJump] it is [compile]), and [patchJump_within] is
    [patchJump] with a result only for [0 <= offset] and
    [offset + 2 <= count]: whatever the source and the statics,
    [compile] does what [Checked.compile patchJump_within] does.  So a
    call of [compile] that returns has patched no operand outside the
    code.  (2) The offset that [emitJump] returns is such an operand.
    (3) [compile] called with a chunk that has a line for every byte,
    no more bytes than [capacity] and no more constants than the
    capacity of the pool (as [initChunk] makes it) leaves such a chunk,
    whatever the source and whether or not it reports an error:
    [writeChunk] and [writeValueArray] grow the arrays before the
    element that would not fit, and patching a jump changes no
    length. *)
Theorem compile_keeps_chunk_in_bounds :
  (forall fuel source chunk,
      Checked.compile Compiler.patchJump fuel source chunk
      = Compiler.compile fuel source chunk)
  /\ (forall fuel source chunk p,
        Compiler.compile fuel source chunk p
        = Checked.compile patchJump_within fuel source chunk p)
  /\ (forall o ln p offset q,
        Compiler.emitJump o ln p = Some (offset, q) ->
        0 <= offset /\ offset + 2 <= count (compilingChunk q))
  /\ (forall fuel source chunk p ok p',
        in_bounds chunk ->
        Compiler.compile fuel source chunk p = Some (ok, p') ->
        in_bounds (compilingChunk p')).
Proof.
  split; [|split; [|split]].
  - intros fuel source chunk. unfold Checked.compile, Compiler.compile.
    rewrite checked_compile_loop. reflexivity.
  - intros fuel source chunk p. unfold Checked.compile, Compiler.compile.
    do 4 (apply bind_ext; [reflexivity | intros ? ?]).
    apply bind_ext; [|reflexivity].
    apply (compile_loop_patches_within fuel (fun _ => True)). exact I.
  - intros o ln p offset q E.
    pose proof (hoare_emitJump [] o ln p (offset, q) (Forall_nil _) E) as H.
    cbn [fst snd] in H. unfold open_jumps in H.
    exact (Forall_inv H).
  - intros fuel source chunk p ok p' B C.
    destruct (compile_cases _ _ _ _ _ _ C) as (q1 & q2 & A & L & -> & _).
    assert (B1 : in_bounds (compilingChunk q1)).
    { exact (keeps_advance (fun p => in_bounds (compilingChunk p))
               (fun _ _ H => H) (fun _ _ H => H) (fun _ _ H => H)
               (primed source chunk p) (tt, q1) B A). }
    pose proof (compile_loop_in_bounds fuel _ _ B1 L) as B2. cbn [snd] in B2.
    cbn [compilingChunk set_compilingChunk]. apply in_bounds_writeChunk, B2.
Qed.

(** The chunk of an [if] with both branches, compiled into [initChunk]. *)
Lemma compile_keeps_chunk_in_bounds_witness :
  in_bounds
    (compilingChunk
       (left_by (Compiler.compile 50 "if (true) print 1; else print 2;"
                                  initChunk started))).
Proof.
  apply (proj2 (proj2 (proj2 compile_keeps_chunk_in_bounds))
           50%nat "if (true) print 1; else print 2;" initChunk started true).
  - unfold in_bounds, count, va_count. cbn. lia.
  - vm_compute. reflexivity.
Defined.

(** ** Diagnostics of the compiler *)

Lemma reported_errorAt e0 t msg :
  scanned t -> In msg compiler_messages ->
  keeps (reported e0) (Compiler.errorAt t msg).
Proof.
  intros St Im p r [F S] E.
  destruct (errorAt_effect t msg p)
    as (p' & E' & _ & _ & _ & _ & _ & _ & _ & _ & X).
  rewrite E' in E. injection E as <-. cbn [snd]. unfold reported.
  destruct (panicMode (parser p)) eqn:Pm.
  - destruct X as [-> ->]. rewrite Pm. split; [exact F|exact S].
  - destruct X as (-> & -> & ->). split; [reflexivity|].
    rewrite F in S. rewrite S. apply one_report_made; assumption.
Qed.

(** The first [advance] of [compile] makes [parser.current] a token of
    the scanner, and every later one keeps it one. *)
Lemma reported_advance e0 p r :
  reported e0 p -> Compiler.advance p = Some r ->
  reported e0 (snd r) /\ scanned (current (parser (snd r))).
Proof.
  assert (L : forall fuel q r',
            reported e0 q -> Compiler.advance_loop fuel q = Some r' ->
            reported e0 (snd r') /\ scanned (current (parser (snd r')))).
  { induction fuel as [|fuel IH]; intros q r' H; [discriminate|].
    cbn [Compiler.advance_loop].
    pose proof (scanToken_error_message (scanner q)) as M.
    assert (St : scanned (fst (Scanner.scanToken (scanner q))))
      by (exists (scanner q); reflexivity).
    destruct (Scanner.scanToken (scanner q)) as [t sc]. cbn [fst] in M, St.
    unfold tt_eqb. destruct (TokenType_eq_dec (type t) TOKEN_ERROR) as [E|E];
      cbn [negb]; [|intros [= <-]; split; [exact H | exact St]].
    unfold Compiler.bind, Compiler.errorAtCurrent.
    match goal with |- context [Compiler.errorAt ?tok ?msg ?q1] =>
      destruct (Compiler.errorAt tok msg q1) as [[[] q2]|] eqn:Q;
        [|discriminate];
      pose proof (reported_errorAt e0 tok msg St (M E) q1 (tt, q2) H Q) as H2
    end.
    apply IH. exact H2. }
  intros H. unfold Compiler.advance. apply L. exact H.
Qed.

Lemma compile_loop_reported e0 fuel :
  keeps (fun p => reported e0 p /\ scanned (current (parser p)))
        (Compiler.compile_loop fuel).
Proof.
  apply keeps_compile_loop.
  - intros p r [H _] E. exact (reported_advance e0 p r H E).
  - intros msg Im p r [H St]. unfold Compiler.errorAtCurrent. intros E.
    split.
    + exact (reported_errorAt e0 _ msg St Im p r H E).
    + destruct (errorAt_effect (current (parser p)) msg p)
        as (p' & E' & _ & _ & _ & _ & _ & _ & C & _).
      rewrite E' in E. injection E as <-. cbn [snd]. rewrite C. exact St.
  - intros b l p r H [= <-]. exact H.
  - intros v p r H [= <-]. exact H.
  - intros t p r H [= <-]. exact H.
  - intros o p r H [= <-]. exact H.
Qed.

Lemma compile_stderr fuel source chunk p ok p' :
  Compiler.compile fuel source chunk p = Some (ok, p') ->
  ok = negb (hadError (parser p'))
  /\ hadError (parser p') = panicMode (parser p')
  /\ if ok then stderr p' = stderr p else one_report (stderr p) (stderr p').
Proof.
  intros C. destruct (compile_cases _ _ _ _ _ _ C) as (q1 & q2 & A & L & -> & ->).
  assert (R1 : reported (stderr p) q1 /\ scanned (current (parser q1))).
  { exact (reported_advance (stderr p) (primed source chunk p) (tt, q1)
             (conj eq_refl eq_refl) A). }
  pose proof (compile_loop_reported _ fuel _ _ R1 L) as [[F R2] _].
  cbn [snd] in F, R2. cbn [stderr parser set_compilingChunk].
  split; [reflexivity|]. split; [exact F|].
  destruct (hadError (parser q2)); exact R2.
Qed.

(** X8: a call of [compile] that returns has reported at most one
    error.  It returns true exactly when it wrote nothing to [stderr].
    When it returns false, what it wrote is what one call of [errorAt]
    writes and nothing more, however many errors follow the first:
    [stderr] has grown by [[line N] Error ...: message] for one token
    of the scanner and one of the thirteen messages of the compiler and
    the scanner, and no text follows a report in what was written.
    [panicMode] is set by the first report and never cleared, so that
    every later [errorAt] is silent. *)
Theorem compile_reports_at_most_once fuel source chunk p ok p' :
  Compiler.compile fuel source chunk p = Some (ok, p') ->
  ok = negb (hadError (parser p'))
  /\ hadError (parser p') = panicMode (parser p')
  /\ if ok then stderr p' = stderr p
     else (exists t msg,
              scanned t /\ In msg compiler_messages
              /\ stderr p' = stderr p ++ report t msg)
          /\ (forall t msg rest,
                scanned t -> In msg compiler_messages ->
                stderr p' = stderr p ++ report t msg ++ rest -> rest = "").
Proof.
  intros C. exact (compile_stderr _ _ _ _ _ _ C).
Qed.

(** Two statements without operand: only the first is reported. *)
Lemma compile_reports_at_most_once_witness :
  false = negb (hadError (parser (left_by
            (Compiler.compile 50 "print ; print ;" initChunk started))))
  /\ hadError (parser (left_by
       (Compiler.compile 50 "print ; print ;" initChunk started)))
     = panicMode (parser (left_by
         (Compiler.compile 50 "print ; print ;" initChunk started)))
  /\ one_report (stderr started)
       (stderr (left_by (Compiler.compile 50 "print ; print ;" initChunk
                                          started))).
Proof.
  apply (compile_reports_at_most_once 50 "print ; print ;" initChunk started
           false).
  vm_compute. reflexivity.
Defined.

(** ** [compile] returns at the end of the source *)

Lemma compile_loop_at_eof fuel : forall p r,
  Compiler.compile_loop fuel p = Some r -> at_eof (snd r).
Proof.
  induction fuel as [|fuel IH]; intros p r; [discriminate|].
  cbn [Compiler.compile_loop]. unfold Compiler.bind at 1.
  unfold Compiler.match_ at 1. unfold Compiler.bind at 1.
  cbn [Compiler.check Compiler.gets].
  unfold tt_eqb. destruct (TokenType_eq_dec _ _) as [E|E].
  - unfold Compiler.bind at 1.
    destruct (Compiler.advance p) as [[u q]|] eqn:A; [|discriminate].
    intros [= <-]. unfold at_eof.
    pose proof (advance_previous _ _ A) as K. cbn [snd] in K |- *.
    rewrite K. exact E.
  - cbn [Compiler.ret]. unfold Compiler.bind at 1.
    destruct (Compiler.declaration fuel p) as [[u q]|]; [|discriminate].
    apply IH.
Qed.

(** What the compiler leaves alone: the VM, the globals and [stdout]. *)
Lemma compile_frame fuel source chunk p ok p' :
  Compiler.compile fuel source chunk p = Some (ok, p') ->
  vm p' = vm p /\ globals p' = globals p /\ stdout p' = stdout p.
Proof.
  intros C. destruct (compile_cases _ _ _ _ _ _ C) as (q1 & q2 & A & L & -> & _).
  set (P := fun q => vm q = vm p /\ globals q = globals p
                     /\ stdout q = stdout p).
  assert (S1 : forall x q, P q -> P (set_parser x q)) by (intros x q H; exact H).
  assert (S2 : forall x q, P q -> P (set_scanner x q)) by (intros x q H; exact H).
  assert (S3 : forall x q, P q -> P (put_stderr x q)) by (intros x q H; exact H).
  assert (P1 : P q1).
  { apply (keeps_advance P S1 S2 S3 (primed source chunk p) (tt, q1));
      [repeat split | exact A]. }
  assert (P2 : P q2).
  { apply (keeps_compile_loop P) with (n := fuel) (p := q1) (r := (tt, q2));
      try assumption.
    - apply keeps_advance; assumption.
    - intros msg _. apply keeps_errorAtCurrent; assumption.
    - intros b l q r H [= <-]. exact H.
    - intros v q r H. unfold Compiler.addConstant.
      destruct (addConstant (compilingChunk q) v). intros [= <-]. exact H.
    - intros t q r H. unfold Compiler.identifierConstant, Compiler.bind,
        Compiler.addConstant. cbn [compilingChunk set_next_obj].
      match goal with |- context [addConstant ?c ?v] =>
        destruct (addConstant c v) end.
      intros [= <-]. exact H.
    - intros o q r H [= <-]. exact H. }
  exact P2.
Qed.

(** X9: [compile] returns only at the end of the source.  When it
    returns, after an error as well, the token last consumed is the end
    of the source, and the byte last written is [OP_RETURN]; the VM, the
    globals and [stdout] are as they were. *)
Theorem compile_returns_at_end_of_source fuel source chunk p ok p' :
  Compiler.compile fuel source chunk p = Some (ok, p') ->
  type (previous (parser p')) = TOKEN_EOF
  /\ (exists body, code (compilingChunk p') = (body ++ [op OP_RETURN])%list)
  /\ vm p' = vm p /\ globals p' = globals p /\ stdout p' = stdout p.
Proof.
  intros C. split; [|split; [|exact (compile_frame _ _ _ _ _ _ C)]];
    destruct (compile_cases _ _ _ _ _ _ C) as (q1 & q2 & A & L & -> & _).
  - exact (compile_loop_at_eof fuel q1 (tt, q2) L).
  - eexists. reflexivity.
Qed.

(** A statement with an error in the middle of the source. *)
Lemma compile_returns_at_end_of_source_witness :
  type (previous (parser (left_by
    (Compiler.compile 50 "print ; print 2;" initChunk started)))) = TOKEN_EOF
  /\ (exists body,
        code (compilingChunk (left_by
          (Compiler.compile 50 "print ; print 2;" initChunk started)))
        = (body ++ [op OP_RETURN])%list)
  /\ vm (left_by (Compiler.compile 50 "print ; print 2;" initChunk started))
     = vm started
  /\ globals (left_by (Compiler.compile 50 "print ; print 2;" initChunk started))
     = globals started
  /\ stdout (left_by (Compiler.compile 50 "print ; print 2;" initChunk started))
     = stdout started.
Proof.
  apply (compile_returns_at_end_of_source 50 "print ; print 2;" initChunk
           started false).
  vm_compute. reflexivity.
Defined.

(** ** Forward jumps *)

Lemma nth_error_store_same xs : forall i x,
  (i < List.length xs)%nat -> nth_error (store xs i x) i = Some x.
Proof.
  induction xs as [|a xs IH]; intros [|i] x H; simpl in *; try lia.
  - reflexivity.
  - apply IH. lia.
Qed.

Lemma nth_error_store_other xs : forall i j x,
  i <> j -> nth_error (store xs i x) j = nth_error xs j.
Proof.
  induction xs as [|a xs IH]; intros [|i] [|j] x H; simpl; try reflexivity.
  - contradiction.
  - apply IH. congruence.
Qed.

Lemma code_at_nth i b q :
  0 <= i -> nth_error (code (chunk (vm q))) (Z.to_nat i) = Some b ->
  Vm.code_at i q = Vm.Ok b q.
Proof.
  intros P N. unfold Vm.code_at. rewrite N.
  assert (L : i < count (chunk (vm q))).
  { unfold count.
    assert (Z.to_nat i < List.length (code (chunk (vm q))))%nat
      by (apply nth_error_Some; congruence). lia. }
  apply Z.ltb_lt in L. apply Z.leb_le in P. rewrite L, P. reflexivity.
Qed.

(** X10: a patched forward jump lands on the byte emitted next.  After
    [patchJump(offset)] on the operand of a jump that lies within the
    code, with fewer than 65536 bytes after the operand, the VM that
    reads the operand at [offset] with [READ_SHORT] and adds it to [ip]
    is at the end of the code as it was when the jump was patched.  The
    patch leaves the length of the code and every other byte as they
    were. *)
Theorem patched_jump_reaches_end offset p p' q :
  0 <= offset -> offset + 2 <= count (compilingChunk p) ->
  count (compilingChunk p) - offset - 2 < 65536 ->
  Compiler.patchJump offset p = Some (tt, p') ->
  chunk (vm q) = compilingChunk p' -> ip (vm q) = offset ->
  exists operand q',
    Vm.READ_SHORT q = Vm.Ok operand q'
    /\ ip (vm q') + operand = count (compilingChunk p)
    /\ count (compilingChunk p') = count (compilingChunk p)
    /\ forall i, i <> Z.to_nat offset -> i <> Z.to_nat (offset + 1) ->
         nth_error (code (compilingChunk p')) i
         = nth_error (code (compilingChunk p)) i.
Proof.
  intros P B S. unfold Compiler.patchJump, Compiler.bind, Compiler.chunk_count.
  cbn [Compiler.gets Compiler.modify]. intros [= <-] C I.
  cbn [compilingChunk set_compilingChunk store_code code] in C.
  set (jump := count (compilingChunk p) - offset - 2) in *.
  assert (Lc : Z.of_nat (List.length (code (compilingChunk p)))
               = count (compilingChunk p)) by reflexivity.
  assert (N1 : nth_error (code (chunk (vm q))) (Z.to_nat offset)
               = Some (hi_byte jump)).
  { rewrite C. unfold store_code. cbn [code].
    rewrite nth_error_store_other by lia.
    apply nth_error_store_same. lia. }
  assert (N2 : nth_error (code (chunk (vm q))) (Z.to_nat (offset + 1))
               = Some (lo_byte jump)).
  { rewrite C. unfold store_code. cbn [code].
    apply nth_error_store_same. rewrite length_store. lia. }
  exists (jump mod 65536), (Vm.set_ip (offset + 2) q).
  split.
  - assert (P1 : 0 <= offset + 1) by lia.
    unfold Vm.READ_SHORT, Vm.bind. rewrite I.
    rewrite (code_at_nth offset _ q P N1).
    rewrite (code_at_nth (offset + 1) _ q P1 N2).
    rewrite I. fold (short (hi_byte jump) (lo_byte jump)).
    rewrite short_hi_lo. reflexivity.
  - split.
    { cbn [Vm.set_ip set_vm vm ip]. rewrite Z.mod_small by (unfold jump; lia).
      unfold jump. lia. }
    split.
    { unfold count. cbn [compilingChunk set_compilingChunk store_code code].
      rewrite !length_store. reflexivity. }
    intros i H1 H2. cbn [compilingChunk set_compilingChunk store_code code].
    rewrite !nth_error_store_other by congruence. reflexivity.
Qed.

(** The jump of [jump_chunk], patched when two bytes follow its operand. *)
Lemma patched_jump_reaches_end_witness :
  exists operand q',
    Vm.READ_SHORT
      (set_vm (mkVM (compilingChunk
                       (left_by (Compiler.patchJump 1
                                   (set_compilingChunk jump_chunk started))))
                    1 [] BLOCK_NULL 0) started)
    = Vm.Ok operand q'
    /\ ip (vm q') + operand
       = count (compilingChunk (set_compilingChunk jump_chunk started))
    /\ count (compilingChunk
                (left_by (Compiler.patchJump 1
                            (set_compilingChunk jump_chunk started))))
       = count (compilingChunk (set_compilingChunk jump_chunk started))
    /\ forall i, i <> Z.to_nat 1 -> i <> Z.to_nat (1 + 1) ->
         nth_error
           (code (compilingChunk
                    (left_by (Compiler.patchJump 1
                                (set_compilingChunk jump_chunk started))))) i
         = nth_error
             (code (compilingChunk (set_compilingChunk jump_chunk started))) i.
Proof.
  apply (patched_jump_reaches_end 1 (set_compilingChunk jump_chunk started)).
  - lia.
  - vm_compute. discriminate.
  - vm_compute. reflexivity.
  - reflexivity.
  - reflexivity.
  - reflexivity.
Defined.

(** ** A source of blanks *)

Lemma scanToken_only_blanks s :
  only_blanks s ->
  Scanner.scanToken s
  = (Scanner.makeToken TOKEN_EOF (at_end_of s), at_end_of s).
Proof.
  unfold only_blanks, Scanner.scanToken, at_end_of. intros B.
  unfold Scanner.isAtEnd, Scanner.peek in *. cbn [Scanner.current]. rewrite B.
  reflexivity.
Qed.

Lemma skipWhitespace_at_end s :
  Scanner.isAtEnd s = true ->
  Scanner.skipWhitespace s
  = Scanner.mkState (Scanner.start s) (Scanner.current s) (Scanner.line s).
Proof.
  unfold Scanner.isAtEnd, Scanner.peek, Scanner.skipWhitespace.
  destruct (Scanner.current s) as [|c rest]; [reflexivity|].
  intros E. change (Ascii.eqb c NUL = true) in E. apply Ascii.eqb_eq in E.
  subst c. reflexivity.
Qed.

Lemma only_blanks_at_end_of s :
  only_blanks s ->
  only_blanks (at_end_of s) /\ at_end_of (at_end_of s) = at_end_of s.
Proof.
  unfold only_blanks. intros B.
  assert (E : Scanner.isAtEnd (at_end_of s) = true) by exact B.
  pose proof (skipWhitespace_at_end _ E) as K.
  split.
  - rewrite K. exact E.
  - unfold at_end_of at 1. rewrite K. reflexivity.
Qed.

Lemma advance_only_blanks p :
  only_blanks (scanner p) ->
  Compiler.advance p
  = Some (tt, set_parser
                (mkParser (Scanner.makeToken TOKEN_EOF (at_end_of (scanner p)))
                          (current (parser p))
                          (hadError (parser p)) (panicMode (parser p)))
                (set_scanner (at_end_of (scanner p)) p)).
Proof.
  intros B. unfold Compiler.advance.
  cbn [Nat.add Compiler.advance_loop scanner set_parser].
  rewrite (scanToken_only_blanks _ B). reflexivity.
Qed.

Lemma compile_only_blanks fuel source chunk p :
  only_blanks (Scanner.initScanner source) ->
  exists p1,
    Compiler.compile (S fuel) source chunk p = Some (true, p1)
    /\ code (compilingChunk p1) = (code chunk ++ [op OP_RETURN])%list
    /\ vm p1 = vm p /\ globals p1 = globals p
    /\ stdout p1 = stdout p /\ stderr p1 = stderr p.
Proof.
  intros B. destruct (only_blanks_at_end_of _ B) as [B2 E2].
  unfold Compiler.compile.
  do 3 (unfold Compiler.bind at 1; cbn [Compiler.modify]).
  unfold Compiler.bind at 1. rewrite advance_only_blanks by exact B.
  cbn [Compiler.compile_loop]. unfold Compiler.bind at 1.
  unfold Compiler.bind at 1. unfold Compiler.match_ at 1.
  unfold Compiler.bind at 1.
  cbn [Compiler.check Compiler.gets parser set_parser set_scanner current type
       Scanner.makeToken].
  change (tt_eqb TOKEN_EOF TOKEN_EOF) with true. cbv iota.
  unfold Compiler.bind at 1. rewrite advance_only_blanks by exact B2.
  cbn [Compiler.ret].
  eexists. split; [reflexivity|]. repeat split.
Qed.

(** ** Texts of blanks *)

(** Inside a comment whose text holds no newline, [skipWhitespace]
    stops at a NUL or goes on to what follows the text. *)
Lemma skipWhitespace_at_comment : forall body rest ln,
  newlines body = 0 ->
  Ascii.eqb (char_at (fst (Scanner.skipWhitespace_at true (body ++ rest) ln)) 0)
            NUL = true
  \/ Scanner.skipWhitespace_at true (body ++ rest) ln
     = Scanner.skipWhitespace_at true rest ln.
Proof.
  induction body as [|c body IH]; intros rest ln N; [right; reflexivity|].
  cbn [newlines] in N. pose proof (newlines_nonneg body) as P.
  destruct (Ascii.eqb c LF) eqn:E; [lia|].
  cbn [append Scanner.skipWhitespace_at]. rewrite E.
  destruct (Ascii.eqb c NUL) eqn:Z; [left; exact Z|].
  apply IH. lia.
Qed.

(** [skipWhitespace] passes a text of blanks to its end. *)
Lemma skipWhitespace_at_blank s :
  blank s ->
  forall ln,
    Ascii.eqb (char_at (fst (Scanner.skipWhitespace_at false s ln)) 0) NUL
    = true.
Proof.
  induction 1 as [|c s W B IH|body N|body s N B IH]; intros ln.
  - reflexivity.
  - cbn [Scanner.skipWhitespace_at]. unfold whitespace in W.
    destruct (Ascii.eqb c " " || Ascii.eqb c CR || Ascii.eqb c TAB);
      [apply IH|].
    cbn [orb] in W. rewrite W. apply IH.
  - change (Scanner.skipWhitespace_at false ("//" ++ body) ln)
      with (Scanner.skipWhitespace_at true body ln).
    destruct (skipWhitespace_at_comment body "" ln N) as [E|E];
      rewrite append_nil_r in E; [exact E|].
    rewrite E. reflexivity.
  - change (Scanner.skipWhitespace_at false ("//" ++ body ++ String LF s) ln)
      with (Scanner.skipWhitespace_at true (body ++ String LF s) ln).
    destruct (skipWhitespace_at_comment body (String LF s) ln N) as [E|E];
      [exact E|].
    rewrite E.
    change (Scanner.skipWhitespace_at true (String LF s) ln)
      with (Scanner.skipWhitespace_at false s (ln + 1)).
    apply IH.
Qed.

Lemma blank_only_blanks source :
  blank source -> only_blanks (Scanner.initScanner source).
Proof.
  intros B. unfold only_blanks, Scanner.isAtEnd, Scanner.peek,
    Scanner.skipWhitespace, Scanner.initScanner.
  cbn [Scanner.current Scanner.line Scanner.start].
  pose proof (skipWhitespace_at_blank source B 1) as K.
  destruct (Scanner.skipWhitespace_at false source 1) as [cur ln].
  exact K.
Qed.

(** X11: a source of blanks and comments is the empty program.  For a
    source that holds nothing but spaces, carriage returns, tabs,
    newlines and comments from [//] to the end of their line or of the
    source (the empty source is one), [compile] returns true with the
    single byte [OP_RETURN], and [interpret] returns [INTERPRET_OK]
    with any fuel but none, having written nothing and left the
    globals and the stack as they were. *)
Theorem blank_source_runs_nothing fuel source p :
  blank source ->
  exists p1 p',
    Compiler.compile (S fuel) source initChunk p = Some (true, p1)
    /\ code (compilingChunk p1) = [op OP_RETURN]
    /\ Vm.interpret (S fuel) source p = Some (Returned INTERPRET_OK, p')
    /\ stdout p' = stdout p /\ stderr p' = stderr p
    /\ globals p' = globals p /\ stack (vm p') = stack (vm p).
Proof.
  intros B0. pose proof (blank_only_blanks source B0) as B.
  destruct (compile_only_blanks fuel source initChunk p B)
    as (p1 & C & K & V & G & O & E).
  exists p1. unfold Vm.interpret. rewrite C.
  cbn [Vm.run]. unfold Vm.step, Vm.READ_BYTE.
  unfold Vm.bind at 1. unfold Vm.bind at 1. unfold Vm.code_at, count.
  cbn [vm set_vm chunk ip]. rewrite K.
  cbn [List.length Z.of_nat Z.leb Z.ltb Z.compare andb Z.to_nat nth_error app
       code initChunk].
  change (0 <? Z.pos (Pos.of_succ_nat 0)) with true.
  cbn [andb]. rewrite decode_op. cbv iota. unfold Vm.return_.
  eexists. split; [reflexivity|]. split; [reflexivity|].
  split; [reflexivity|]. cbn. rewrite V. repeat split; assumption.
Qed.

(** A source of a space, a tab, a comment, a newline, a carriage return
    and a last comment. *)
Lemma blank_source_runs_nothing_witness :
  exists p1 p',
    Compiler.compile 1 (String " " (String TAB ("// nothing" ++ newline
                          ++ String CR "// more")))
                     initChunk started
    = Some (true, p1)
    /\ code (compilingChunk p1) = [op OP_RETURN]
    /\ Vm.interpret 1 (String " " (String TAB ("// nothing" ++ newline
                          ++ String CR "// more")))
                    started
       = Some (Returned INTERPRET_OK, p')
    /\ stdout p' = stdout started /\ stderr p' = stderr started
    /\ globals p' = globals started /\ stack (vm p') = stack (vm started).
Proof.
  apply (blank_source_runs_nothing 0
           (String " " (String TAB ("// nothing" ++ newline
              ++ String CR "// more")))
           started).
  apply blank_space; [reflexivity|].
  apply blank_space; [reflexivity|].
  apply (blank_comment " nothing" (String CR "// more")); [reflexivity|].
  apply blank_space; [reflexivity|].
  apply (blank_last_comment " more"). reflexivity.
Defined.

(* ================================================================== *)
(** * Further properties: the VM *)
(* ================================================================== *)

Lemma vkeeps_ret {A} P R (x : A) : vkeeps P R (Vm.ret x).
Proof. intros p H. exact H. Qed.

Lemma vkeeps_bind {A B} P R (c : Vm.V A) (k : A -> Vm.V B) :
  vkeeps P R c -> (forall x, vkeeps P R (k x)) -> vkeeps P R (Vm.bind c k).
Proof.
  intros Hc Hk p H. unfold Vm.bind. specialize (Hc p H).
  destruct (c p) as [x p1|o p1]; [apply Hk, Hc | exact Hc].
Qed.

(** ** What the reads of an instruction tell *)

Lemma decode_Some b o : decode b = Some o -> b = op o.
Proof.
  unfold decode. intros F. apply find_some in F. destruct F as [_ F].
  apply Z.eqb_eq in F. symmetry. exact F.
Qed.

Lemma READ_BYTE_Ok p b q :
  Vm.READ_BYTE p = Vm.Ok b q ->
  q = Vm.set_ip (ip (vm p) + 1) p
  /\ 0 <= ip (vm p)
  /\ nth_error (code (chunk (vm p))) (Z.to_nat (ip (vm p))) = Some b.
Proof.
  unfold Vm.READ_BYTE, Vm.bind, Vm.code_at.
  destruct (Z.leb_spec 0 (ip (vm p))); cbn [andb]; [|discriminate].
  destruct (_ <? _); [|discriminate].
  destruct (nth_error _ _) as [x|]; [|discriminate].
  intros [= <- <-]. repeat split. assumption.
Qed.

Lemma getConstantName_Ok k p name q :
  Vm.getConstantName k p = Vm.Ok name q ->
  q = p
  /\ forall n, name = Some n ->
        nth_error (values (constants (chunk (vm p)))) (Z.to_nat k)
        = Some (OBJ_VAL n).
Proof.
  unfold Vm.getConstantName, Vm.bind, Vm.constant_at, Vm.ret.
  destruct (nth_error _ _) as [v|]; [|discriminate].
  intros [= <- <-]. split; [reflexivity|]. intros n E.
  destruct v; try discriminate E. injection E as ->. reflexivity.
Qed.

Lemma pop_Ok p v q :
  Vm.pop p = Vm.Ok v q ->
  chunk (vm q) = chunk (vm p) /\ ip (vm q) = ip (vm p).
Proof.
  unfold Vm.pop. destruct (stack (vm p)) as [|x rest]; [discriminate|].
  unfold Vm.bind, Vm.stack_access, Vm.ret.
  cbn [vm Vm.set_stack set_vm stackBlock].
  destruct (stackBlock (vm p)); try discriminate.
  intros [= _ <-]. split; reflexivity.
Qed.

(** ** A property that the primitives keep is kept by a whole run *)

Section StepKeeps.
Variable P : Process -> Prop.
Variable R : Outcome -> Process -> Prop.
Hypothesis P_vm :
  forall m p, P p -> chunk m = chunk (vm p) -> P (set_vm m p).
Hypothesis P_print :
  forall v p, P p -> P (put_stdout newline (put_stdout (printValue v) p)).
Hypothesis P_global :
  forall n v p, P p -> P (set_globals (Vm.setGlobal (globals p) n v) p).
Hypothesis R_fault : forall f p, P p -> R (Faulted f) p.
Hypothesis R_ok : forall p, P p -> R (Returned INTERPRET_OK) p.
Hypothesis R_error :
  forall msg p, P p -> raised (chunk (vm p)) (ip (vm p)) msg ->
    R (Returned INTERPRET_RUNTIME_ERROR) (put_stderr (diagnostic msg) p).

Lemma vkeeps_fault {A} f : vkeeps P R (@Vm.fault A f).
Proof. intros p H. apply R_fault, H. Qed.

Lemma vkeeps_fail {A} msg :
  In msg runtime_messages -> vkeeps P R (@Vm.fail A msg).
Proof. intros Im p H. apply R_error; [exact H | left; exact Im]. Qed.

Lemma fail_undefined_raised {A} name p :
  P p ->
  (forall n, name = Some n ->
             raised (chunk (vm p)) (ip (vm p)) (Vm.undefined_variable n)) ->
  match @Vm.fail_undefined A name p with
  | Vm.Ok _ q => P q
  | Vm.Stop o q => R o q
  end.
Proof.
  intros H N. destruct name as [n|]; [|apply R_fault, H].
  apply R_error; [exact H | apply N; reflexivity].
Qed.

Lemma vkeeps_stack_access : vkeeps P R Vm.stack_access.
Proof.
  intros p H. unfold Vm.stack_access.
  destruct (stackBlock (vm p)); try exact H; apply R_fault, H.
Qed.

Lemma vkeeps_push v : vkeeps P R (Vm.push v).
Proof.
  unfold Vm.push. apply vkeeps_bind.
  - intros p H. destruct (_ <? _); [|exact H].
    destruct (stackBlock (vm p)); try (apply P_vm; [exact H | reflexivity]).
    apply R_fault, H.
  - intros _. apply vkeeps_bind; [apply vkeeps_stack_access|].
    intros _ p H. apply P_vm; [exact H | reflexivity].
Qed.

Lemma vkeeps_pop : vkeeps P R Vm.pop.
Proof.
  intros p H. unfold Vm.pop. destruct (stack (vm p)); [apply R_fault, H|].
  apply (vkeeps_bind P R Vm.stack_access (fun _ => Vm.ret v)).
  - apply vkeeps_stack_access.
  - intros _. apply vkeeps_ret.
  - apply P_vm; [exact H | reflexivity].
Qed.

Lemma vkeeps_peek d : vkeeps P R (Vm.peek d).
Proof.
  intros p H. unfold Vm.peek. destruct (nth_error _ _); [|apply R_fault, H].
  apply (vkeeps_bind P R Vm.stack_access (fun _ => Vm.ret v)).
  - apply vkeeps_stack_access.
  - intros _. apply vkeeps_ret.
  - exact H.
Qed.

Lemma vkeeps_code_at i : vkeeps P R (Vm.code_at i).
Proof.
  intros p H. unfold Vm.code_at.
  destruct (_ && _); [destruct (nth_error _ _)|]; try exact H; apply R_fault, H.
Qed.

Lemma vkeeps_READ_BYTE : vkeeps P R Vm.READ_BYTE.
Proof.
  intros p H. unfold Vm.READ_BYTE.
  apply (vkeeps_bind P R (Vm.code_at (ip (vm p))));
    [apply vkeeps_code_at| |exact H].
  intros b q Hq. apply P_vm; [exact Hq | reflexivity].
Qed.

Lemma vkeeps_READ_SHORT : vkeeps P R Vm.READ_SHORT.
Proof.
  intros p H. unfold Vm.READ_SHORT.
  apply (vkeeps_bind P R (Vm.code_at (ip (vm p))));
    [apply vkeeps_code_at| |exact H].
  intros hi. apply vkeeps_bind; [apply vkeeps_code_at|].
  intros lo q Hq. apply P_vm; [exact Hq | reflexivity].
Qed.

Lemma vkeeps_constant_at i : vkeeps P R (Vm.constant_at i).
Proof.
  intros p H. unfold Vm.constant_at.
  destruct (nth_error _ _); [exact H | apply R_fault, H].
Qed.

Lemma vkeeps_jump d : vkeeps P R (Vm.jump d).
Proof. intros p H. apply P_vm; [exact H | reflexivity]. Qed.

Lemma vkeeps_as_number v : vkeeps P R (Vm.as_number v).
Proof.
  unfold Vm.as_number. destruct (AS_NUMBER v);
    [apply vkeeps_ret | apply vkeeps_fault].
Qed.

Ltac vkeep :=
  repeat lazymatch goal with
    | |- vkeeps _ _ (Vm.bind _ _) => apply vkeeps_bind; [|intros ?]
    | |- vkeeps _ _ (Vm.ret _) => apply vkeeps_ret
    | |- vkeeps _ _ (Vm.fault _) => apply vkeeps_fault
    | |- vkeeps _ _ (Vm.fail _) => apply vkeeps_fail; in_list
    | |- vkeeps _ _ (Vm.push _) => apply vkeeps_push
    | |- vkeeps _ _ Vm.pop => apply vkeeps_pop
    | |- vkeeps _ _ (Vm.peek _) => apply vkeeps_peek
    | |- vkeeps _ _ Vm.READ_BYTE => apply vkeeps_READ_BYTE
    | |- vkeeps _ _ Vm.READ_SHORT => apply vkeeps_READ_SHORT
    | |- vkeeps _ _ (Vm.constant_at _) => apply vkeeps_constant_at
    | |- vkeeps _ _ (Vm.jump _) => apply vkeeps_jump
    | |- vkeeps _ _ (Vm.as_number _) => apply vkeeps_as_number
    | |- vkeeps _ _ (if ?b then _ else _) => destruct b
    end.

Lemma vkeeps_IS_NUMBER_peek d : vkeeps P R (Vm.IS_NUMBER_peek d).
Proof. unfold Vm.IS_NUMBER_peek. vkeep. Qed.

Lemma vkeeps_BINARY_OP f : vkeeps P R (Vm.BINARY_OP f).
Proof.
  unfold Vm.BINARY_OP.
  apply vkeeps_bind; [apply vkeeps_IS_NUMBER_peek|]. intros n0.
  apply vkeeps_bind;
    [destruct n0; [apply vkeeps_IS_NUMBER_peek | apply vkeeps_ret]|].
  intros ok. vkeep.
Qed.

Lemma vkeeps_getConstantName k : vkeeps P R (Vm.getConstantName k).
Proof. unfold Vm.getConstantName. vkeep. Qed.

(** One instruction keeps [P], and establishes [R] if it stops. *)
Lemma vkeeps_step : vkeeps P R Vm.step.
Proof.
  intros p H. unfold Vm.step. unfold Vm.bind at 1.
  pose proof (vkeeps_READ_BYTE p H) as S0.
  destruct (Vm.READ_BYTE p) as [instruction q|o q] eqn:E0; [|exact S0].
  destruct (READ_BYTE_Ok _ _ _ E0) as (Q0 & I0 & N0).
  destruct (decode instruction) as [[]|] eqn:D; unfold Vm.READ_CONSTANT;
    try (refine ((_ : vkeeps P R _) q S0); vkeep; fail); try exact S0.
  - (* OP_GET_GLOBAL *)
    apply decode_Some in D. unfold Vm.bind at 1.
    pose proof (vkeeps_READ_BYTE q S0) as S1.
    destruct (Vm.READ_BYTE q) as [k q1|o q1] eqn:E1; [|exact S1].
    destruct (READ_BYTE_Ok _ _ _ E1) as (Q1 & I1 & N1).
    unfold Vm.bind at 1.
    pose proof (vkeeps_getConstantName k q1 S1) as S2.
    destruct (Vm.getConstantName k q1) as [name q2|o q2] eqn:E2; [|exact S2].
    destruct (getConstantName_Ok _ _ _ _ E2) as (Q2 & N2).
    destruct (Vm.getGlobal (globals q2) name); [apply vkeeps_push; exact S2|].
    apply fail_undefined_raised; [exact S2|].
    intros n En. right. exists OP_GET_GLOBAL, k, n.
    specialize (N2 n En). subst q2 q1 q instruction.
    cbn [vm Vm.set_ip set_vm chunk ip] in *.
    replace (ip (vm p) + 1 + 1 - 2) with (ip (vm p)) by lia.
    replace (ip (vm p) + 1 + 1 - 1) with (ip (vm p) + 1) by lia.
    repeat split; try assumption; try lia. left. reflexivity.
  - (* OP_DEFINE_GLOBAL *)
    refine ((_ : vkeeps P R _) q S0).
    apply vkeeps_bind; [apply vkeeps_READ_BYTE|]. intros k.
    apply vkeeps_bind; [apply vkeeps_getConstantName|]. intros name.
    apply vkeeps_bind; [apply vkeeps_peek|]. intros v.
    apply vkeeps_bind; [intros p0 H0; apply P_global, H0|]. intros _. vkeep.
  - (* OP_SET_GLOBAL *)
    apply decode_Some in D. unfold Vm.bind at 1.
    pose proof (vkeeps_READ_BYTE q S0) as S1.
    destruct (Vm.READ_BYTE q) as [k q1|o q1] eqn:E1; [|exact S1].
    destruct (READ_BYTE_Ok _ _ _ E1) as (Q1 & I1 & N1).
    unfold Vm.bind at 1.
    pose proof (vkeeps_getConstantName k q1 S1) as S2.
    destruct (Vm.getConstantName k q1) as [name q2|o q2] eqn:E2; [|exact S2].
    destruct (getConstantName_Ok _ _ _ _ E2) as (Q2 & N2).
    unfold Vm.bind at 1.
    pose proof (vkeeps_pop q2 S2) as S3.
    destruct (Vm.pop q2) as [v q3|o q3] eqn:E3; [|exact S3].
    destruct (pop_Ok _ _ _ E3) as (C3 & I3).
    destruct (Vm.getGlobal (globals q3) name);
      [apply vkeeps_push, P_global, S3|].
    apply fail_undefined_raised; [exact S3|].
    intros n En. right. exists OP_SET_GLOBAL, k, n.
    specialize (N2 n En). rewrite C3, I3. subst q2 q1 q instruction.
    cbn [vm Vm.set_ip set_vm chunk ip] in *.
    replace (ip (vm p) + 1 + 1 - 2) with (ip (vm p)) by lia.
    replace (ip (vm p) + 1 + 1 - 1) with (ip (vm p) + 1) by lia.
    repeat split; try assumption; try lia. right. reflexivity.
  - (* OP_GREATER *) refine ((_ : vkeeps P R _) q S0). apply vkeeps_BINARY_OP.
  - (* OP_LESS *) refine ((_ : vkeeps P R _) q S0). apply vkeeps_BINARY_OP.
  - (* OP_ADD *)
    refine ((_ : vkeeps P R _) q S0).
    apply vkeeps_bind; [apply vkeeps_IS_NUMBER_peek|]. intros n0.
    apply vkeeps_bind;
      [destruct n0; [apply vkeeps_IS_NUMBER_peek | apply vkeeps_ret]|].
    intros ok. vkeep.
  - (* OP_SUBTRACT *) refine ((_ : vkeeps P R _) q S0). apply vkeeps_BINARY_OP.
  - (* OP_MULTIPLY *) refine ((_ : vkeeps P R _) q S0). apply vkeeps_BINARY_OP.
  - (* OP_DIVIDE *)
    refine ((_ : vkeeps P R _) q S0).
    apply vkeeps_bind; [apply vkeeps_peek|]. intros v.
    apply vkeeps_bind; [apply vkeeps_as_number|]. intros d.
    destruct (PrimFloat.eqb d _);
      [apply vkeeps_fail; in_list | apply vkeeps_BINARY_OP].
  - (* OP_NEGATE *)
    refine ((_ : vkeeps P R _) q S0).
    apply vkeeps_bind; [apply vkeeps_IS_NUMBER_peek|]. intros n0. vkeep.
  - (* OP_PRINT *)
    refine ((_ : vkeeps P R _) q S0).
    apply vkeeps_bind; [apply vkeeps_pop|]. intros v p0 H0. apply P_print, H0.
  - (* OP_RETURN *) apply R_ok, S0.
Qed.

Lemma run_keeps fuel : forall p o p',
  P p -> Vm.run fuel p = Some (o, p') -> R o p'.
Proof.
  induction fuel as [|fuel IH]; intros p o p' H; [discriminate|].
  cbn [Vm.run]. pose proof (vkeeps_step p H) as S.
  destruct (Vm.step p) as [u q|o' q]; [apply IH, S|].
  intros [= <- <-]. exact S.
Qed.

End StepKeeps.

(** ** What a run writes *)

Lemma run_stderr fuel p o p' :
  Vm.run fuel p = Some (o, p') ->
  match o with
  | Returned INTERPRET_RUNTIME_ERROR =>
      exists msg,
        raised (chunk (vm p)) (ip (vm p')) msg
        /\ stderr p' = stderr p ++ diagnostic msg
  | Returned INTERPRET_COMPILE_ERROR => False
  | _ => stderr p' = stderr p
  end.
Proof.
  apply (run_keeps
           (fun q => stderr q = stderr p /\ chunk (vm q) = chunk (vm p))
           (fun o q => match o with
                       | Returned INTERPRET_RUNTIME_ERROR =>
                           exists msg,
                             raised (chunk (vm p)) (ip (vm q)) msg
                             /\ stderr q = stderr p ++ diagnostic msg
                       | Returned INTERPRET_COMPILE_ERROR => False
                       | _ => stderr q = stderr p
                       end)).
  - intros m q [H1 H2] C. split; [exact H1|]. cbn [vm set_vm].
    rewrite C. exact H2.
  - intros v q H. exact H.
  - intros n v q H. exact H.
  - intros f q [H _]. exact H.
  - intros q [H _]. exact H.
  - intros msg q [H1 H2] Rm. exists msg. rewrite H2 in Rm.
    cbn [stderr put_stderr vm]. rewrite H1. split; [exact Rm | reflexivity].
  - split; reflexivity.
Qed.

(** A diagnostic of one line followed by more is not a diagnostic. *)
Lemma diagnostic_alone msg m rest :
  newlines msg = 0 -> diagnostic msg = diagnostic m ++ rest -> rest = "".
Proof.
  intros N E. apply occurs_newlines in N. unfold diagnostic in E.
  rewrite !append_assoc in E. apply app_inv_head in E.
  unfold newline in E. cbn [append] in E.
  destruct (app_first LF msg m "" rest N E) as [[_ H]|[z ->]]; [exact H|].
  rewrite append_assoc in E. apply app_inv_head in E. cbn [append] in E.
  injection E as E. destruct z; discriminate E.
Qed.

Lemma run_stdout fuel p o p' :
  Vm.run fuel p = Some (o, p') ->
  exists vs, stdout p' = stdout p ++ text (map printValue vs).
Proof.
  apply (run_keeps
           (fun q => exists vs, stdout q = stdout p ++ text (map printValue vs))
           (fun _ q => exists vs, stdout q = stdout p ++ text (map printValue vs))).
  - intros m q H _. exact H.
  - intros v q [vs H]. exists (vs ++ [v])%list.
    cbn [stdout put_stdout]. rewrite H, map_app, text_app. cbn [map text].
    rewrite !append_assoc, append_nil_r. reflexivity.
  - intros n v q H. exact H.
  - intros f q H. exact H.
  - intros q H. exact H.
  - intros msg q H _. exact H.
  - exists []. cbn [map text]. rewrite append_nil_r. reflexivity.
Qed.

(** ** What a run does to the globals *)

Lemma overwrite_defined gs m v gs' n :
  Vm.overwrite gs m v = Some gs' ->
  Vm.getGlobal gs n <> None -> Vm.getGlobal gs' n <> None.
Proof.
  revert gs'. induction gs as [|[k w] gs IH]; simpl; intros gs' O;
    [discriminate|].
  destruct (Vm.stringsEqual k m).
  - injection O as <-. simpl. destruct (Vm.stringsEqual k n); [discriminate|].
    intros H. exact H.
  - destruct (Vm.overwrite gs m v) as [r|]; [|discriminate].
    injection O as <-. simpl. destruct (Vm.stringsEqual k n); [discriminate|].
    apply IH. reflexivity.
Qed.

Lemma overwrite_length gs m v gs' :
  Vm.overwrite gs m v = Some gs' -> List.length gs' = List.length gs.
Proof.
  revert gs'. induction gs as [|[k w] gs IH]; simpl; intros gs' O;
    [discriminate|].
  destruct (Vm.stringsEqual k m).
  - injection O as <-. reflexivity.
  - destruct (Vm.overwrite gs m v) as [r|]; [|discriminate].
    injection O as <-. simpl. rewrite (IH r eq_refl). reflexivity.
Qed.

Lemma getGlobal_app_defined gs e n :
  Vm.getGlobal gs n <> None -> Vm.getGlobal (gs ++ [e])%list n <> None.
Proof.
  induction gs as [|[k w] gs IH]; simpl; [congruence|].
  destruct (Vm.stringsEqual k n); [discriminate | exact IH].
Qed.

Lemma setGlobal_defined gs m v n :
  Vm.getGlobal gs n <> None -> Vm.getGlobal (Vm.setGlobal gs m v) n <> None.
Proof.
  intros H. unfold Vm.setGlobal.
  destruct (Vm.overwrite gs m v) as [gs'|] eqn:O.
  - eapply overwrite_defined; eassumption.
  - destruct (_ <? _); [apply getGlobal_app_defined, H | exact H].
Qed.

Lemma setGlobal_bounded gs m v :
  Vm.globalCount gs <= MAX_GLOBALS ->
  Vm.globalCount (Vm.setGlobal gs m v) <= MAX_GLOBALS.
Proof.
  unfold Vm.setGlobal, Vm.globalCount. intros H.
  destruct (Vm.overwrite gs m v) as [gs'|] eqn:O.
  - rewrite (overwrite_length _ _ _ _ O). exact H.
  - destruct (Z.ltb_spec (Z.of_nat (List.length gs)) MAX_GLOBALS); [|exact H].
    rewrite length_app. simpl. lia.
Qed.

Lemma run_globals fuel p o p' n :
  Vm.run fuel p = Some (o, p') ->
  (Vm.getGlobal (globals p) n <> None -> Vm.getGlobal (globals p') n <> None)
  /\ (Vm.globalCount (globals p) <= MAX_GLOBALS ->
      Vm.globalCount (globals p') <= MAX_GLOBALS).
Proof.
  intros E.
  set (P := fun q : Process =>
    (Vm.getGlobal (globals p) n <> None -> Vm.getGlobal (globals q) n <> None)
    /\ (Vm.globalCount (globals p) <= MAX_GLOBALS ->
        Vm.globalCount (globals q) <= MAX_GLOBALS)).
  refine (run_keeps P (fun _ q => P q) _ _ _ _ _ _ fuel p o p' _ E).
  - intros m q H _. exact H.
  - intros v q H. exact H.
  - intros k v q [H1 H2]. split; intros H; cbn [globals set_globals].
    + apply setGlobal_defined, H1, H.
    + apply setGlobal_bounded, H2, H.
  - intros f q H. exact H.
  - intros q H. exact H.
  - intros msg q H _. exact H.
  - split; intros H; exact H.
Qed.

(** ** Whole calls of [interpret] *)

(** The two ways in which [interpret] returns. *)
Lemma interpret_cases fuel source p o p' :
  Vm.interpret fuel source p = Some (o, p') ->
  (exists p1,
     Compiler.compile fuel source initChunk p = Some (false, p1)
     /\ o = Returned INTERPRET_COMPILE_ERROR /\ p' = Vm.freeChunk p1)
  \/ (exists p1 p3,
        Compiler.compile fuel source initChunk p = Some (true, p1)
        /\ Vm.run fuel (loaded p1) = Some (o, p3) /\ p' = Vm.freeChunk p3).
Proof.
  unfold Vm.interpret.
  destruct (Compiler.compile fuel source initChunk p) as [[[] p1]|];
    [| |discriminate].
  - fold (loaded p1).
    destruct (Vm.run fuel (loaded p1)) as [[o3 p3]|] eqn:R; [|discriminate].
    intros [= <- <-]. right. exists p1, p3. repeat split. exact R.
  - intros [= <- <-]. left. exists p1. repeat split.
Qed.

(** X12: a compile error runs nothing.  When [interpret] returns
    [INTERPRET_COMPILE_ERROR], [compile] has returned false; the stack,
    the globals and [stdout] are as they were before the call, and
    [stderr] has grown by exactly one report of the compiler: by
    [[line N] Error ...: message] for one token of the scanner and one
    of the thirteen messages of the compiler and the scanner, and by
    nothing after a report. *)
Theorem compile_error_runs_nothing fuel source p p' :
  Vm.interpret fuel source p = Some (Returned INTERPRET_COMPILE_ERROR, p') ->
  (exists p1, Compiler.compile fuel source initChunk p = Some (false, p1))
  /\ stack (vm p') = stack (vm p) /\ globals p' = globals p
  /\ stdout p' = stdout p
  /\ (exists t msg,
        scanned t /\ In msg compiler_messages
        /\ stderr p' = stderr p ++ report t msg)
  /\ (forall t msg rest,
        scanned t -> In msg compiler_messages ->
        stderr p' = stderr p ++ report t msg ++ rest -> rest = "").
Proof.
  intros I. destruct (interpret_cases _ _ _ _ _ I)
    as [(p1 & C & _ & ->) | (p1 & p3 & C & R & ->)].
  - destruct (compile_frame _ _ _ _ _ _ C) as (V & G & O).
    destruct (compile_stderr _ _ _ _ _ _ C) as (_ & _ & E).
    split; [exists p1; exact C|].
    cbn. rewrite V, G, O. repeat split; apply E.
  - apply run_stderr in R. contradiction.
Qed.

(** A [print] without operand in front of a statement that would print. *)
Lemma compile_error_runs_nothing_witness :
  (exists p1,
     Compiler.compile 50 "print ; print 2;" initChunk started = Some (false, p1))
  /\ stack (vm (left_by (Vm.interpret 50 "print ; print 2;" started)))
     = stack (vm started)
  /\ globals (left_by (Vm.interpret 50 "print ; print 2;" started))
     = globals started
  /\ stdout (left_by (Vm.interpret 50 "print ; print 2;" started))
     = stdout started
  /\ one_report (stderr started)
       (stderr (left_by (Vm.interpret 50 "print ; print 2;" started))).
Proof.
  apply (compile_error_runs_nothing 50 "print ; print 2;" started).
  vm_compute. reflexivity.
Defined.

(** X13: what [interpret] writes to [stderr] is told by its result.  A
    call that returns [INTERPRET_OK] has written nothing to [stderr].
    One that returns [INTERPRET_COMPILE_ERROR] has written exactly one
    report of the compiler.  One that returns
    [INTERPRET_RUNTIME_ERROR] has written [Runtime error: message] and
    a newline once, for the message of the instruction that ends in
    front of [vm.ip] in the chunk that [compile] made: one of the three
    fixed messages of the VM, or [Undefined variable 'n'.] for the name
    [n] that the operand of that [OP_GET_GLOBAL] or [OP_SET_GLOBAL]
    designates; when that message holds no line break, nothing follows
    a diagnostic in what was written. *)
Theorem interpret_diagnostics fuel source p o p' :
  Vm.interpret fuel source p = Some (o, p') ->
  match o with
  | Returned INTERPRET_OK => stderr p' = stderr p
  | Returned INTERPRET_COMPILE_ERROR =>
      (exists t msg,
          scanned t /\ In msg compiler_messages
          /\ stderr p' = stderr p ++ report t msg)
      /\ (forall t msg rest,
            scanned t -> In msg compiler_messages ->
            stderr p' = stderr p ++ report t msg ++ rest -> rest = "")
  | Returned INTERPRET_RUNTIME_ERROR =>
      exists p1 msg,
        Compiler.compile fuel source initChunk p = Some (true, p1)
        /\ raised (compilingChunk p1) (ip (vm p')) msg
        /\ stderr p' = stderr p ++ diagnostic msg
        /\ (newlines msg = 0 ->
            forall m rest,
              stderr p' = stderr p ++ diagnostic m ++ rest -> rest = "")
  | Faulted _ => True
  end.
Proof.
  intros I. destruct (interpret_cases _ _ _ _ _ I)
    as [(p1 & C & -> & ->) | (p1 & p3 & C & R & ->)].
  - destruct (compile_stderr _ _ _ _ _ _ C) as (_ & _ & E). exact E.
  - apply run_stderr in R.
    destruct (compile_stderr _ _ _ _ _ _ C) as (_ & _ & E).
    cbv iota in E. change (stderr (loaded p1)) with (stderr p1) in R.
    change (chunk (vm (loaded p1))) with (compilingChunk p1) in R.
    change (stderr (Vm.freeChunk p3)) with (stderr p3).
    change (ip (vm (Vm.freeChunk p3))) with (ip (vm p3)).
    rewrite <- E. destruct o as [[]|f]; [exact R | destruct R | | constructor].
    destruct R as (msg & Rm & S). exists p1, msg.
    split; [exact C|]. split; [exact Rm|]. split; [exact S|].
    intros N m rest S'. rewrite S in S'. apply app_inv_head in S'.
    exact (diagnostic_alone msg m rest N S').
Qed.

(** The read of a variable that was never defined, after a line was
    printed. *)
Lemma interpret_diagnostics_witness :
  exists p1 msg,
    Compiler.compile 50 "print 1; print b;" initChunk started
    = Some (true, p1)
    /\ raised (compilingChunk p1)
              (ip (vm (left_by (Vm.interpret 50 "print 1; print b;" started))))
              msg
    /\ stderr (left_by (Vm.interpret 50 "print 1; print b;" started))
       = stderr started ++ diagnostic msg
    /\ (newlines msg = 0 ->
        forall m rest,
          stderr (left_by (Vm.interpret 50 "print 1; print b;" started))
          = stderr started ++ diagnostic m ++ rest -> rest = "").
Proof.
  apply (interpret_diagnostics 50 "print 1; print b;" started
           (Returned INTERPRET_RUNTIME_ERROR)).
  vm_compute. reflexivity.
Defined.

(** X14: [interpret] only appends whole lines to [stdout].  Whatever
    the source and the result, [stdout] afterwards is [stdout] before
    followed by the texts of some values, each ended by a newline: the
    only writer is [OP_PRINT]. *)
Theorem interpret_prints_lines fuel source p o p' :
  Vm.interpret fuel source p = Some (o, p') ->
  exists vs, stdout p' = stdout p ++ text (map printValue vs).
Proof.
  intros I. destruct (interpret_cases _ _ _ _ _ I)
    as [(p1 & C & _ & ->) | (p1 & p3 & C & R & ->)];
    destruct (compile_frame _ _ _ _ _ _ C) as (V & G & O).
  - exists []. change (stdout (Vm.freeChunk p1)) with (stdout p1).
    cbn [map text]. rewrite O, append_nil_r. reflexivity.
  - apply run_stdout in R. destruct R as [vs R].
    exists vs. change (stdout (loaded p1)) with (stdout p1) in R.
    change (stdout (Vm.freeChunk p3)) with (stdout p3).
    rewrite R, O. reflexivity.
Qed.

(** Two lines, then a runtime error. *)
Lemma interpret_prints_lines_witness :
  exists vs,
    stdout (left_by (Vm.interpret 50 "print 1; print nil; print -nil;" started))
    = stdout started ++ text (map printValue vs).
Proof.
  apply (interpret_prints_lines 50 "print 1; print nil; print -nil;" started
           (Returned INTERPRET_RUNTIME_ERROR)).
  vm_compute. reflexivity.
Defined.

(** X15: [interpret] never undefines a global, nor overfills the
    table.  A name that [getGlobal] finds before a call is found after
    it, whatever the source and the result, and a table of at most
    [MAX_GLOBALS] entries stays one: [setGlobal] overwrites or appends
    below the bound, and nothing removes an entry. *)
Theorem interpret_keeps_globals fuel source p o p' n :
  Vm.interpret fuel source p = Some (o, p') ->
  (Vm.getGlobal (globals p) n <> None -> Vm.getGlobal (globals p') n <> None)
  /\ (Vm.globalCount (globals p) <= MAX_GLOBALS ->
      Vm.globalCount (globals p') <= MAX_GLOBALS).
Proof.
  intros I. destruct (interpret_cases _ _ _ _ _ I)
    as [(p1 & C & _ & ->) | (p1 & p3 & C & R & ->)];
    destruct (compile_frame _ _ _ _ _ _ C) as (V & G & O).
  - change (globals (Vm.freeChunk p1)) with (globals p1).
    rewrite G. split; intros H; exact H.
  - apply (run_globals _ _ _ _ n) in R.
    change (globals (loaded p1)) with (globals p1) in R.
    change (globals (Vm.freeChunk p3)) with (globals p3).
    rewrite G in R. exact R.
Qed.

(** A table that holds [a], and a source that assigns to it and
    defines [b]. *)
Lemma interpret_keeps_globals_witness :
  (Vm.getGlobal (globals (set_globals [(Some (name_a 7), NIL_VAL)] started))
                (Some (name_a 8)) <> None ->
   Vm.getGlobal
     (globals (left_by (Vm.interpret 50 "a = 1; var b = a;"
                          (set_globals [(Some (name_a 7), NIL_VAL)] started))))
     (Some (name_a 8)) <> None)
  /\ (Vm.globalCount
        (globals (set_globals [(Some (name_a 7), NIL_VAL)] started))
      <= MAX_GLOBALS ->
      Vm.globalCount
        (globals (left_by (Vm.interpret 50 "a = 1; var b = a;"
                             (set_globals [(Some (name_a 7), NIL_VAL)] started))))
      <= MAX_GLOBALS).
Proof.
  apply (interpret_keeps_globals 50 "a = 1; var b = a;"
           (set_globals [(Some (name_a 7), NIL_VAL)] started)
           (Returned INTERPRET_OK)).
  vm_compute. reflexivity.
Defined.

(** ** Ordered comparisons *)

Lemma BINARY_OP_numbers f p b a rest :
  stackBlock (vm p) = BLOCK_LIVE ->
  stack (vm p) = NUMBER_VAL b :: NUMBER_VAL a :: rest ->
  exists p', Vm.BINARY_OP f p = Vm.Ok tt p'
    /\ stack (vm p') = NUMBER_VAL (f a b) :: rest
    /\ stackBlock (vm p') = BLOCK_LIVE
    /\ ip (vm p') = ip (vm p) /\ chunk (vm p') = chunk (vm p)
    /\ globals p' = globals p /\ stdout p' = stdout p /\ stderr p' = stderr p.
Proof.
  intros L S.
  unfold Vm.BINARY_OP, Vm.IS_NUMBER_peek.
  unfold Vm.bind at 1. unfold Vm.bind at 1.
  rewrite (peek0_live (NUMBER_VAL b) (NUMBER_VAL a :: rest) p) by assumption.
  cbn [Vm.ret IS_NUMBER]. unfold Vm.bind at 1. unfold Vm.bind at 1.
  rewrite (peek1_live (NUMBER_VAL b) (NUMBER_VAL a) rest p) by assumption.
  cbn [Vm.ret IS_NUMBER negb].
  unfold Vm.bind at 1.
  rewrite (pop_live (NUMBER_VAL b) (NUMBER_VAL a :: rest) p) by assumption.
  unfold Vm.bind at 1. cbn [Vm.as_number AS_NUMBER Vm.ret].
  unfold Vm.bind at 1.
  match goal with |- context [Vm.pop ?q] =>
    rewrite (pop_live (NUMBER_VAL a) rest q)
      by (try assumption; reflexivity) end.
  unfold Vm.bind at 1. cbn [Vm.as_number AS_NUMBER Vm.ret].
  match goal with |- context [Vm.push ?v ?q] =>
    destruct (push_pushable v q) as (p' & E & S' & L' & I & C & G' & O & Er);
    [left; exact L|] end.
  exists p'. rewrite E, S', I, O, Er, C, G'. repeat split. exact L'.
Qed.

Lemma at_ip_chunk p q bs :
  at_ip p bs -> chunk (vm q) = chunk (vm p) -> ip (vm q) = ip (vm p) ->
  at_ip q bs.
Proof. unfold at_ip. intros H -> ->. exact H. Qed.

Lemma ordered_step o t p b a rest bs :
  ordered o a b = Some t ->
  at_ip p (op o :: bs) -> stackBlock (vm p) = BLOCK_LIVE ->
  stack (vm p) = NUMBER_VAL b :: NUMBER_VAL a :: rest ->
  exists p', Vm.step p = Vm.Ok tt p'
    /\ stack (vm p') = NUMBER_VAL (Vm.of_bool t) :: rest
    /\ stackBlock (vm p') = BLOCK_LIVE
    /\ at_ip p' bs /\ ip (vm p') = ip (vm p) + 1
    /\ globals p' = globals p /\ stdout p' = stdout p /\ stderr p' = stderr p.
Proof.
  intros T A L S.
  unfold Vm.step; fetch A; rewrite decode_op.
  destruct o; try discriminate T; injection T as <-; cbv iota;
    match goal with |- context [Vm.BINARY_OP ?f ?q] =>
      destruct (BINARY_OP_numbers f q b a rest L S)
        as (p' & E & S' & L' & I & C & G & O & Er)
    end;
    destruct (at_ip_chunk _ _ _ H C I) as [A1 A2];
    exists p'; rewrite E, S', O, Er, G, I; repeat split; assumption.
Qed.

Lemma not_step p v rest bs :
  at_ip p (op OP_NOT :: bs) -> stackBlock (vm p) = BLOCK_LIVE ->
  stack (vm p) = v :: rest ->
  exists p', Vm.step p = Vm.Ok tt p'
    /\ stack (vm p') = BOOL_VAL (negb (Vm.isTruthy v)) :: rest
    /\ stackBlock (vm p') = BLOCK_LIVE
    /\ at_ip p' bs /\ ip (vm p') = ip (vm p) + 1
    /\ globals p' = globals p /\ stdout p' = stdout p /\ stderr p' = stderr p.
Proof.
  intros A L S.
  unfold Vm.step; fetch A; rewrite decode_op; cbv iota.
  unfold Vm.bind at 1.
  match goal with |- context [Vm.pop ?q] =>
    rewrite (pop_live v rest q) by assumption end.
  match goal with |- context [Vm.push ?v ?q] =>
    destruct (push_pushable v q) as (p' & E & S' & L' & I & C & G' & O & Er);
    [left; exact L|] end.
  destruct (at_ip_chunk _ _ _ H C I) as [A1 A2].
  exists p'. rewrite E, S', O, Er, G', I. repeat split; assumption.
Qed.

(** X16: an ordered comparison pushes a number, not a boolean.  On two
    numbers [OP_GREATER] and [OP_LESS] go through [BINARY_OP], which
    wraps the C result of the comparison in [NUMBER_VAL]: they push 1
    or 0, and [isTruthy] holds of either, so that a condition [a < b]
    or [a > b] is true whatever the numbers are. *)
Theorem ordered_comparison_pushes_number o t p b a rest :
  ordered o a b = Some t ->
  at_ip p [op o] -> stackBlock (vm p) = BLOCK_LIVE ->
  stack (vm p) = NUMBER_VAL b :: NUMBER_VAL a :: rest ->
  exists p' v, Vm.step p = Vm.Ok tt p'
    /\ stack (vm p') = v :: rest
    /\ v = NUMBER_VAL (Vm.of_bool t)
    /\ Vm.isTruthy v = true
    /\ ip (vm p') = ip (vm p) + 1
    /\ stdout p' = stdout p /\ stderr p' = stderr p.
Proof.
  intros T A L S.
  destruct (ordered_step o t p b a rest [] T A L S)
    as (p' & E & S' & _ & _ & I & _ & O & Er).
  exists p', (NUMBER_VAL (Vm.of_bool t)). repeat split; assumption.
Qed.

(** [2 < 1], with 2 pushed first. *)
Lemma ordered_comparison_pushes_number_witness :
  exists p' v,
    Vm.step (machine 0 [op OP_LESS] [] [NUMBER_VAL 1; NUMBER_VAL 2] [])
    = Vm.Ok tt p'
    /\ stack (vm p') = v :: []
    /\ v = NUMBER_VAL (Vm.of_bool false)
    /\ Vm.isTruthy v = true
    /\ ip (vm p')
       = ip (vm (machine 0 [op OP_LESS] [] [NUMBER_VAL 1; NUMBER_VAL 2] [])) + 1
    /\ stdout p'
       = stdout (machine 0 [op OP_LESS] [] [NUMBER_VAL 1; NUMBER_VAL 2] [])
    /\ stderr p'
       = stderr (machine 0 [op OP_LESS] [] [NUMBER_VAL 1; NUMBER_VAL 2] []).
Proof.
  apply (ordered_comparison_pushes_number OP_LESS false
           (machine 0 [op OP_LESS] [] [NUMBER_VAL 1; NUMBER_VAL 2] [])
           1%float 2%float []).
  - reflexivity.
  - split; [simpl; lia | reflexivity].
  - reflexivity.
  - reflexivity.
Defined.

(** X17: [<=] and [>=] are false of all numbers.  The compiler emits
    [OP_GREATER, OP_NOT] for [<=] and [OP_LESS, OP_NOT] for [>=]; on two
    numbers the comparison pushes a number, of which [OP_NOT] makes
    [false] whatever the numbers are. *)
Theorem negated_comparison_is_false o t p b a rest :
  ordered o a b = Some t ->
  at_ip p [op o; op OP_NOT] -> stackBlock (vm p) = BLOCK_LIVE ->
  stack (vm p) = NUMBER_VAL b :: NUMBER_VAL a :: rest ->
  exists p1 p2, Vm.step p = Vm.Ok tt p1 /\ Vm.step p1 = Vm.Ok tt p2
    /\ stack (vm p2) = BOOL_VAL false :: rest
    /\ ip (vm p2) = ip (vm p) + 2
    /\ stdout p2 = stdout p /\ stderr p2 = stderr p.
Proof.
  intros T A L S.
  destruct (ordered_step o t p b a rest _ T A L S)
    as (p1 & E1 & S1 & L1 & A1 & I1 & _ & O1 & Er1).
  destruct (not_step p1 _ rest [] A1 L1 S1)
    as (p2 & E2 & S2 & _ & _ & I2 & _ & O2 & Er2).
  exists p1, p2. rewrite S2, I2, I1, O2, O1, Er2, Er1.
  repeat split; try assumption. lia.
Qed.

(** [1 <= 2], with 1 pushed first. *)
Lemma negated_comparison_is_false_witness :
  exists p1 p2,
    Vm.step (machine 0 [op OP_GREATER; op OP_NOT] []
                     [NUMBER_VAL 2; NUMBER_VAL 1] []) = Vm.Ok tt p1
    /\ Vm.step p1 = Vm.Ok tt p2
    /\ stack (vm p2) = BOOL_VAL false :: []
    /\ ip (vm p2)
       = ip (vm (machine 0 [op OP_GREATER; op OP_NOT] []
                         [NUMBER_VAL 2; NUMBER_VAL 1] [])) + 2
    /\ stdout p2
       = stdout (machine 0 [op OP_GREATER; op OP_NOT] []
                         [NUMBER_VAL 2; NUMBER_VAL 1] [])
    /\ stderr p2
       = stderr (machine 0 [op OP_GREATER; op OP_NOT] []
                         [NUMBER_VAL 2; NUMBER_VAL 1] []).
Proof.
  apply (negated_comparison_is_false OP_GREATER false
           (machine 0 [op OP_GREATER; op OP_NOT] []
                    [NUMBER_VAL 2; NUMBER_VAL 1] [])
           2%float 1%float []).
  - reflexivity.
  - split; [simpl; lia | reflexivity].
  - reflexivity.
  - reflexivity.
Defined.

(** ** Globals: what a definition leaves alone *)

Lemma getGlobal_overwrite_other gs x y value : forall gs',
  (forall e, In e gs -> Vm.stringsEqual (fst e) x = true ->
             Vm.stringsEqual (fst e) y = false) ->
  Vm.overwrite gs x value = Some gs' ->
  Vm.getGlobal gs' y = Vm.getGlobal gs y.
Proof.
  induction gs as [|[n v] gs IH]; simpl; intros gs' H O; [discriminate|].
  destruct (Vm.stringsEqual n x) eqn:E.
  - injection O as <-. simpl.
    pose proof (H (n, v) (or_introl eq_refl) E) as K. cbn [fst] in K.
    rewrite K. reflexivity.
  - destruct (Vm.overwrite gs x value) as [r|] eqn:Er; [|discriminate].
    injection O as <-. simpl.
    destruct (Vm.stringsEqual n y); [reflexivity|].
    apply IH; [|reflexivity]. intros e I. apply H. right. exact I.
Qed.

Lemma getGlobal_app_other gs n v y :
  Vm.stringsEqual n y = false ->
  Vm.getGlobal (gs ++ [(n, v)])%list y = Vm.getGlobal gs y.
Proof.
  intros E. induction gs as [|[m w] gs IH]; simpl.
  - rewrite E. reflexivity.
  - destruct (Vm.stringsEqual m y); [reflexivity | exact IH].
Qed.

Lemma setGlobal_other gs x y value :
  (forall e, In e gs -> Vm.stringsEqual (fst e) x = true ->
             Vm.stringsEqual (fst e) y = false) ->
  Vm.stringsEqual x y = false ->
  Vm.getGlobal (Vm.setGlobal gs x value) y = Vm.getGlobal gs y.
Proof.
  intros H E. unfold Vm.setGlobal.
  destruct (Vm.overwrite gs x value) as [gs'|] eqn:O.
  - eapply getGlobal_overwrite_other; eassumption.
  - destruct (_ <? _); [apply getGlobal_app_other, E | reflexivity].
Qed.

(** X18: [setGlobal] leaves every other name alone.  For two
    well-formed names of different spelling, in a table of well-formed
    names, what [getGlobal] finds under the one is the same before and
    after [setGlobal] has defined or assigned the other, whether the
    entry was overwritten, appended, or dropped because the table is
    full. *)
Theorem setGlobal_leaves_other_names gs x y value :
  coherent gs x = true -> coherent gs y = true ->
  os_chars x <> os_chars y -> os_addr x <> os_addr y ->
  Vm.getGlobal (Vm.setGlobal gs (Some x) value) (Some y)
  = Vm.getGlobal gs (Some y).
Proof.
  intros Cx Cy D A. apply setGlobal_other.
  - unfold coherent in Cx, Cy.
    rewrite andb_true_iff, forallb_forall in Cx, Cy.
    destruct Cx as [Wx Fx], Cy as [Wy Fy].
    intros [[n|] v] I; cbn [fst]; [|discriminate].
    specialize (Fx _ I). specialize (Fy _ I). cbn [fst] in Fx, Fy.
    apply andb_true_iff in Fx, Fy. destruct Fx as [Wn Fx], Fy as [_ Fy].
    rewrite !stringsEqual_well_formed by assumption.
    intros E. apply orb_true_iff in E.
    assert (Cn : os_chars n = os_chars x).
    { destruct E as [E|E]; [|apply String.eqb_eq, E].
      rewrite E in Fx. simpl in Fx. apply ObjString_eqb_eq in Fx.
      subst n. reflexivity. }
    apply orb_false_iff. split.
    + destruct (ptr_eqb n y) eqn:Py; [|reflexivity].
      simpl in Fy. apply ObjString_eqb_eq in Fy. subst n. congruence.
    + apply String.eqb_neq. congruence.
  - unfold coherent in Cx, Cy. apply andb_true_iff in Cx, Cy.
    rewrite stringsEqual_well_formed by tauto.
    apply orb_false_iff. split.
    + unfold ptr_eqb. apply Nat.eqb_neq. exact A.
    + apply String.eqb_neq. exact D.
Qed.

(** The tables of [v0] and [v1]: defining [a] leaves [v1] as it was. *)
Lemma setGlobal_leaves_other_names_witness :
  Vm.getGlobal
    (Vm.setGlobal (numbered_globals 2) (Some (name_a 7)) (NUMBER_VAL 1))
    (Some (mkObjString 9 2 "v1"))
  = Vm.getGlobal (numbered_globals 2) (Some (mkObjString 9 2 "v1")).
Proof.
  apply (setGlobal_leaves_other_names (numbered_globals 2) (name_a 7)
           (mkObjString 9 2 "v1") (NUMBER_VAL 1)).
  - vm_compute. reflexivity.
  - vm_compute. reflexivity.
  - vm_compute. discriminate.
  - vm_compute. discriminate.
Defined.
